(** * Rosetta: the content-structuring pipeline, embedded in Rocq

    The development follows the JavaScript sources of the parser
    (sequence, groups, types) and of the validator.  Two listings of
    the sequencer, of the grouping engine and of the type indexer are
    part of the repository; each is embedded in a module of its own and
    the statements say which listing they are about.

    Conventions of the embedding:
    - a JavaScript string is a [string]: its code units, below 256;
    - a JavaScript integer (a position, a heading level) is a [Z], an
      array index is a [nat];
    - [null] and [undefined] are [None];
    - an object used as a dictionary keyed by strings is a [gmap string],
      a [Set] of numbers is a [gset Z], an insertion-ordered [Map] is an
      association list;
    - a call that can raise a [TypeError] returns a [Completion]. *)

From Stdlib Require Import ZArith String Ascii List Bool Lia.
From stdpp Require Import base option list gmap strings sorting pretty.

Set Warnings "-register-all".

Local Open Scope string_scope.
Local Open Scope list_scope.
Local Open Scope Z_scope.

(** ** Completions: normal return or a thrown error *)

Inductive JsError :=
| TypeError (msg : string).

Inductive Completion (A : Type) :=
| Normal (a : A)
| Throw (e : JsError).
Arguments Normal {A} a.
Arguments Throw {A} e.

Global Instance Completion_ret : MRet Completion := fun A a => Normal a.
Global Instance Completion_bind : MBind Completion := fun A B k c =>
  match c with
  | Normal a => k a
  | Throw e => Throw e
  end.

(** [l.forEach(f)] for a body [f] that may throw: stops at the first throw. *)
Fixpoint forEachC {A St} (f : St → A → Completion St) (l : list A) (s : St) : Completion St :=
  match l with
  | [] => Normal s
  | a :: l' => s' ← f s a; forEachC f l' s'
  end.

(** ** Elements of the sequence *)

(** The six values of [element.type]. *)
Inductive ElementType :=
| THeading | TParagraph | TImage | TList | TCode | TDivider.

Global Instance ElementType_eq_dec : EqDecision ElementType.
Proof. solve_decision. Defined.

Definition typeName (t : ElementType) : string :=
  match t with
  | THeading => "heading"
  | TParagraph => "paragraph"
  | TImage => "image"
  | TList => "list"
  | TCode => "code"
  | TDivider => "divider"
  end.

(** The four image roles; [roleName] is the string stored in [role]. *)
Inductive ImageRole :=
| RBackground | RIcon | RGallery | RContent.

Global Instance ImageRole_eq_dec : EqDecision ImageRole.
Proof. solve_decision. Defined.

Definition roleName (r : ImageRole) : string :=
  match r with
  | RBackground => "background"
  | RIcon => "icon"
  | RGallery => "gallery"
  | RContent => "content"
  end.

(** One constructor per shape of object that [processNode] returns. *)
Inductive Element :=
| HeadingEl (level : Z) (content : string) (position : Z) (labels : list string)
| ParagraphEl (content : string) (position : Z)
| ImageEl (role : option ImageRole) (src : option string) (alt : string)
          (title : option string) (position : Z)
| DividerEl (position : Z)
| ListEl (ordered : option bool) (items : list string) (position : Z)
| CodeEl (language : option string) (content : option string) (position : Z).

Global Instance Element_eq_dec : EqDecision Element.
Proof. solve_decision. Defined.

Module El.
Definition type (e : Element) : ElementType :=
  match e with
  | HeadingEl _ _ _ _ => THeading
  | ParagraphEl _ _ => TParagraph
  | ImageEl _ _ _ _ _ => TImage
  | DividerEl _ => TDivider
  | ListEl _ _ _ => TList
  | CodeEl _ _ _ => TCode
  end.

Definition position (e : Element) : Z :=
  match e with
  | HeadingEl _ _ p _ | ParagraphEl _ p | ImageEl _ _ _ _ p
  | DividerEl p | ListEl _ _ p | CodeEl _ _ p => p
  end.

(** [element.level]; read only after [element.type === "heading"]. *)
Definition level (e : Element) : Z :=
  match e with
  | HeadingEl l _ _ _ => l
  | _ => 0
  end.

Definition role (e : Element) : option ImageRole :=
  match e with
  | ImageEl r _ _ _ _ => r
  | _ => None
  end.

Definition isType (t : ElementType) (e : Element) : bool :=
  bool_decide (type e = t).
End El.

(** ** Groups and the structure *)

Record Headings := mkHeadings {
  eyebrow : option Element;
  title : option Element;
  subtitle : option Element;
}.

Record Metadata := mkMetadata {
  level : option Z;
  hasMedia : option bool;
  contentTypes : list ElementType;
}.

Record Group := mkGroup {
  headings : Headings;
  content : list Element;
  metadata : Metadata;
}.

Record Structure := mkStructure {
  main : option Group;
  items : list Group;
}.

(** Truthiness of an object-or-null. *)
Definition isSome {A} (o : option A) : bool :=
  match o with
  | Some _ => true
  | None => false
  end.

(** Truthiness of a number-or-null ([0] and [null] are falsy). *)
Definition truthyNum (o : option Z) : bool :=
  match o with
  | Some z => negb (z =? 0)
  | None => false
  end.

(** [Array.from(set)] after adding the given values to an empty [Set]:
    the distinct values in order of first insertion. *)
Fixpoint setToArray {A} `{EqDecision A} (seen acc : list A) : list A :=
  match seen with
  | [] => acc
  | a :: seen' =>
      if bool_decide (a ∈ acc) then setToArray seen' acc
      else setToArray seen' (acc ++ [a])
  end.

(** [for (let i = 0; i < l.length; i++) { body(i, l[i]) }] over a state. *)
Fixpoint forIndex {A St} (body : St → nat → A → St) (i : nat) (l : list A) (s : St) : St :=
  match l with
  | [] => s
  | a :: l' => forIndex body (S i) l' (body s i a)
  end.

Definition setTitle (g : Group) (h : option Element) : Group :=
  mkGroup (mkHeadings (eyebrow (headings g)) h (subtitle (headings g)))
          (content g) (metadata g).
Definition setSubtitle (g : Group) (h : option Element) : Group :=
  mkGroup (mkHeadings (eyebrow (headings g)) (title (headings g)) h)
          (content g) (metadata g).
Definition setEyebrow (g : Group) (h : option Element) : Group :=
  mkGroup (mkHeadings h (title (headings g)) (subtitle (headings g)))
          (content g) (metadata g).
Definition setLevel (g : Group) (l : option Z) : Group :=
  mkGroup (headings g) (content g)
          (mkMetadata l (hasMedia (metadata g)) (contentTypes (metadata g))).
Definition pushContent (g : Group) (e : Element) : Group :=
  mkGroup (headings g) (content g ++ [e]) (metadata g).

(** [sequence.slice(position + 1).find((el) => el.type === "heading")] *)
Definition nextHeadingAfter (sequence : list Element) (position : nat) : option Element :=
  find (El.isType THeading) (drop (position + 1)%nat sequence).

(** ** The grouping engine, second listing (title swap on size)

    Source: [unnamed/part_003], lines 181 to 382. *)

Module Groups2.

Definition createNewGroup (headingElement : option Element) : Group :=
  {| headings := {| title := None; subtitle := None; eyebrow := None |};
     content := [];
     metadata := {| level := El.level <$> headingElement;
                    hasMedia := Some false;
                    contentTypes := [] |} |}.

Definition isEyebrowPattern (heading : Element) (sequence : list Element)
    (position : nat) : bool :=
  match nextHeadingAfter sequence position with
  | Some nextHeading => bool_decide (El.level nextHeading < El.level heading)
  | None => false
  end.

Definition shouldStartNewGroup (heading : Element) (currentGroup : option Group)
    (sequence : list Element) (position : nat) : bool :=
  match currentGroup with
  | None => true
  | Some currentGroup =>
      if (length (content currentGroup) =? 0)%nat
         && negb (isSome (title (headings currentGroup)))
      then true
      else if isEyebrowPattern heading sequence position then false
      else
        match level (metadata currentGroup) with
        | Some l =>
            if negb (l =? 0) then
              (0 <? length (content currentGroup))%nat && (El.level heading <=? l)
            else true
        | None => true
        end
  end.

Definition addHeadingToGroup (group : Group) (heading : Element) : Group :=
  match title (headings group) with
  | None => setLevel (setTitle group (Some heading)) (Some (El.level heading))
  | Some t =>
      if El.level heading <? El.level t then
        setLevel (setTitle (setSubtitle group (Some t)) (Some heading))
                 (Some (El.level heading))
      else if El.level t <? El.level heading then
        if (length (content group) =? 0)%nat
           && negb (isSome (subtitle (headings group)))
        then setLevel (setTitle (setEyebrow group (Some t)) (Some heading))
                      (Some (El.level heading))
        else setSubtitle group (Some heading)
      else group
  end.

Definition isMainGroup (group : Group) : bool :=
  match title (headings group) with
  | Some t => (El.level t =? 1) || (0 <? length (content group))%nat
  | None => false
  end.

Definition addGroupToStructure (group : Group) (structure : Structure) : Structure :=
  let group :=
    mkGroup (headings group) (content group)
      {| level := level (metadata group);
         hasMedia := Some (existsb (El.isType TImage) (content group));
         contentTypes :=
           setToArray (El.type <$> content group) (contentTypes (metadata group)) |} in
  if negb (isSome (main structure)) && isMainGroup group
  then mkStructure (Some group) (items structure)
  else mkStructure (main structure) (items structure ++ [group]).

(** [if (currentGroup) { addGroupToStructure(currentGroup, structure); }] *)
Definition flush (currentGroup : option Group) (structure : Structure) : Structure :=
  match currentGroup with
  | Some g => addGroupToStructure g structure
  | None => structure
  end.

(** The body of the loop; the state is [structure] and [currentGroup].
    In the branch that calls [addHeadingToGroup] the current group is
    not null, since [shouldStartNewGroup] answers [true] on null. *)
Definition body (sequence : list Element) (st : Structure * option Group)
    (i : nat) (element : Element) : Structure * option Group :=
  let '(structure, currentGroup) := st in
  if El.isType TDivider element then
    (flush currentGroup structure, Some (createNewGroup None))
  else if El.isType THeading element then
    if shouldStartNewGroup element currentGroup sequence i then
      (flush currentGroup structure, Some (createNewGroup (Some element)))
    else
      (structure, (fun g => addHeadingToGroup g element) <$> currentGroup)
  else
    let currentGroup := default (createNewGroup None) currentGroup in
    (structure, Some (pushContent currentGroup element)).

Definition processGroups (sequence : list Element) : Structure :=
  let '(structure, currentGroup) :=
    forIndex (body sequence) 0%nat sequence (mkStructure None [], None) in
  flush currentGroup structure.

End Groups2.

(** ** The grouping engine, first listing (eyebrow first)

    Source: [unnamed/part_003], lines 1 to 179. *)

Module Groups1.

Definition createNewGroup : Group :=
  {| headings := {| eyebrow := None; title := None; subtitle := None |};
     content := [];
     metadata := {| level := None; hasMedia := None; contentTypes := [] |} |}.

Definition shouldStartNewGroup (heading : Element) (currentGroup : option Group)
    (sequence : list Element) (position : nat) : bool :=
  match currentGroup with
  | None => true
  | Some currentGroup =>
      let hasTitle := isSome (title (headings currentGroup)) in
      if (length (content currentGroup) =? 0)%nat && negb hasTitle then false
      else if (El.level heading =? 1) && hasTitle then true
      else if (El.level heading =? 3)
           && match nextHeadingAfter sequence position with
              | Some nextHeading => El.level nextHeading <? El.level heading
              | None => false
              end
      then false
      else if match title (headings currentGroup) with
              | Some t =>
                  (El.level heading =? El.level t)
                  && ((0 <? length (content currentGroup))%nat
                      || isSome (subtitle (headings currentGroup)))
              | None => false
              end
      then true
      else
        (* heading.level <= (currentGroup.metadata.level || Infinity) *)
        if truthyNum (level (metadata currentGroup))
        then El.level heading <=? default 0 (level (metadata currentGroup))
        else true
  end.

(** Only the group is returned: no caller reads the role string. *)
Definition addHeadingToGroup (group : Group) (heading : Element) : Group :=
  match title (headings group) with
  | None =>
      let group :=
        if (El.level heading =? 3)
           && negb (isSome (eyebrow (headings group)))
        then setEyebrow group (Some heading)
        else setTitle group (Some heading) in
      setLevel group (Some (El.level heading))
  | Some t =>
      if negb (isSome (subtitle (headings group)))
         && (El.level t <? El.level heading)
      then setSubtitle group (Some heading)
      else pushContent group heading
  end.

Definition isMainGroup (group : Group) : bool :=
  match title (headings group) with
  | Some t => El.level t =? 1
  | None => false
  end
  || match eyebrow (headings group) with
     | Some e => El.level e =? 3
     | None => false
     end.

Definition addGroupToStructure (group : Group) (structure : Structure) : Structure :=
  let group :=
    mkGroup (headings group) (content group)
      {| level := level (metadata group);
         hasMedia := hasMedia (metadata group);
         contentTypes := setToArray [] (contentTypes (metadata group)) |} in
  if negb (isSome (main structure))
     && (isMainGroup group || (length (items structure) =? 0)%nat)
  then mkStructure (Some group) (items structure)
  else mkStructure (main structure) (items structure ++ [group]).

Definition flush (currentGroup : option Group) (structure : Structure) : Structure :=
  match currentGroup with
  | Some g => addGroupToStructure g structure
  | None => structure
  end.

Definition body (sequence : list Element) (st : Structure * option Group)
    (i : nat) (element : Element) : Structure * option Group :=
  let '(structure, currentGroup) := st in
  if El.isType TDivider element then
    (flush currentGroup structure, Some createNewGroup)
  else
    let '(structure, currentGroup) :=
      if El.isType THeading element
         && shouldStartNewGroup element currentGroup sequence i
      then (flush currentGroup structure, Some createNewGroup)
      else (structure, currentGroup) in
    let currentGroup := default createNewGroup currentGroup in
    if El.isType THeading element
    then (structure, Some (addHeadingToGroup currentGroup element))
    else (structure, Some (pushContent currentGroup element)).

(** The second pass: a first item with a level-1 title becomes main. *)
Definition secondPass (structure : Structure) : Structure :=
  match main structure, items structure with
  | None, firstGroup :: rest =>
      match title (headings firstGroup) with
      | Some t =>
          if El.level t =? 1 then mkStructure (Some firstGroup) rest else structure
      | None => structure
      end
  | _, _ => structure
  end.

Definition processGroups (sequence : list Element) : Structure :=
  let '(structure, currentGroup) :=
    forIndex (body sequence) 0%nat sequence (mkStructure None [], None) in
  secondPass (flush currentGroup structure).

End Groups1.

(** ** Regular expressions, with the backtracking semantics of ECMAScript *)

Module Regex.

Inductive regex :=
| Eps
| Chr (c : ascii)
| Class (p : ascii → bool)
| Seq (r1 r2 : regex)
| Alt (r1 r2 : regex)
| Star (r : regex)
| Cap (n : nat) (r : regex)
| Bol
| Eol.

Definition Plus (r : regex) : regex := Seq r (Star r).

Fixpoint lit (s : string) : regex :=
  match s with
  | EmptyString => Eps
  | String c EmptyString => Chr c
  | String c s' => Seq (Chr c) (lit s')
  end.

Definition codeUnit (c : ascii) : N := N_of_ascii c.

(** [\s], on code units below 256: TAB, LF, VT, FF, CR, SP, NBSP. *)
Definition space : ascii → bool := fun c =>
  let n := codeUnit c in
  ((9 <=? n) && (n <=? 13) || (n =? 32) || (n =? 160))%N.

(** [\w]: the letters A-Z and a-z, the digits and the underscore. *)
Definition word : ascii → bool := fun c =>
  let n := codeUnit c in
  ((65 <=? n) && (n <=? 90) || (97 <=? n) && (n <=? 122)
   || (48 <=? n) && (n <=? 57) || (n =? 95))%N.

(** [[\w-]] *)
Definition wordOrDash : ascii → bool := fun c =>
  word c || (codeUnit c =? 45)%N.

(** [.] without the s flag: any code unit but LF and CR. *)
Definition dot : ascii → bool := fun c =>
  negb ((codeUnit c =? 10) || (codeUnit c =? 13))%N.

Definition Captures := gmap nat string.

(** [m r len caps s k]: match [r] at the suffix [s] of an input of
    length [len], then continue with [k]; alternatives are tried in
    order, [Star] is greedy and refuses an empty iteration. *)
Fixpoint m {R} (r : regex) (len : nat) (caps : Captures) (s : list ascii)
    (k : Captures → list ascii → option R) : option R :=
  match r with
  | Eps => k caps s
  | Chr c =>
      match s with
      | c' :: s' => if bool_decide (c' = c) then k caps s' else None
      | [] => None
      end
  | Class p =>
      match s with
      | c' :: s' => if p c' then k caps s' else None
      | [] => None
      end
  | Seq r1 r2 => m r1 len caps s (fun caps' s' => m r2 len caps' s' k)
  | Alt r1 r2 =>
      match m r1 len caps s k with
      | Some x => Some x
      | None => m r2 len caps s k
      end
  | Star r1 =>
      (fix loop (fuel : nat) (caps : Captures) (s : list ascii) : option R :=
         match fuel with
         | O => k caps s
         | S fuel' =>
             match
               m r1 len caps s (fun caps' s' =>
                 if (length s' <? length s)%nat then loop fuel' caps' s' else None)
             with
             | Some x => Some x
             | None => k caps s
             end
         end) (length s) caps s
  | Cap n r1 =>
      m r1 len caps s (fun caps' s' =>
        k (<[n := string_of_list_ascii (take (length s - length s')%nat s)]> caps') s')
  | Bol => if (length s =? len)%nat then k caps s else None
  | Eol => match s with [] => k caps s | _ => None end
  end.

Record MatchResult := mkMatch {
  index : nat;
  matched : string;
  groups : Captures;
}.

(** A match that starts exactly at the suffix [s]. *)
Definition matchAt (r : regex) (len : nat) (s : list ascii) : option MatchResult :=
  m r len ∅ s (fun caps s' =>
    Some (mkMatch (len - length s)%nat
                  (string_of_list_ascii (take (length s - length s')%nat s)) caps)).

(** The leftmost match: start positions are tried from left to right. *)
Fixpoint search (r : regex) (len : nat) (s : list ascii) : option MatchResult :=
  match matchAt r len s with
  | Some res => Some res
  | None =>
      match s with
      | [] => None
      | _ :: s' => search r len s'
      end
  end.

(** [regex.exec(str)] for a regex without flags. *)
Definition exec (r : regex) (str : string) : option MatchResult :=
  search r (String.length str) (list_ascii_of_string str).

(** [str.match(regex)] for a regex without the g flag. *)
Definition match_ (str : string) (r : regex) : option MatchResult := exec r str.

(** [str.replace(regex, replacement)] for a regex without the g flag and
    a replacement without dollar patterns. *)
Definition replace (str : string) (r : regex) (replacement : string) : string :=
  match exec r str with
  | Some res =>
      let cs := list_ascii_of_string str in
      string_of_list_ascii (take (index res) cs)
      ++ replacement
      ++ string_of_list_ascii (drop (index res + String.length (matched res))%nat cs)
  | None => str
  end.

(** [str.split(separator)] for a separator regex without capturing
    groups: the loop of the specification, with [p] the start of the
    pending piece and [q] the position where a separator is tried. *)
Fixpoint splitLoop (r : regex) (cs : list ascii) (fuel p q : nat)
    (acc : list string) : list string :=
  let size := length cs in
  match fuel with
  | O => acc
  | S fuel' =>
      if (q <? size)%nat then
        match matchAt r size (drop q cs) with
        | None => splitLoop r cs fuel' p (q + 1)%nat acc
        | Some res =>
            let e := (q + String.length (matched res))%nat in
            if (e =? p)%nat then splitLoop r cs fuel' p (q + 1)%nat acc
            else
              splitLoop r cs fuel' e e
                (acc ++ [string_of_list_ascii (take (q - p)%nat (drop p cs))])
        end
      else acc ++ [string_of_list_ascii (drop p cs)]
  end.

Definition split (str : string) (r : regex) : list string :=
  let cs := list_ascii_of_string str in
  match cs with
  | [] => match matchAt r 0%nat [] with Some _ => [] | None => [str] end
  | _ => splitLoop r cs (2 * length cs + 2)%nat 0%nat 0%nat []
  end.

End Regex.

(** ** The parse tree *)

(** A node of the markdown tree: [type] and the optional properties the
    sequencer reads.  [depth] is read on heading nodes only. *)
Inductive Node :=
| mkNode (type : string) (depth : Z) (value : option string)
         (children : option (list Node)) (alt url title lang : option string)
         (ordered : option bool).

Module Ast.
Definition type (n : Node) : string := let 'mkNode t _ _ _ _ _ _ _ _ := n in t.
Definition depth (n : Node) : Z := let 'mkNode _ d _ _ _ _ _ _ _ := n in d.
Definition value (n : Node) : option string := let 'mkNode _ _ v _ _ _ _ _ _ := n in v.
Definition children (n : Node) : option (list Node) :=
  let 'mkNode _ _ _ c _ _ _ _ _ := n in c.
Definition alt (n : Node) : option string := let 'mkNode _ _ _ _ a _ _ _ _ := n in a.
Definition url (n : Node) : option string := let 'mkNode _ _ _ _ _ u _ _ _ := n in u.
Definition title (n : Node) : option string := let 'mkNode _ _ _ _ _ _ t _ _ := n in t.
Definition lang (n : Node) : option string := let 'mkNode _ _ _ _ _ _ _ l _ := n in l.
Definition ordered (n : Node) : option bool := let 'mkNode _ _ _ _ _ _ _ _ o := n in o.

(** Builders for the node kinds of the parser. *)
Definition root (cs : list Node) : Node :=
  mkNode "root" 0 None (Some cs) None None None None None.
Definition text (v : string) : Node :=
  mkNode "text" 0 (Some v) None None None None None None.
Definition heading (d : Z) (cs : list Node) : Node :=
  mkNode "heading" d None (Some cs) None None None None None.
Definition paragraph (cs : list Node) : Node :=
  mkNode "paragraph" 0 None (Some cs) None None None None None.
Definition image (a u t : option string) : Node :=
  mkNode "image" 0 None None a u t None None.
Definition thematicBreak : Node :=
  mkNode "thematicBreak" 0 None None None None None None None.
End Ast.

(** [s || d] for a string-or-undefined [s]: the empty string is falsy. *)
Definition orElse (s : option string) (d : option string) : option string :=
  match s with
  | Some v => if bool_decide (v = "") then d else Some v
  | None => d
  end.

(** The role named by the first capture of the role prefix. *)
Definition roleOfName (s : string) : option ImageRole :=
  if bool_decide (s = "background") then Some RBackground
  else if bool_decide (s = "icon") then Some RIcon
  else if bool_decide (s = "gallery") then Some RGallery
  else if bool_decide (s = "content") then Some RContent
  else None.

(** The role prefix of an alt text: at the start of the string, group 1
    is one of the three role words, then a colon, any white space, and
    group 2 is the rest of the line. *)
Definition roleRe : Regex.regex :=
  Regex.Seq Regex.Bol
    (Regex.Seq
       (Regex.Cap 1 (Regex.Alt (Regex.lit "background")
                     (Regex.Alt (Regex.lit "icon") (Regex.lit "gallery"))))
       (Regex.Seq (Regex.Chr ":")
          (Regex.Seq (Regex.Star (Regex.Class Regex.space))
                     (Regex.Cap 2 (Regex.Star (Regex.Class Regex.dot)))))).

(** [getTextContent], the same in both listings. *)
Fixpoint getTextContent (node : Node) : string :=
  match node with
  | mkNode _ _ value children _ _ _ _ _ =>
      match orElse value None with
      | Some v => v
      | None =>
          match children with
          | Some cs => String.concat "" (map getTextContent cs)
          | None => ""
          end
      end
  end.

(** The state of [processSequence]: the array and the counter. *)
Record SeqState := mkSeqState {
  sequence : list Element;
  position : Z;
}.

(** [visit(node, callback)], the same in both listings. *)
Fixpoint visit (callback : SeqState → Node → Completion SeqState) (node : Node)
    (st : SeqState) : Completion SeqState :=
  match node with
  | mkNode _ _ _ children _ _ _ _ _ =>
      st ← callback st node;
      match children with
      | Some cs => forEachC (fun st child => visit callback child st) cs st
      | None => Normal st
      end
  end.

(** The callback of [processSequence]: [processNode(node, position++)],
    then a push when an element came back. *)
Definition sequenceCallback
    (processNode : Node → Z → Completion (option Element))
    (st : SeqState) (node : Node) : Completion SeqState :=
  element ← processNode node (position st);
  let position' := position st + 1 in
  match element with
  | Some e => Normal (mkSeqState (sequence st ++ [e]) position')
  | None => Normal (mkSeqState (sequence st) position')
  end.

(** ** The sequencer, second listing

    Source: [unnamed/part_004], lines 151 to 316. *)

Module Sequence2.

(** The label marker of [extractLabels]: an opening brace, group 1 made
    of one dotted identifier followed by any number of further dotted
    identifiers, each after white space, a closing brace, any white
    space, the end of the string. *)
Definition labelRe : Regex.regex :=
  let label := Regex.Seq (Regex.Chr ".") (Regex.Plus (Regex.Class Regex.wordOrDash)) in
  Regex.Seq (Regex.Chr "{")
    (Regex.Seq
       (Regex.Cap 1
          (Regex.Seq label
             (Regex.Star (Regex.Seq (Regex.Plus (Regex.Class Regex.space)) label))))
       (Regex.Seq (Regex.Chr "}")
          (Regex.Seq (Regex.Star (Regex.Class Regex.space)) Regex.Eol))).

(** The marker that [processNode] removes from a heading: any white
    space, an opening brace, one dotted identifier, a closing brace,
    any white space, the end of the string. *)
Definition stripRe : Regex.regex :=
  Regex.Seq (Regex.Star (Regex.Class Regex.space))
    (Regex.Seq (Regex.Chr "{")
       (Regex.Seq (Regex.Chr ".")
          (Regex.Seq (Regex.Plus (Regex.Class Regex.wordOrDash))
             (Regex.Seq (Regex.Chr "}")
                (Regex.Seq (Regex.Star (Regex.Class Regex.space)) Regex.Eol))))).

(** [label.substring(1)] *)
Definition substring1 (label : string) : string :=
  match label with
  | String _ rest => rest
  | EmptyString => ""
  end.

Definition extractLabels (node : Node) : list string :=
  let text := getTextContent node in
  match Regex.match_ text labelRe with
  | Some labelMatch =>
      substring1 <$>
        Regex.split (default "" (Regex.groups labelMatch !! 1%nat))
                    (Regex.Plus (Regex.Class Regex.space))
  | None => []
  end.

Definition processImageNode (node : Node) (position : Z) : Element :=
  let alt := default "" (orElse (Ast.alt node) None) in
  let roleMatch := Regex.match_ alt roleRe in
  let role :=
    match roleMatch with
    | Some rm => roleOfName (default "" (Regex.groups rm !! 1%nat))
    | None => if position =? 0 then Some RBackground else Some RContent
    end in
  let cleanAlt :=
    match roleMatch with
    | Some rm => default "" (Regex.groups rm !! 2%nat)
    | None => alt
    end in
  ImageEl role (Ast.url node) cleanAlt (orElse (Ast.title node) None) position.

Definition processNode (node : Node) (position : Z) : Completion (option Element) :=
  let type := Ast.type node in
  if bool_decide (type = "heading") then
    let labels := extractLabels node in
    let content :=
      match Ast.children node with
      | Some _ => Regex.replace (getTextContent node) stripRe ""
      | None => ""
      end in
    Normal (Some (HeadingEl (Ast.depth node) content position labels))
  else if bool_decide (type = "paragraph") then
    (* node.children?.length === 1 && node.children[0].type === "image" *)
    match Ast.children node with
    | Some [child] =>
        if bool_decide (Ast.type child = "image")
        then Normal (Some (processImageNode child position))
        else Normal (Some (ParagraphEl (getTextContent node) position))
    | _ => Normal (Some (ParagraphEl (getTextContent node) position))
    end
  else if bool_decide (type = "image") then
    Normal (Some (processImageNode node position))
  else if bool_decide (type = "thematicBreak") then
    Normal (Some (DividerEl position))
  else if bool_decide (type = "list") then
    match Ast.children node with
    | Some cs =>
        Normal (Some (ListEl (Ast.ordered node) (getTextContent <$> cs) position))
    | None => Throw (TypeError "Cannot read properties of undefined (reading 'map')")
    end
  else if bool_decide (type = "code") then
    Normal (Some (CodeEl (orElse (Ast.lang node) None) (Ast.value node) position))
  else Normal None.

Definition processSequence (ast : Node) : Completion (list Element) :=
  st ← visit (sequenceCallback processNode) ast (mkSeqState [] 0);
  Normal (sequence st).

End Sequence2.

(** ** The sequencer, first listing

    Source: [unnamed/part_004], lines 1 to 149. *)

Module Sequence1.

(** Not implemented in this listing: no label is ever returned. *)
Definition extractLabels (node : Node) : list string := [].

Definition processImageNode (node : Node) (position : Z) : Element :=
  let alt := default "" (orElse (Ast.alt node) None) in
  let roleMatch := Regex.match_ alt roleRe in
  ImageEl
    match roleMatch with
    | Some rm => roleOfName (default "" (Regex.groups rm !! 1%nat))
    | None => Some RContent
    end
    (Ast.url node)
    match roleMatch with
    | Some rm => default "" (Regex.groups rm !! 2%nat)
    | None => alt
    end
    (orElse (Ast.title node) None) position.

(** [node.children.length === 1 && node.children[0].type === "image"];
    the image child is returned with a positive answer. *)
Definition isImageParagraph (node : Node) : Completion (option Node) :=
  match Ast.children node with
  | Some [child] =>
      Normal (if bool_decide (Ast.type child = "image") then Some child else None)
  | Some _ => Normal None
  | None => Throw (TypeError "Cannot read properties of undefined (reading 'length')")
  end.

Definition processNode (node : Node) (position : Z) : Completion (option Element) :=
  let type := Ast.type node in
  if bool_decide (type = "heading") then
    Normal (Some (HeadingEl (Ast.depth node) (getTextContent node) position
                            (extractLabels node)))
  else if bool_decide (type = "paragraph") then
    only ← isImageParagraph node;
    match only with
    | Some child => Normal (Some (processImageNode child position))
    | None => Normal (Some (ParagraphEl (getTextContent node) position))
    end
  else if bool_decide (type = "image") then
    Normal (Some (processImageNode node position))
  else if bool_decide (type = "thematicBreak") then
    Normal (Some (DividerEl position))
  else if bool_decide (type = "list") then
    match Ast.children node with
    | Some cs =>
        Normal (Some (ListEl (Ast.ordered node) (getTextContent <$> cs) position))
    | None => Throw (TypeError "Cannot read properties of undefined (reading 'map')")
    end
  else if bool_decide (type = "code") then
    Normal (Some (CodeEl (orElse (Ast.lang node) None) (Ast.value node) position))
  else Normal None.

Definition processSequence (ast : Node) : Completion (list Element) :=
  st ← visit (sequenceCallback processNode) ast (mkSeqState [] 0);
  Normal (sequence st).

End Sequence1.

(** ** The type index

    The records and helpers that both listings of the indexer share:
    [getElementContext], the frequency map, the initial collections. *)

Module Index.

Record Context := mkContext {
  position : nat;
  previousElement : option Element;
  nextElement : option Element;
  nearestHeading : option Element;
}.

(** A bucket entry: the element's own properties and its [context]. *)
Record Entry := mkEntry {
  element : Element;
  context : Context;
}.

Record Metadata := mkMetadata {
  totalElements : nat;
  dominantType : option ElementType;
  hasMedia : bool;
}.

Record Collections := mkCollections {
  headings : list Entry;
  paragraphs : list Entry;
  images : gmap string (list Entry);
  lists : list Entry;
  code : list Entry;
  dividers : list Entry;
  metadata : Metadata;
}.

(** The loop [for (let i = position - 1; i >= 0; i--)], for a position
    up to the length of the sequence, as [processByType] passes it: every
    index it reads is below [position], hence inside the sequence.  A
    position beyond the end, where the source throws on the first read,
    is not represented. *)
Fixpoint nearestHeadingBefore (sequence : list Element) (position : nat)
    : option Element :=
  match position with
  | O => None
  | S i =>
      match sequence !! i with
      | Some e =>
          if El.isType THeading e then Some e
          else nearestHeadingBefore sequence i
      | None => nearestHeadingBefore sequence i
      end
  end.

Definition getElementContext (sequence : list Element) (position : nat) : Context :=
  {| position := position;
     previousElement :=
       if (0 <? position)%nat then sequence !! (position - 1)%nat else None;
     nextElement :=
       if Z.of_nat position <? Z.of_nat (length sequence) - 1
       then sequence !! (position + 1)%nat else None;
     nearestHeading := nearestHeadingBefore sequence position |}.

(** The type-frequency [Map]: keys in order of first insertion. *)
Definition Frequency := list (ElementType * nat).

Definition freqGet (m : Frequency) (t : ElementType) : option nat :=
  snd <$> find (fun p => bool_decide (fst p = t)) m.

Fixpoint freqSet (m : Frequency) (t : ElementType) (v : nat) : Frequency :=
  match m with
  | [] => [(t, v)]
  | (t', v') :: m' =>
      if bool_decide (t' = t) then (t, v) :: m' else (t', v') :: freqSet m' t v
  end.

(** [typeFrequency.set(type, (typeFrequency.get(type) || 0) + 1)] *)
Definition countType (m : Frequency) (t : ElementType) : Frequency :=
  freqSet m t (default 0%nat (freqGet m t) + 1)%nat.

(** The loop that picks the dominant type: the first key, in insertion
    order, whose frequency is strictly above all earlier ones. *)
Definition dominant (m : Frequency) : option ElementType :=
  snd (foldl (fun '(maxFrequency, dom) '(t, frequency) =>
                if (maxFrequency <? frequency)%nat then (frequency, Some t)
                else (maxFrequency, dom))
             (0%nat, None) m).

Definition initial (sequence : list Element) : Collections :=
  {| headings := [];
     paragraphs := [];
     images := {[ "background" := []; "content" := []; "gallery" := []; "icons" := [] ]};
     lists := [];
     code := [];
     dividers := [];
     metadata := {| totalElements := length sequence;
                    dominantType := None;
                    hasMedia := false |} |}.

Definition pushHeading (c : Collections) (e : Entry) : Collections :=
  mkCollections (headings c ++ [e]) (paragraphs c) (images c) (lists c) (code c)
                (dividers c) (metadata c).
Definition pushParagraph (c : Collections) (e : Entry) : Collections :=
  mkCollections (headings c) (paragraphs c ++ [e]) (images c) (lists c) (code c)
                (dividers c) (metadata c).
Definition pushList (c : Collections) (e : Entry) : Collections :=
  mkCollections (headings c) (paragraphs c) (images c) (lists c ++ [e]) (code c)
                (dividers c) (metadata c).
Definition pushCode (c : Collections) (e : Entry) : Collections :=
  mkCollections (headings c) (paragraphs c) (images c) (lists c) (code c ++ [e])
                (dividers c) (metadata c).
Definition pushDivider (c : Collections) (e : Entry) : Collections :=
  mkCollections (headings c) (paragraphs c) (images c) (lists c) (code c)
                (dividers c ++ [e]) (metadata c).
Definition setImages (c : Collections) (m : gmap string (list Entry)) : Collections :=
  mkCollections (headings c) (paragraphs c) m (lists c) (code c) (dividers c)
                (metadata c).
Definition setHasMedia (c : Collections) : Collections :=
  mkCollections (headings c) (paragraphs c) (images c) (lists c) (code c)
                (dividers c)
                (mkMetadata (totalElements (metadata c)) (dominantType (metadata c)) true).
Definition setDominantType (c : Collections) (t : option ElementType) : Collections :=
  mkCollections (headings c) (paragraphs c) (images c) (lists c) (code c)
                (dividers c)
                (mkMetadata (totalElements (metadata c)) t (hasMedia (metadata c))).

(** [element.role || "content"], as the key of a role bucket. *)
Definition roleKey (element : Element) : string :=
  roleName (default RContent (El.role element)).

End Index.

(** ** The type indexer, listing of [src/parser/types.js] *)

Module Types1.
Import Index.

(** The body of the [forEach]; the state is [collections] and
    [typeFrequency].  Pushing to a role bucket that the object does
    not have raises a [TypeError]. *)
Definition body (sequence : list Element) (st : Collections * Frequency)
    (index : nat) (element : Element) : Completion (Collections * Frequency) :=
  let '(collections, typeFrequency) := st in
  let typeFrequency := countType typeFrequency (El.type element) in
  let entry := mkEntry element (getElementContext sequence index) in
  match El.type element with
  | THeading => Normal (pushHeading collections entry, typeFrequency)
  | TParagraph => Normal (pushParagraph collections entry, typeFrequency)
  | TImage =>
      let role := roleKey element in
      match images collections !! role with
      | Some bucket =>
          Normal (setHasMedia
                    (setImages collections
                       (<[role := bucket ++ [entry]]> (images collections))),
                  typeFrequency)
      | None =>
          Throw (TypeError "Cannot read properties of undefined (reading 'push')")
      end
  | TList => Normal (pushList collections entry, typeFrequency)
  | TCode => Normal (pushCode collections entry, typeFrequency)
  | TDivider => Normal (pushDivider collections entry, typeFrequency)
  end.

Fixpoint forEachIndex (sequence : list Element) (i : nat) (l : list Element)
    (st : Collections * Frequency) : Completion (Collections * Frequency) :=
  match l with
  | [] => Normal st
  | element :: l' =>
      st' ← body sequence st i element;
      forEachIndex sequence (S i) l' st'
  end.

Definition processByType (sequence : list Element) : Completion Collections :=
  '(collections, typeFrequency) ←
    forEachIndex sequence 0%nat sequence (initial sequence, []);
  Normal (setDominantType collections (dominant typeFrequency)).

End Types1.

(** ** The type indexer, second listing

    Source: [unnamed/part_005].  It differs from the first in the image
    case, which creates a missing role bucket before pushing. *)

Module Types2.
Import Index.

Definition body (sequence : list Element) (st : Collections * Frequency)
    (index : nat) (element : Element) : Collections * Frequency :=
  let '(collections, typeFrequency) := st in
  let typeFrequency := countType typeFrequency (El.type element) in
  let entry := mkEntry element (getElementContext sequence index) in
  match El.type element with
  | THeading => (pushHeading collections entry, typeFrequency)
  | TParagraph => (pushParagraph collections entry, typeFrequency)
  | TImage =>
      let role := roleKey element in
      (* Ensure the role array exists *)
      let images :=
        match images collections !! role with
        | Some _ => images collections
        | None => <[role := []]> (images collections)
        end in
      (setHasMedia
         (setImages collections
            (<[role := default [] (images !! role) ++ [entry]]> images)),
       typeFrequency)
  | TList => (pushList collections entry, typeFrequency)
  | TCode => (pushCode collections entry, typeFrequency)
  | TDivider => (pushDivider collections entry, typeFrequency)
  end.

Definition processByType (sequence : list Element) : Collections :=
  let '(collections, typeFrequency) :=
    forIndex (body sequence) 0%nat sequence (initial sequence, []) in
  setDominantType collections (dominant typeFrequency).

End Types2.

(** ** The validator

    Source: [src/validation/index.js]. *)

Module Validation.

(** The kinds of value that [props] can hold. *)
Inductive JsValue :=
| VUndefined | VNull | VBool (b : bool) | VNumber (z : Z) | VString (s : string)
| VObject.

Definition truthy (v : JsValue) : bool :=
  match v with
  | VUndefined | VNull => false
  | VBool b => b
  | VNumber z => negb (z =? 0)
  | VString s => negb (bool_decide (s = ""))
  | VObject => true
  end.

(** [typeof v === "object"] *)
Definition typeofObject (v : JsValue) : bool :=
  match v with
  | VNull | VObject => true
  | _ => false
  end.

Inductive Location :=
| AtElement (e : Element)
| AtEntry (e : Index.Entry)
| AtGroup (g : Group).

Record Diagnostic := mkDiagnostic {
  type : string;
  message : string;
  location : option Location;
}.

Record Results := mkResults {
  errors : list Diagnostic;
  warnings : list Diagnostic;
  suggestions : list Diagnostic;
}.

Definition pushError (r : Results) (d : Diagnostic) : Results :=
  mkResults (errors r ++ [d]) (warnings r) (suggestions r).
Definition pushWarning (r : Results) (d : Diagnostic) : Results :=
  mkResults (errors r) (warnings r ++ [d]) (suggestions r).
Definition pushSuggestion (r : Results) (d : Diagnostic) : Results :=
  mkResults (errors r) (warnings r) (suggestions r ++ [d]).

(** The argument of [validateContent] and its [content] property.  The
    [sequence] is an array, or [None] when it is missing ([null] or
    [undefined]); a value of another kind is not represented. *)
Module Input.
Record Parsed := mkParsed {
  sequence : option (list Element);
  groups : Structure;
  byType : Index.Collections;
}.

Record Section := mkSection {
  component : option string;
  props : JsValue;
  content : Parsed;
}.
End Input.

Definition validateFrontmatter (content : Input.Section) (results : Results) : Results :=
  let results :=
    if isSome (orElse (Input.component content) None) then results
    else pushError results
           (mkDiagnostic "missing_component"
              "Component name is required in frontmatter" None) in
  if truthy (Input.props content) && negb (typeofObject (Input.props content))
  then pushError results
         (mkDiagnostic "invalid_props" "Props must be an object" None)
  else results.

(** Levels are integers: [previousLevel + 1] is exact here, as it is in
    the source on safe integers. *)
Definition validateHeadingHierarchy (headings : list Index.Entry)
    (results : Results) : Results :=
  match headings with
  | [] =>
      pushWarning results
        (mkDiagnostic "no_headings" "Content has no headings" None)
  | _ =>
      snd (foldl (fun '(previousLevel, results) heading =>
                    let l := El.level (Index.element heading) in
                    (l,
                     if previousLevel + 1 <? l then
                       pushWarning results
                         (mkDiagnostic "skipped_heading_level"
                            ("Heading level skipped from h" +:+ pretty previousLevel
                             +:+ " to h" +:+ pretty l)
                            (Some (AtEntry heading)))
                     else results))
                 (0, results) headings)
  end.

(** The positions collected by [validateOrphanedContent]: those of the
    elements in [main.content] and in each [items[].content]. *)
Definition groupedPositions (groups : Structure) : gset Z :=
  let add := foldl (fun (s : gset Z) el => s ∪ {[ El.position el ]}) in
  let fromMain :=
    match main groups with
    | Some m => add ∅ (content m)
    | None => ∅
    end in
  foldl (fun s group => add s (content group)) fromMain (items groups).

Definition orphanWarning (element : Element) : Diagnostic :=
  mkDiagnostic "orphaned_content"
    (typeName (El.type element) +:+ " element not part of any group")
    (Some (AtElement element)).

Definition validateOrphanedContent (content : Input.Parsed) (results : Results)
    : Completion Results :=
  let positions := groupedPositions (Input.groups content) in
  match Input.sequence content with
  | Some sequence =>
      Normal
        (forIndex (fun results index element =>
                     if negb (bool_decide (Z.of_nat index ∈ positions))
                        && negb (El.isType TDivider element)
                     then pushWarning results (orphanWarning element)
                     else results)
                  0%nat sequence results)
  | None =>
      Throw (TypeError "Cannot read properties of undefined (reading 'forEach')")
  end.

Definition isEmptyGroup (group : Group) : bool :=
  (length (content group) =? 0)%nat
  && negb (isSome (eyebrow (headings group))
           || isSome (title (headings group))
           || isSome (subtitle (headings group))).

Definition validateStructure (content : Input.Parsed) (results : Results)
    : Completion Results :=
  match Input.sequence content with
  | None =>
      Normal (pushError results
                (mkDiagnostic "invalid_sequence"
                   "Content sequence is invalid or missing" None))
  | Some _ =>
      let results :=
        validateHeadingHierarchy (Index.headings (Input.byType content)) results in
      let results :=
        forIndex (fun results index group =>
                    if isEmptyGroup group then
                      pushWarning results
                        (mkDiagnostic "empty_group"
                           ("Group " +:+ pretty (index + 1)%nat +:+ " is empty")
                           (Some (AtGroup group)))
                    else results)
                 0%nat (items (Input.groups content)) results in
      validateOrphanedContent content results
  end.

(** The loop runs over [max(0, pos - 2) <= i < min(length, pos + 2)]. *)
Definition findNearbyHeading (element : Element) (sequence : list Element)
    : option Element :=
  let pos := El.position element in
  let searchRange := 2 in
  let from := Z.max 0 (pos - searchRange) in
  let to := Z.min (Z.of_nat (length sequence)) (pos + searchRange) in
  head (omap (fun i =>
                e ← sequence !! Z.to_nat i;
                if El.isType THeading e then Some e else None)
             (seqZ from (to - from))).

Definition validateContentGroups (content : Input.Parsed) (results : Results)
    : Completion Results :=
  let results :=
    match main (Input.groups content) with
    | Some m =>
        if isSome (title (headings m)) then results
        else pushWarning results
               (mkDiagnostic "no_main_title" "Main content group has no title" None)
    | None =>
        pushSuggestion results
          (mkDiagnostic "no_main_group" "Content has no clear main group" None)
    end in
  validateOrphanedContent content results.

Definition validateRelationships (content : Input.Parsed) (results : Results)
    : Completion Results :=
  match Index.images (Input.byType content) !! "background" with
  | None =>
      Throw (TypeError "Cannot read properties of undefined (reading 'forEach')")
  | Some backgrounds =>
      results ←
        forEachC (fun results image =>
                    match Input.sequence content with
                    | None =>
                        Throw (TypeError
                                 "Cannot read properties of undefined (reading 'length')")
                    | Some sequence =>
                        match findNearbyHeading (Index.element image) sequence with
                        | Some _ => Normal results
                        | None =>
                            Normal (pushSuggestion results
                                      (mkDiagnostic "orphaned_background"
                                         "Background image has no associated heading"
                                         (Some (AtEntry image))))
                        end
                    end)
                 backgrounds results;
      validateContentGroups content results
  end.

Definition validateContent (content : Input.Section) : Completion Results :=
  let results := mkResults [] [] [] in
  let results := validateFrontmatter content results in
  results ← validateStructure (Input.content content) results;
  validateRelationships (Input.content content) results.

(** The diagnostics of a given [type] tag. *)
Definition ofType (tag : string) (ds : list Diagnostic) : list Diagnostic :=
  filter (fun d => type d = tag) ds.

End Validation.

(** ** What a structure holds *)

(** The elements held by a group: its filled heading slots, then its
    content. *)
Definition groupElements (g : Group) : list Element :=
  option_list (eyebrow (headings g)) ++ option_list (title (headings g))
  ++ option_list (subtitle (headings g)) ++ content g.

(** [[main] + items] *)
Definition structureGroups (s : Structure) : list Group :=
  option_list (main s) ++ items s.

Definition placed (s : Structure) : list Element :=
  concat (groupElements <$> structureGroups s).

Definition isDivider (e : Element) : bool := El.isType TDivider e.

Definition dividerCount (sequence : list Element) : nat :=
  length (filter (fun e => isDivider e = true) sequence).

(** The elements held at a point of the grouping loop: those of the
    structure and those of the group under construction. *)
Definition held (st : Structure * option Group) : list Element :=
  placed (fst st) ++ default [] (groupElements <$> snd st).

(** An element that is neither a heading nor a divider. *)
Definition plain (e : Element) : Prop :=
  El.type e ≠ THeading ∧ El.type e ≠ TDivider.

(** A group with empty slots and no content, as [createNewGroup] of the
    second listing makes it. *)
Definition emptyGroup (l : option Z) : Group :=
  mkGroup (mkHeadings None None None) [] (mkMetadata l (Some false) []).

(** The section handed to the validator for a sequence and its groups,
    with the index of the second listing. *)
Definition sectionOf (sequence : list Element) (groups : Structure)
    : Validation.Input.Section :=
  Validation.Input.mkSection (Some "Hero") Validation.VObject
    (Validation.Input.mkParsed (Some sequence) groups (Types2.processByType sequence)).

(** ** Reading the type index *)

(** The enriched entries of [l], the part of [sequence] that starts at
    index [i]. *)
Fixpoint entriesFrom (sequence : list Element) (i : nat) (l : list Element)
    : list Index.Entry :=
  match l with
  | [] => []
  | e :: l' =>
      Index.mkEntry e (Index.getElementContext sequence i)
      :: entriesFrom sequence (S i) l'
  end.

Definition entries (sequence : list Element) : list Index.Entry :=
  entriesFrom sequence 0%nat sequence.

(** The values of a dictionary, flattened; their order is left open. *)
Definition values (m : gmap string (list Index.Entry)) : list Index.Entry :=
  concat (snd <$> map_to_list m).

(** The role bucket under a key, empty when the key is absent. *)
Definition roleBucket (c : Index.Collections) (k : string) : list Index.Entry :=
  default [] (Index.images c !! k).

(** The top-level bucket of a type; for images, all role buckets. *)
Definition bucket (c : Index.Collections) (t : ElementType) : list Index.Entry :=
  match t with
  | THeading => Index.headings c
  | TParagraph => Index.paragraphs c
  | TImage => values (Index.images c)
  | TList => Index.lists c
  | TCode => Index.code c
  | TDivider => Index.dividers c
  end.

Definition allTypes : list ElementType :=
  [THeading; TParagraph; TImage; TList; TCode; TDivider].

(** All buckets, concatenated. *)
Definition allEntries (c : Index.Collections) : list Index.Entry :=
  concat (bucket c <$> allTypes).

Definition entryType (en : Index.Entry) : ElementType :=
  El.type (Index.element en).

Definition entryIndex (en : Index.Entry) : nat :=
  Index.position (Index.context en).

(** The filters that describe the buckets: by type, and by role key
    among the images. *)
Definition hasType (t : ElementType) (en : Index.Entry) : Prop := entryType en = t.

Definition hasRoleKey (k : string) (en : Index.Entry) : Prop :=
  entryType en = TImage ∧ Index.roleKey (Index.element en) = k.

Global Instance hasType_dec t en : Decision (hasType t en).
Proof. unfold hasType. apply _. Defined.

Global Instance hasRoleKey_dec k en : Decision (hasRoleKey k en).
Proof. unfold hasRoleKey. apply _. Defined.

(** The entries of a bucket that stand for the element of index [i]. *)
Definition atIndex (i : nat) (l : list Index.Entry) : list Index.Entry :=
  filter (fun en => entryIndex en = i) l.

(** Order on entries by a numeric key, and the sort by that key. *)
Definition keyLe (key : Index.Entry → Z) (a b : Index.Entry) : Prop :=
  key a ≤ key b.

Global Instance keyLe_dec key a b : Decision (keyLe key a b).
Proof. unfold keyLe. apply _. Defined.

Definition sortBy (key : Index.Entry → Z) (l : list Index.Entry) : list Index.Entry :=
  merge_sort (keyLe key) l.

(** The strict order by a key. *)
Definition keyLt (key : Index.Entry → Z) (a b : Index.Entry) : Prop := key a < key b.

(** The two positions an entry carries: the [position] of the element
    and the index recorded in its context. *)
Definition elementPosition (en : Index.Entry) : Z := El.position (Index.element en).
Definition contextPosition (en : Index.Entry) : Z := Z.of_nat (entryIndex en).

(** Positions grow strictly along the sequence. *)
Definition increasing (sequence : list Element) : Prop :=
  StronglySorted (fun a b => El.position a < El.position b) sequence.

(** A feature section as the sequencer emits it: positions grow but are
    not the indexes. *)
Definition featureSequence : list Element :=
  [ HeadingEl 1 "Why Choose Rosetta" 1 [];
    ParagraphEl "Transform how you build websites." 3;
    HeadingEl 2 "Natural Writing" 5 ["highlight"];
    ImageEl (Some RGallery) (Some "./shots/write.png") "pen-tool" None 7;
    ParagraphEl "Write content using familiar markdown conventions." 8 ].

(** A feature item of the fixture, with its icon, as the sequencer
    emits it. *)
Definition iconFeature : list Element :=
  [ HeadingEl 2 "Natural Writing" 5 ["highlight"];
    ParagraphEl "Write content using familiar markdown conventions." 7;
    ImageEl (Some RIcon) (Some "./icons/write.svg") "pen-tool" None 8 ].

(** No image of the sequence has the role [icon]. *)
Definition iconFree (sequence : list Element) : Prop :=
  Forall (fun e => El.role e ≠ Some RIcon) sequence.

(** The role buckets that both listings declare and a role can name. *)
Definition declared (m : gmap string (list Index.Entry)) : Prop :=
  is_Some (m !! "background") ∧ is_Some (m !! "content") ∧ is_Some (m !! "gallery").

Definition pushOnUndefined : JsError :=
  TypeError "Cannot read properties of undefined (reading 'push')".

Definition isIconImage (e : Element) : Prop :=
  El.type e = TImage ∧ El.role e = Some RIcon.

(** The elements that [validateOrphanedContent] reports, for the part [l]
    of the sequence that starts at index [i]: those whose index is not
    among the collected positions and that are not dividers. *)
Fixpoint orphansFrom (positions : gset Z) (i : nat) (l : list Element) : list Element :=
  match l with
  | [] => []
  | e :: l' =>
      (if negb (bool_decide (Z.of_nat i ∈ positions)) && negb (El.isType TDivider e)
       then [e] else [])
      ++ orphansFrom positions (S i) l'
  end.

Definition orphans (groups : Structure) (sequence : list Element) : list Element :=
  orphansFrom (Validation.groupedPositions groups) 0%nat sequence.

(** The invariant of the walk: the emitted positions grow strictly and
    stay below the counter, and each is at least its index plus [d]. *)
Definition sequenced (d : Z) (st : SeqState) : Prop :=
  increasing (sequence st)
  ∧ Forall (fun e => El.position e < position st) (sequence st)
  ∧ (∀ (i : nat) e, sequence st !! i = Some e → Z.of_nat i + d ≤ El.position e)
  ∧ Z.of_nat (length (sequence st)) + d ≤ position st.

(** A [processNode] gives the element the position it was handed. *)
Definition keepsPosition (processNode : Node → Z → Completion (option Element)) : Prop :=
  ∀ node p e, processNode node p = Normal (Some e) → El.position e = p.

(** Induction on a tree, with the statement for all children at hand. *)
Section NodeInduction.
Variable P : Node → Prop.
Hypothesis step : ∀ t d v cs a u ti l o,
  match cs with Some ns => Forall P ns | None => True end →
  P (mkNode t d v cs a u ti l o).

Fixpoint Node_forall_ind (n : Node) : P n :=
  match n with
  | mkNode t d v cs a u ti l o =>
      step t d v cs a u ti l o
        match cs with
        | Some ns =>
            (fix all (ns : list Node) : Forall P ns :=
               match ns with
               | [] => List.Forall_nil P
               | c :: ns' => @List.Forall_cons _ P c ns' (Node_forall_ind c) (all ns')
               end) ns
        | None => I
        end
  end.
End NodeInduction.

(** ** Reading a structure: content lists and heading slots *)

(** The heading slots of a group that are filled. *)
Definition slotElements (g : Group) : list Element :=
  option_list (eyebrow (headings g)) ++ option_list (title (headings g))
  ++ option_list (subtitle (headings g)).

(** All content lists of [[main] + items], one after the other. *)
Definition contents (s : Structure) : list Element :=
  concat (content <$> structureGroups s).

(** All filled heading slots of [[main] + items]. *)
Definition slots (s : Structure) : list Element :=
  concat (slotElements <$> structureGroups s).

Definition isHeading (e : Element) : Prop := El.type e = THeading.

Global Instance isHeading_dec e : Decision (isHeading e).
Proof. unfold isHeading. apply _. Defined.

Global Instance plain_dec e : Decision (plain e).
Proof. unfold plain. apply _. Defined.

(** The content and the slots held at a point of the grouping loop. *)
Definition heldContents (st : Structure * option Group) : list Element :=
  contents (fst st) ++ default [] (content <$> snd st).

Definition heldSlots (st : Structure * option Group) : list Element :=
  slots (fst st) ++ default [] (slotElements <$> snd st).

(** ** Reading a tree *)

(** The number of nodes of a tree, the root included. *)
Fixpoint nodeCount (n : Node) : nat :=
  match n with
  | mkNode _ _ _ children _ _ _ _ _ =>
      S match children with
        | Some cs => sum_list (nodeCount <$> cs)
        | None => 0
        end
  end.

(** Every node whose type needs a [children] array has one. *)
Fixpoint childrenWhereNeeded (needs : string → bool) (n : Node) : bool :=
  match n with
  | mkNode type _ _ children _ _ _ _ _ =>
      match children with
      | Some cs => forallb (childrenWhereNeeded needs) cs
      | None => negb (needs type)
      end
  end.

(** The node types whose [children] are read without a guard: lists in
    both listings, paragraphs too in the first. *)
Definition needsChildren2 (type : string) : bool := bool_decide (type = "list").

Definition needsChildren1 (type : string) : bool :=
  bool_decide (type = "list") || bool_decide (type = "paragraph").

Definition mapOnUndefined : JsError :=
  TypeError "Cannot read properties of undefined (reading 'map')".

(** What the walk does on a tree, for a [processNode] and the node types
    whose children it needs: it returns when every such node has
    children, and throws otherwise. *)
Definition walks (processNode : Node → Z → Completion (option Element))
    (needs : string → bool) (node : Node) : Prop :=
  ∀ st,
    (childrenWhereNeeded needs node = true →
     ∃ st', visit (sequenceCallback processNode) node st = Normal st')
    ∧ (childrenWhereNeeded needs node = false →
       ∃ err, visit (sequenceCallback processNode) node st = Throw err).

(** ** The helpers attached to the index *)

Global Instance iconFree_dec sequence : Decision (iconFree sequence).
Proof. unfold iconFree. apply _. Defined.

(** [collections.getHeadingsByLevel(level)], the same in both listings. *)
Definition getHeadingsByLevel (c : Index.Collections) (level : Z) : list Index.Entry :=
  filter (fun h => El.level (Index.element h) = level) (Index.headings c).

(** The test of [getElementsByHeadingContext] on an entry: it has a
    nearest heading and the caller's filter accepts that heading. *)
Definition underHeading (headingFilter : Element → bool) (el : Index.Entry) : Prop :=
  match Index.nearestHeading (Index.context el) with
  | Some h => headingFilter h = true
  | None => False
  end.

Global Instance underHeading_dec f el : Decision (underHeading f el).
Proof. unfold underHeading. destruct (Index.nearestHeading _); apply _. Defined.

(** The values of the [images] object in the order of its keys: the four
    declared buckets, then [icon], the only key that can be created
    later, and only by the second listing. *)
Definition imageKeys : list string :=
  ["background"; "content"; "gallery"; "icons"; "icon"].

Definition objectValues (m : gmap string (list Index.Entry)) : list (list Index.Entry) :=
  omap (fun k => m !! k) imageKeys.

Module Helpers1.

(** [getAllImages] of [src/parser/types.js]: the four declared buckets,
    spread one after the other; spreading a missing bucket throws. *)
Definition getAllImages (c : Index.Collections) : Completion (list Index.Entry) :=
  match Index.images c !! "background", Index.images c !! "content",
        Index.images c !! "gallery", Index.images c !! "icons" with
  | Some b, Some co, Some g, Some i => Normal (b ++ co ++ g ++ i)
  | _, _, _, _ => Throw (TypeError "undefined is not iterable")
  end.

(** [getElementsByHeadingContext] of [src/parser/types.js].  Of the four
    names in [validTypes], [images] is skipped: [this.images] is an
    object, not an array. *)
Definition getElementsByHeadingContext (c : Index.Collections)
    (headingFilter : Element → bool) : list Index.Entry :=
  filter (underHeading headingFilter) (Index.paragraphs c)
  ++ filter (underHeading headingFilter) (Index.lists c)
  ++ filter (underHeading headingFilter) (Index.code c).

(** What [Object.values(this).flat()] holds when a helper runs: the
    entries of the five arrays and, unflattened, the values that are not
    arrays: the [images] object, the metadata and the five helpers, in
    the order in which the keys were created. *)
Inductive Flat :=
| FEntry (en : Index.Entry)
| FImages (m : gmap string (list Index.Entry))
| FMetadata (m : Index.Metadata)
| FFunction (name : string).

Definition flatValues (c : Index.Collections) : list Flat :=
  (FEntry <$> Index.headings c)
  ++ (FEntry <$> Index.paragraphs c)
  ++ [FImages (Index.images c)]
  ++ (FEntry <$> Index.lists c)
  ++ (FEntry <$> Index.code c)
  ++ (FEntry <$> Index.dividers c)
  ++ [FMetadata (Index.metadata c)]
  ++ (FFunction <$> ["getAllImages"; "getHeadingsByLevel"; "getElementsBeforeHeadingLevel";
                     "getElementsByHeadingContext"; "getContentBetweenHeadings"]).

(** [el.context]: only an entry has one. *)
Definition flatContext (el : Flat) : option Index.Context :=
  match el with
  | FEntry en => Some (Index.context en)
  | _ => None
  end.

(** [el.context && el.context.position < p] *)
Definition before (p : nat) (el : Flat) : Prop :=
  match flatContext el with
  | Some ctx => (Index.position ctx < p)%nat
  | None => False
  end.

Global Instance before_dec p el : Decision (before p el).
Proof. unfold before. destruct (flatContext el); apply _. Defined.

Definition getElementsBeforeHeadingLevel (c : Index.Collections) (level : Z)
    : list Flat :=
  match List.find (fun h => bool_decide (El.level (Index.element h) = level))
                  (Index.headings c) with
  | None => []
  | Some firstHeading =>
      filter (before (Index.position (Index.context firstHeading))) (flatValues c)
  end.

(** [el.context && el.context.position > startPos
     && el.context.position < endPos], with no [endPos] for [Infinity]. *)
Definition between (startPos : nat) (endPos : option nat) (el : Flat) : Prop :=
  match flatContext el with
  | Some ctx =>
      (startPos < Index.position ctx)%nat
      ∧ match endPos with
        | Some e => (Index.position ctx < e)%nat
        | None => True
        end
  | None => False
  end.

Global Instance between_dec s e el : Decision (between s e el).
Proof. unfold between. destruct (flatContext el), e; apply _. Defined.

Definition getContentBetweenHeadings (c : Index.Collections)
    (startHeading : Index.Entry) (endHeading : option Index.Entry) : list Flat :=
  let startPos := Index.position (Index.context startHeading) in
  let endPos := (fun h => Index.position (Index.context h)) <$> endHeading in
  filter (between startPos endPos) (flatValues c).

End Helpers1.

Module Helpers2.

(** [getElementsByHeadingContext] of the second listing: paragraphs, all
    role buckets, lists and code, filtered. *)
Definition getElementsByHeadingContext (c : Index.Collections)
    (headingFilter : Element → bool) : list Index.Entry :=
  filter (underHeading headingFilter)
    (Index.paragraphs c ++ concat (objectValues (Index.images c))
     ++ Index.lists c ++ Index.code c).

End Helpers2.

(** The number of elements of a type in a sequence. *)
Definition countOfType (t : ElementType) (sequence : list Element) : nat :=
  length (filter (fun e => El.type e = t) sequence).

(** ** Reading the validator's result *)

(** The level that [validateHeadingHierarchy] reads off a heading entry,
    and the level it compares the heading at index [i] with: that of the
    heading before it, [previousLevel] for the first. *)
Definition entryLevel (heading : Index.Entry) : Z :=
  El.level (Index.element heading).

(** [Number.isSafeInteger]: the integers on which the arithmetic of the
    source, on doubles, is exact. *)
Definition safeInteger (z : Z) : Prop := - 2 ^ 53 < z < 2 ^ 53.

(** The entry of a heading whose level is a safe integer. *)
Definition headingEntry (heading : Index.Entry) : Prop :=
  hasType THeading heading ∧ safeInteger (entryLevel heading).

Definition levelBefore (previousLevel : Z) (headings : list Index.Entry) (i : nat) : Z :=
  match i with
  | O => previousLevel
  | S j => from_option entryLevel previousLevel (headings !! j)
  end.

(** The warnings of the loop of [validateHeadingHierarchy], in order. *)
Fixpoint skipWarnings (previousLevel : Z) (headings : list Index.Entry)
    : list Validation.Diagnostic :=
  match headings with
  | [] => []
  | heading :: rest =>
      (if previousLevel + 1 <? entryLevel heading then
         [Validation.mkDiagnostic "skipped_heading_level"
            ("Heading level skipped from h" +:+ pretty previousLevel
             +:+ " to h" +:+ pretty (entryLevel heading))
            (Some (Validation.AtEntry heading))]
       else [])
      ++ skipWarnings (entryLevel heading) rest
  end.

Definition headingWarnings (headings : list Index.Entry) : list Validation.Diagnostic :=
  match headings with
  | [] => [Validation.mkDiagnostic "no_headings" "Content has no headings" None]
  | _ => skipWarnings 0 headings
  end.

(** The warnings of the loop over [groups.items], from index [i] on. *)
Fixpoint emptyGroupWarnings (i : nat) (items : list Group) : list Validation.Diagnostic :=
  match items with
  | [] => []
  | group :: rest =>
      (if Validation.isEmptyGroup group then
         [Validation.mkDiagnostic "empty_group"
            ("Group " +:+ pretty (i + 1)%nat +:+ " is empty")
            (Some (Validation.AtGroup group))]
       else [])
      ++ emptyGroupWarnings (S i) rest
  end.

(** The suggestions of the loop over the background images. *)
Definition backgroundSuggestions (sequence : list Element) (backgrounds : list Index.Entry)
    : list Validation.Diagnostic :=
  (fun image =>
     Validation.mkDiagnostic "orphaned_background"
       "Background image has no associated heading"
       (Some (Validation.AtEntry image)))
  <$> filter (fun image =>
                Validation.findNearbyHeading (Index.element image) sequence = None)
             backgrounds.

(** What [validateContentGroups] says about main. *)
Definition mainTitleWarnings (groups : Structure) : list Validation.Diagnostic :=
  match main groups with
  | Some m =>
      if isSome (title (headings m)) then []
      else [Validation.mkDiagnostic "no_main_title" "Main content group has no title" None]
  | None => []
  end.

Definition mainGroupSuggestions (groups : Structure) : list Validation.Diagnostic :=
  match main groups with
  | Some _ => []
  | None =>
      [Validation.mkDiagnostic "no_main_group" "Content has no clear main group" None]
  end.

Definition emptyResults : Validation.Results := Validation.mkResults [] [] [].

(** ** Formatting the validator's result *)

Definition LF : string := String (ascii_of_nat 10) "".

(** [formatValidationMessages].  The four pictographs of the source lie
    outside the code units below 256; they are written as the bytes of
    their UTF-8 encoding. *)
Definition formatValidationMessages (results : Validation.Results) : string :=
  let output := "" in
  let output :=
    if negb (length (Validation.errors results) =? 0)%nat then
      foldl (fun output error => output +:+ "❌ " +:+ Validation.message error +:+ LF)
            (output +:+ LF +:+ "Errors:" +:+ LF) (Validation.errors results)
    else output in
  let output :=
    if negb (length (Validation.warnings results) =? 0)%nat then
      foldl (fun output warning => output +:+ "⚠️  " +:+ Validation.message warning +:+ LF)
            (output +:+ LF +:+ "Warnings:" +:+ LF) (Validation.warnings results)
    else output in
  let output :=
    if negb (length (Validation.suggestions results) =? 0)%nat then
      foldl (fun output suggestion =>
               output +:+ "💡 " +:+ Validation.message suggestion +:+ LF)
            (output +:+ LF +:+ "Suggestions:" +:+ LF) (Validation.suggestions results)
    else output in
  if bool_decide (output = "") then "✅ No issues found" else output.

(** ** Section identifiers *)

(** [str.split(sep)] for a separator of one code unit: never empty. *)
Fixpoint splitChar (sep : ascii) (str : string) : list string :=
  match str with
  | EmptyString => [""]
  | String c rest =>
      if bool_decide (c = sep) then "" :: splitChar sep rest
      else
        match splitChar sep rest with
        | piece :: pieces => String c piece :: pieces
        | [] => [String c ""]
        end
  end.

(** [getSectionId]: [pop()] gives the last piece, [[0]] the first. *)
Definition getSectionId (filePath : string) : option string :=
  filename ← last (splitChar "/" filePath);
  head (splitChar "-" filename).

(** [c] does not occur in [s]; the part of [s] before the first [c]. *)
Fixpoint freeOf (c : ascii) (s : string) : bool :=
  match s with
  | EmptyString => true
  | String c' s' => negb (bool_decide (c' = c)) && freeOf c s'
  end.

Fixpoint upTo (c : ascii) (s : string) : string :=
  match s with
  | EmptyString => ""
  | String c' s' => if bool_decide (c' = c) then "" else String c' (upTo c s')
  end.

(** ** Reading the role prefix of an alt text *)

Fixpoint takeWhile {A} (p : A → bool) (l : list A) : list A :=
  match l with
  | [] => []
  | a :: l' => if p a then a :: takeWhile p l' else []
  end.

Fixpoint dropWhile {A} (p : A → bool) (l : list A) : list A :=
  match l with
  | [] => []
  | a :: l' => if p a then dropWhile p l' else l
  end.

(** What is left of [s] after the prefix [w], if [s] starts with [w]. *)
Fixpoint stripPrefix (w s : list ascii) : option (list ascii) :=
  match w with
  | [] => Some s
  | c :: w' =>
      match s with
      | c' :: s' => if bool_decide (c' = c) then stripPrefix w' s' else None
      | [] => None
      end
  end.

(** What follows the word [w] and a colon at the start of [s]. *)
Definition afterWord (w : string) (s : list ascii) : option (list ascii) :=
  match stripPrefix (list_ascii_of_string w) s with
  | Some (c :: text) => if bool_decide (c = ":"%char) then Some text else None
  | _ => None
  end.

(** The role word that [s] starts with, and the text after its colon. *)
Definition rolePrefix (s : list ascii) : option (ImageRole * list ascii) :=
  match afterWord "background" s with
  | Some text => Some (RBackground, text)
  | None =>
      match afterWord "icon" s with
      | Some text => Some (RIcon, text)
      | None =>
          match afterWord "gallery" s with
          | Some text => Some (RGallery, text)
          | None => None
          end
      end
  end.

(** The text without its leading white space, up to the first line break. *)
Definition cleanAlt (text : list ascii) : string :=
  string_of_list_ascii (takeWhile Regex.dot (dropWhile Regex.space text)).

(** The iteration of [Regex.Star], named. *)
Definition starLoop {R} (r1 : Regex.regex) (len : nat)
    (k : Regex.Captures → list ascii → option R)
    : nat → Regex.Captures → list ascii → option R :=
  fix loop (fuel : nat) (caps : Regex.Captures) (s : list ascii) : option R :=
    match fuel with
    | O => k caps s
    | S fuel' =>
        match
          Regex.m r1 len caps s (fun caps' s' =>
            if (length s' <? length s)%nat then loop fuel' caps' s' else None)
        with
        | Some x => Some x
        | None => k caps s
        end
    end.

(** The part of [roleRe] after the role word, and the match of a role
    word followed by that part, as [Regex.matchAt] runs it on [s]. *)
Definition roleTailRe : Regex.regex :=
  Regex.Seq (Regex.Chr ":")
    (Regex.Seq (Regex.Star (Regex.Class Regex.space))
               (Regex.Cap 2 (Regex.Star (Regex.Class Regex.dot)))).

Definition wordThenTail {R} (s : list ascii) (F : Regex.Captures → list ascii → R)
    (w : string) : option R :=
  Regex.m (Regex.lit w) (length s) ∅ s
    (fun caps' s' =>
       Regex.m roleTailRe (length s)
         (<[1%nat := string_of_list_ascii (take (length s - length s')%nat s)]> caps') s'
         (fun caps'' s'' => Some (F caps'' s''))).

(** ** The metadata of a group *)

(** A group as the first listing leaves it: nothing is ever added to its
    set of types, and it has no [hasMedia]. *)
Definition bareMetadata (g : Group) : Prop :=
  contentTypes (metadata g) = [] ∧ hasMedia (metadata g) = None.

(** A group as [addGroupToStructure] of the second listing leaves it. *)
Definition summarised (g : Group) : Prop :=
  hasMedia (metadata g) = Some (existsb (El.isType TImage) (content g))
  ∧ contentTypes (metadata g) = setToArray (El.type <$> content g) [].

(** * Statements *)

(** ** Grouping *)

(** C1 (second listing of the grouping engine).  Conservation fails: the
    heading that opens a group is handed to [createNewGroup], which keeps
    its level only.  A sequence made of one heading comes back as one
    item group with empty slots and empty content, so nothing is placed
    although the sequence has one element and no divider. *)
Theorem Groups2_drops_opening_heading (l : Z) (c : string) (p : Z) (ls : list string) :
  let h := HeadingEl l c p ls in
  Groups2.processGroups [h] = mkStructure None [emptyGroup (Some l)]
  ∧ placed (Groups2.processGroups [h]) = []
  ∧ (length (placed (Groups2.processGroups [h])) + dividerCount [h])%nat
    ≠ length [h].
Proof.
  intros h. subst h. split; [reflexivity | split; [reflexivity |]].
  vm_compute. discriminate.
Qed.

(** C2.  On the hero sequence (image, level-3 heading, level-1 heading,
    level-2 heading, paragraph) neither listing builds the group with
    eyebrow, title and subtitle.  The second listing makes the level-3
    heading the title of main, with the image as content, drops both
    other headings and leaves the paragraph in a second item; the first
    listing makes it the eyebrow of a main group of its own and puts title
    and subtitle in an item. *)
Theorem processGroups_hero_sequence
    (role : option ImageRole) (src ttl : option string) (body : string)
    (p0 p1 p2 p3 p4 : Z) (l1 l2 l3 : list string) :
  let img := ImageEl role src "WELCOME" ttl p0 in
  let h3 := HeadingEl 3 "WELCOME" p1 l1 in
  let h1 := HeadingEl 1 "Title" p2 l2 in
  let h2 := HeadingEl 2 "Subtitle" p3 l3 in
  let par := ParagraphEl body p4 in
  Groups2.processGroups [img; h3; h1; h2; par] =
    mkStructure
      (Some (mkGroup (mkHeadings None (Some h3) None) [img]
                     (mkMetadata (Some 3) (Some true) [TImage])))
      [ emptyGroup (Some 1);
        mkGroup (mkHeadings None None None) [par]
                (mkMetadata (Some 2) (Some false) [TParagraph]) ]
  ∧ Groups1.processGroups [img; h3; h1; h2; par] =
    mkStructure
      (Some (mkGroup (mkHeadings (Some h3) None None) [img]
                     (mkMetadata (Some 3) None [])))
      [ mkGroup (mkHeadings None (Some h1) (Some h2)) [par]
                (mkMetadata (Some 1) None []) ].
Proof.
  intros. split; reflexivity.
Qed.

(** *** Conservation in the first listing *)

Lemma groupElements_pushContent g e :
  groupElements (pushContent g e) = groupElements g ++ [e].
Proof.
  unfold groupElements, pushContent; simpl. rewrite !app_assoc. reflexivity.
Qed.

Lemma Groups1_addHeadingToGroup_elements g h :
  groupElements (Groups1.addHeadingToGroup g h) ≡ₚ groupElements g ++ [h].
Proof.
  unfold Groups1.addHeadingToGroup.
  destruct g as [[ey ti su] co me]; simpl.
  destruct ti as [t |], su as [s' |], ey as [e' |]; simpl;
    rewrite ?andb_false_r, ?andb_true_r;
    repeat match goal with |- context [if ?b then _ else _] => destruct b end;
    unfold groupElements; simpl; solve_Permutation.
Qed.

Lemma Groups1_addGroupToStructure_placed g st :
  placed (Groups1.addGroupToStructure g st) ≡ₚ placed st ++ groupElements g.
Proof.
  unfold Groups1.addGroupToStructure.
  destruct st as [[m |] its]; simpl;
    repeat match goal with |- context [if ?b then _ else _] => destruct b end;
    unfold placed, structureGroups; simpl;
    rewrite ?fmap_app, ?concat_app; simpl; solve_Permutation.
Qed.

Lemma Groups1_flush_placed cur st :
  placed (Groups1.flush cur st) ≡ₚ held (st, cur).
Proof.
  unfold held; destruct cur as [g |]; simpl.
  - apply Groups1_addGroupToStructure_placed.
  - rewrite app_nil_r. reflexivity.
Qed.

Lemma Groups1_secondPass_placed st :
  placed (Groups1.secondPass st) = placed st.
Proof.
  unfold Groups1.secondPass.
  destruct st as [[m |] [| g its]]; simpl; try reflexivity.
  destruct (title (headings g)) as [t |]; [| reflexivity].
  destruct (El.level t =? 1); reflexivity.
Qed.

Lemma Groups1_body_held sequence st i e :
  held (Groups1.body sequence st i e)
  ≡ₚ held st ++ (if isDivider e then [] else [e]).
Proof.
  destruct st as [st cur]. unfold Groups1.body, isDivider.
  destruct (El.isType TDivider e) eqn:Hd.
  - unfold held; simpl. rewrite !app_nil_r. apply Groups1_flush_placed.
  - destruct (El.isType THeading e) eqn:Hh; simpl.
    + destruct (Groups1.shouldStartNewGroup e cur sequence i);
        unfold held; simpl; rewrite Groups1_addHeadingToGroup_elements.
      * rewrite Groups1_flush_placed. unfold held; simpl.
        destruct cur as [g |]; simpl; solve_Permutation.
      * destruct cur as [g |]; simpl; solve_Permutation.
    + unfold held; simpl. rewrite groupElements_pushContent.
      destruct cur as [g |]; simpl; solve_Permutation.
Qed.

Lemma Groups1_loop_held sequence l : ∀ i st,
  held (forIndex (Groups1.body sequence) i l st)
  ≡ₚ held st ++ filter (fun e => isDivider e = false) l.
Proof.
  induction l as [| e l IH]; intros i st; cbn [forIndex].
  - rewrite app_nil_r. reflexivity.
  - rewrite IH, Groups1_body_held, filter_cons.
    destruct (isDivider e); simpl.
    + rewrite app_nil_r. reflexivity.
    + rewrite <- app_assoc. reflexivity.
Qed.

(** The first listing conserves the elements: what the structure holds
    is, up to order, the sequence without its dividers. *)
Theorem Groups1_conservation (sequence : list Element) :
  placed (Groups1.processGroups sequence)
  ≡ₚ filter (fun e => isDivider e = false) sequence.
Proof.
  unfold Groups1.processGroups.
  pose proof (Groups1_loop_held sequence sequence 0%nat (mkStructure None [], None)) as H.
  destruct (forIndex _ _ _ _) as [st cur].
  rewrite Groups1_secondPass_placed, Groups1_flush_placed, H.
  reflexivity.
Qed.

Lemma filter_divider_length (l : list Element) :
  (length (filter (fun e => isDivider e = false) l) + dividerCount l)%nat = length l.
Proof.
  unfold dividerCount. induction l as [| e l IH]; [reflexivity |].
  rewrite !filter_cons. destruct (isDivider e); simpl in *; lia.
Qed.

(** The same as a count: content lengths, filled heading slots and
    dividers add up to the length of the sequence. *)
Corollary Groups1_conservation_count (sequence : list Element) :
  (length (placed (Groups1.processGroups sequence)) + dividerCount sequence)%nat
  = length sequence.
Proof.
  rewrite (Permutation_length (Groups1_conservation sequence)).
  apply filter_divider_length.
Qed.

(** A run of elements that are neither headings nor dividers is appended
    to the current group, in both listings. *)
Lemma plain_isType (e : Element) :
  plain e → El.isType TDivider e = false ∧ El.isType THeading e = false.
Proof.
  intros [Hh Hd]. unfold El.isType. split; apply bool_decide_eq_false; assumption.
Qed.

Lemma Groups2_body_plain sequence st g i e :
  plain e →
  Groups2.body sequence (st, Some g) i e = (st, Some (pushContent g e)).
Proof.
  intros He. destruct (plain_isType e He) as [Hd Hh].
  unfold Groups2.body. rewrite Hd, Hh. reflexivity.
Qed.

Lemma Groups2_loop_plain sequence l : ∀ i st g,
  Forall plain l →
  forIndex (Groups2.body sequence) i l (st, Some g)
  = (st, Some (mkGroup (headings g) (content g ++ l) (metadata g))).
Proof.
  induction l as [| e l IH]; intros i st g Hl; cbn [forIndex].
  - rewrite app_nil_r. destruct g; reflexivity.
  - inversion Hl as [| ? ? He Hl']; subst.
    rewrite Groups2_body_plain by assumption.
    rewrite IH by assumption. unfold pushContent; simpl.
    rewrite <- app_assoc. reflexivity.
Qed.

Lemma Groups1_body_plain sequence st g i e :
  plain e →
  Groups1.body sequence (st, Some g) i e = (st, Some (pushContent g e)).
Proof.
  intros He. destruct (plain_isType e He) as [Hd Hh].
  unfold Groups1.body. rewrite Hd, Hh. reflexivity.
Qed.

Lemma Groups1_loop_plain sequence l : ∀ i st g,
  Forall plain l →
  forIndex (Groups1.body sequence) i l (st, Some g)
  = (st, Some (mkGroup (headings g) (content g ++ l) (metadata g))).
Proof.
  induction l as [| e l IH]; intros i st g Hl; cbn [forIndex].
  - rewrite app_nil_r. destruct g; reflexivity.
  - inversion Hl as [| ? ? He Hl']; subst.
    rewrite Groups1_body_plain by assumption.
    rewrite IH by assumption. unfold pushContent; simpl.
    rewrite <- app_assoc. reflexivity.
Qed.

(** The second listing: a non-empty sequence without headings and
    dividers gives no main group and exactly one item, with empty heading
    slots and the whole sequence, in order, as content. *)
Lemma Groups2_no_headings (sequence : list Element) :
  sequence ≠ [] →
  Forall plain sequence →
  Groups2.processGroups sequence =
    mkStructure None
      [ mkGroup (mkHeadings None None None) sequence
          (mkMetadata None (Some (existsb (El.isType TImage) sequence))
                      (setToArray (El.type <$> sequence) [])) ].
Proof.
  intros Hne Hall. destruct sequence as [| e l]; [congruence |].
  inversion Hall as [| ? ? He Hl]; subst.
  destruct (plain_isType e He) as [Hd Hh].
  unfold Groups2.processGroups. cbn [forIndex].
  assert (Hfirst : Groups2.body (e :: l) (mkStructure None [], None) 0%nat e
          = (mkStructure None [], Some (pushContent (Groups2.createNewGroup None) e))).
  { unfold Groups2.body. rewrite Hd, Hh. reflexivity. }
  rewrite Hfirst, Groups2_loop_plain by assumption.
  reflexivity.
Qed.

Lemma Groups2_no_headings_witness :
  Groups2.processGroups [ParagraphEl "Body" 0; CodeEl None (Some "x") 1] =
    mkStructure None
      [ mkGroup (mkHeadings None None None)
          [ParagraphEl "Body" 0; CodeEl None (Some "x") 1]
          (mkMetadata None (Some false) [TParagraph; TCode]) ].
Proof.
  apply (Groups2_no_headings [ParagraphEl "Body" 0; CodeEl None (Some "x") 1]).
  - discriminate.
  - repeat constructor; discriminate.
Defined.

(** C3.  A non-empty sequence without headings and dividers gives exactly
    one group, with empty heading slots and the whole sequence, in order,
    as content.  Where the group goes depends on the listing.  In the
    second listing it is the one item and main is empty: there a group
    needs a title to become main.  In the first listing it is main and
    there is no item: there [addGroupToStructure] makes the first closed
    group main, titled or not. *)
Theorem processGroups_no_headings (sequence : list Element) :
  sequence ≠ [] →
  Forall plain sequence →
  Groups2.processGroups sequence =
    mkStructure None
      [ mkGroup (mkHeadings None None None) sequence
          (mkMetadata None (Some (existsb (El.isType TImage) sequence))
                      (setToArray (El.type <$> sequence) [])) ]
  ∧ Groups1.processGroups sequence =
      mkStructure
        (Some (mkGroup (mkHeadings None None None) sequence (mkMetadata None None [])))
        [].
Proof.
  intros Hne Hall. split; [apply Groups2_no_headings; assumption |].
  destruct sequence as [| e l]; [congruence |].
  inversion Hall as [| ? ? He Hl]; subst.
  destruct (plain_isType e He) as [Hd Hh].
  unfold Groups1.processGroups. cbn [forIndex].
  assert (Hfirst : Groups1.body (e :: l) (mkStructure None [], None) 0%nat e
          = (mkStructure None [], Some (pushContent Groups1.createNewGroup e))).
  { unfold Groups1.body. rewrite Hd, Hh. reflexivity. }
  rewrite Hfirst, Groups1_loop_plain by assumption.
  reflexivity.
Qed.

Lemma processGroups_no_headings_witness :
  Groups2.processGroups [ParagraphEl "Body" 0; CodeEl None (Some "x") 1] =
    mkStructure None
      [ mkGroup (mkHeadings None None None)
          [ParagraphEl "Body" 0; CodeEl None (Some "x") 1]
          (mkMetadata None (Some false) [TParagraph; TCode]) ]
  ∧ Groups1.processGroups [ParagraphEl "Body" 0; CodeEl None (Some "x") 1] =
      mkStructure
        (Some (mkGroup (mkHeadings None None None)
                 [ParagraphEl "Body" 0; CodeEl None (Some "x") 1]
                 (mkMetadata None None [])))
        [].
Proof.
  apply (processGroups_no_headings [ParagraphEl "Body" 0; CodeEl None (Some "x") 1]).
  - discriminate.
  - repeat constructor; discriminate.
Defined.

(** On the first listing a sequence of one paragraph gives a main group
    without a title and no item: main is not empty for a sequence without
    headings, and a group has become main without a title. *)
Lemma Groups1_untitled_group_becomes_main :
  ∃ m, main (Groups1.processGroups [ParagraphEl "Body" 0]) = Some m
       ∧ title (headings m) = None
       ∧ content m = [ParagraphEl "Body" 0]
       ∧ items (Groups1.processGroups [ParagraphEl "Body" 0]) = [].
Proof.
  eexists. repeat split; reflexivity.
Qed.

(** X1.  The first listing on a sequence without headings and dividers:
    a group that is closed while main is empty and no item exists yet
    becomes main, so the single group without a title is the main group
    and there is no item. *)
Lemma Groups1_no_headings (sequence : list Element) :
  sequence ≠ [] →
  Forall plain sequence →
  Groups1.processGroups sequence =
    mkStructure
      (Some (mkGroup (mkHeadings None None None) sequence (mkMetadata None None [])))
      [].
Proof.
  intros Hne Hall. destruct sequence as [| e l]; [congruence |].
  inversion Hall as [| ? ? He Hl]; subst.
  destruct (plain_isType e He) as [Hd Hh].
  unfold Groups1.processGroups. cbn [forIndex].
  assert (Hfirst : Groups1.body (e :: l) (mkStructure None [], None) 0%nat e
          = (mkStructure None [], Some (pushContent Groups1.createNewGroup e))).
  { unfold Groups1.body. rewrite Hd, Hh. reflexivity. }
  rewrite Hfirst, Groups1_loop_plain by assumption.
  reflexivity.
Qed.

(** In the second listing a group becomes main only with a title. *)
Lemma Groups2_addGroupToStructure_main g st :
  (∀ m, main st = Some m → isSome (title (headings m)) = true) →
  ∀ m, main (Groups2.addGroupToStructure g st) = Some m →
       isSome (title (headings m)) = true.
Proof.
  intros Hst m. unfold Groups2.addGroupToStructure.
  destruct (negb (isSome (main st)) && Groups2.isMainGroup _) eqn:Hc; cbn.
  - intros H; injection H as <-. apply andb_prop in Hc as [_ Hmain].
    unfold Groups2.isMainGroup in Hmain. cbn in *.
    destruct (title (headings g)); [reflexivity | discriminate].
  - apply Hst.
Qed.

Lemma Groups2_loop_main sequence l : ∀ i st cur,
  (∀ m, main st = Some m → isSome (title (headings m)) = true) →
  ∀ m, main (fst (forIndex (Groups2.body sequence) i l (st, cur))) = Some m →
       isSome (title (headings m)) = true.
Proof.
  induction l as [| e l IH]; intros i st cur Hst; cbn [forIndex]; [exact Hst |].
  unfold Groups2.body at 2.
  destruct (El.isType TDivider e); [| destruct (El.isType THeading e);
    [destruct (Groups2.shouldStartNewGroup e cur sequence i) |]];
    apply IH; try exact Hst;
    destruct cur; cbn; try exact Hst; apply Groups2_addGroupToStructure_main; exact Hst.
Qed.

(** X2.  In the second listing a main group always has a title:
    a group without one is never promoted, whatever the sequence. *)
Theorem Groups2_main_has_title (sequence : list Element) (m : Group) :
  main (Groups2.processGroups sequence) = Some m →
  isSome (title (headings m)) = true.
Proof.
  unfold Groups2.processGroups.
  pose proof (Groups2_loop_main sequence sequence 0%nat (mkStructure None []) None) as H.
  destruct (forIndex _ _ _ _) as [st cur]. cbn [fst] in H.
  assert (Hst : ∀ m, main st = Some m → isSome (title (headings m)) = true).
  { apply H. intros m0 H0. discriminate. }
  destruct cur; cbn; [apply Groups2_addGroupToStructure_main; exact Hst | apply Hst].
Qed.

Lemma Groups2_main_has_title_witness :
  isSome (title (headings
    (mkGroup (mkHeadings None (Some (HeadingEl 3 "WELCOME" 1 [])) None)
             [ParagraphEl "Lead" 0]
             (mkMetadata (Some 3) (Some false) [TParagraph])))) = true.
Proof.
  apply (Groups2_main_has_title
           [ParagraphEl "Lead" 0; HeadingEl 3 "WELCOME" 1 []; HeadingEl 1 "Title" 2 []]).
  vm_compute. reflexivity.
Defined.

(** The look-ahead of the second listing takes the next heading wherever
    it is: content between the two headings does not stop it. *)
Lemma isEyebrowPattern_looks_past_content :
  let h3 := HeadingEl 3 "WELCOME" 0 [] in
  Groups2.isEyebrowPattern h3
    [h3; ParagraphEl "Body" 1; ListEl None [] 2; HeadingEl 1 "Title" 3 []] 0 = true.
Proof. reflexivity. Qed.

(** ** Sequencing *)

(** C4.  The counter is advanced once per visited node, emitted or not:
    under a root, the first heading is emitted with position 1, and the
    text node inside it uses up position 2, so the paragraph that follows
    gets position 3.  Index and position differ at every index. *)
Theorem processSequence_positions_count_visits :
  let ast :=
    Ast.root [ Ast.heading 1 [Ast.text "Title"]; Ast.paragraph [Ast.text "Body"] ] in
  Sequence2.processSequence ast
    = Normal [HeadingEl 1 "Title" 1 []; ParagraphEl "Body" 3]
  ∧ Sequence1.processSequence ast
    = Normal [HeadingEl 1 "Title" 1 []; ParagraphEl "Body" 3].
Proof.
  split; vm_compute; reflexivity.
Qed.

(** C5.  The default role [background] is given at position 0 only, and
    position 0 belongs to the root of the tree.  The first image of a
    document, here alone in its paragraph and without a role prefix, is
    emitted with role [content] (twice: once for the paragraph, once for
    the image node inside it). *)
Theorem first_image_defaults_to_content :
  let ast := Ast.root [ Ast.paragraph [Ast.image None (Some "./hero-bg.jpg") None] ] in
  Sequence2.processSequence ast
    = Normal [ ImageEl (Some RContent) (Some "./hero-bg.jpg") "" None 1;
               ImageEl (Some RContent) (Some "./hero-bg.jpg") "" None 2 ]
  ∧ Sequence1.processSequence ast
    = Normal [ ImageEl (Some RContent) (Some "./hero-bg.jpg") "" None 1;
               ImageEl (Some RContent) (Some "./hero-bg.jpg") "" None 2 ].
Proof.
  split; vm_compute; reflexivity.
Qed.

(** C6.  A marker with two labels is recognised by [extractLabels] but not
    by the regular expression that strips the content, which accepts one
    label only: the labels come out right and the content keeps the whole
    marker.  With one label both agree.  The first listing returns no
    label at all. *)
Theorem heading_marker_with_two_labels_not_stripped :
  Sequence2.processNode (Ast.heading 2 [Ast.text "Natural Writing {.highlight .big}"]) 1
    = Normal (Some (HeadingEl 2 "Natural Writing {.highlight .big}" 1
                              ["highlight"; "big"]))
  ∧ Sequence2.processNode (Ast.heading 2 [Ast.text "Natural Writing {.highlight}"]) 1
    = Normal (Some (HeadingEl 2 "Natural Writing" 1 ["highlight"]))
  ∧ Sequence1.processNode (Ast.heading 2 [Ast.text "Natural Writing {.highlight}"]) 1
    = Normal (Some (HeadingEl 2 "Natural Writing {.highlight}" 1 [])).
Proof.
  repeat split; vm_compute; reflexivity.
Qed.

(** *** Positions, in general *)

Section Walk.
Variable processNode : Node → Z → Completion (option Element).
Hypothesis Hkeeps : keepsPosition processNode.
Variable d : Z.

Lemma sequenceCallback_sequenced st node st' :
  sequenced d st →
  sequenceCallback processNode st node = Normal st' →
  sequenced d st'.
Proof.
  intros (Hinc & Hlt & Hidx & Hlen). unfold sequenceCallback.
  destruct (processNode node (position st)) as [[e |] | err] eqn:Hp; cbn;
    intros H; [| | discriminate]; injection H as <-.
  - apply Hkeeps in Hp. unfold sequenced; cbn. repeat split.
    + apply StronglySorted_app_2; [| exact Hinc | repeat constructor].
      intros x1 x2 H1 H2. apply list_elem_of_singleton in H2 as ->.
      rewrite Forall_forall in Hlt. rewrite Hp. apply Hlt. exact H1.
    + apply Forall_app. split.
      * eapply Forall_impl; [exact Hlt |]. cbn. intros; lia.
      * repeat constructor. lia.
    + intros i x Hi. apply lookup_app_Some in Hi as [Hi | [Hge Hi]].
      * apply Hidx. exact Hi.
      * destruct (i - length (sequence st))%nat as [| j] eqn:Hj; [| discriminate].
        injection Hi as <-. lia.
    + rewrite length_app. cbn. lia.
  - unfold sequenced; cbn. repeat split; try assumption; try lia.
    eapply Forall_impl; [exact Hlt |]. cbn. intros; lia.
Qed.

Lemma children_sequenced cs : ∀ st st',
  Forall (fun c => ∀ st st', sequenced d st →
            visit (sequenceCallback processNode) c st = Normal st' →
            sequenced d st') cs →
  sequenced d st →
  forEachC (fun st child => visit (sequenceCallback processNode) child st) cs st
    = Normal st' →
  sequenced d st'.
Proof.
  induction cs as [| c cs IH]; intros st st' Hall Hst; cbn [forEachC].
  - intros H; injection H as <-. exact Hst.
  - inversion Hall as [| ? ? Hc Hcs]; subst.
    destruct (visit _ c st) as [st1 | err] eqn:Hv; cbn; [| discriminate].
    apply IH; [exact Hcs | eapply Hc; eassumption].
Qed.

Lemma visit_sequenced node : ∀ st st',
  sequenced d st →
  visit (sequenceCallback processNode) node st = Normal st' →
  sequenced d st'.
Proof.
  induction node as [t dp v cs a u ti l o IH] using Node_forall_ind.
  intros st st' Hst. cbn [visit].
  destruct (sequenceCallback processNode st _) as [st1 | err] eqn:Hcb; cbn;
    [| discriminate].
  apply sequenceCallback_sequenced in Hcb; [| exact Hst].
  destruct cs as [ns |].
  - apply children_sequenced; assumption.
  - intros H; injection H as <-. exact Hcb.
Qed.

End Walk.

Lemma Sequence2_keepsPosition : keepsPosition Sequence2.processNode.
Proof.
  intros node p e H. unfold Sequence2.processNode in H.
  repeat match type of H with
         | context [if ?b then _ else _] => destruct b
         | context [match ?x with _ => _ end] => destruct x
         end; try discriminate; injection H as <-; reflexivity.
Qed.

Lemma Sequence1_keepsPosition : keepsPosition Sequence1.processNode.
Proof.
  intros node p e H. unfold Sequence1.processNode, Sequence1.isImageParagraph in H.
  repeat match type of H with
         | context [if ?b then _ else _] => destruct b
         | context [match ?x with _ => _ end] => destruct x
         end; cbn in H; try discriminate; injection H as <-; reflexivity.
Qed.

Lemma sequenced_initial : sequenced 0 (mkSeqState [] 0).
Proof.
  unfold sequenced; cbn. repeat split; try constructor; try lia.
  intros i e H. discriminate.
Qed.

(** X3.  Whatever the tree, the positions of the returned sequence grow
    strictly, and none is below its index. *)
Theorem processSequence_positions_increase (ast : Node) (seq : list Element) :
  Sequence2.processSequence ast = Normal seq ∨ Sequence1.processSequence ast = Normal seq →
  increasing seq
  ∧ ∀ (i : nat) e, seq !! i = Some e → Z.of_nat i ≤ El.position e.
Proof.
  intros [H | H].
  - unfold Sequence2.processSequence in H.
    destruct (visit _ ast _) as [st |] eqn:Hv; cbn in H; [| discriminate].
    injection H as <-.
    apply (visit_sequenced _ Sequence2_keepsPosition 0) in Hv; [| apply sequenced_initial].
    destruct Hv as (Hinc & _ & Hidx & _). split; [exact Hinc |].
    intros i e Hi. specialize (Hidx i e Hi). lia.
  - unfold Sequence1.processSequence in H.
    destruct (visit _ ast _) as [st |] eqn:Hv; cbn in H; [| discriminate].
    injection H as <-.
    apply (visit_sequenced _ Sequence1_keepsPosition 0) in Hv; [| apply sequenced_initial].
    destruct Hv as (Hinc & _ & Hidx & _). split; [exact Hinc |].
    intros i e Hi. specialize (Hidx i e Hi). lia.
Qed.

Lemma processSequence_positions_increase_witness :
  increasing [HeadingEl 1 "Title" 1 []; ParagraphEl "Body" 3].
Proof.
  apply (processSequence_positions_increase
           (Ast.root [ Ast.heading 1 [Ast.text "Title"]; Ast.paragraph [Ast.text "Body"] ])).
  left. vm_compute. reflexivity.
Defined.

(** X4.  Under a root that emits nothing, as the root of a document, every
    position is strictly above its index: no element of any document has
    its index as position. *)
Theorem processSequence_position_above_index (ast : Node) (seq : list Element) :
  Sequence2.processNode ast 0 = Normal None →
  Sequence2.processSequence ast = Normal seq →
  ∀ (i : nat) e, seq !! i = Some e → Z.of_nat i < El.position e.
Proof.
  intros Hroot H. unfold Sequence2.processSequence in H.
  destruct (visit _ ast _) as [st |] eqn:Hv; cbn in H; [| discriminate].
  injection H as <-.
  assert (Hst : sequenced 1 st).
  { assert (Hcb : sequenceCallback Sequence2.processNode (mkSeqState [] 0) ast
                  = Normal (mkSeqState [] 1)).
    { unfold sequenceCallback. cbn [position]. rewrite Hroot. reflexivity. }
    destruct ast as [t dp v cs a u ti l o]. cbn [visit] in Hv.
    rewrite Hcb in Hv. cbn [mbind Completion_bind] in Hv.
    assert (H1 : sequenced 1 (mkSeqState [] 1)).
    { unfold sequenced; cbn. repeat split; try constructor; try lia.
      intros i e H. discriminate. }
    destruct cs as [ns |].
    - eapply (children_sequenced Sequence2.processNode 1 ns); [| exact H1 | exact Hv].
      apply Forall_forall. intros c _ st0 st0' H0.
      apply (visit_sequenced _ Sequence2_keepsPosition 1). exact H0.
    - injection Hv as <-. exact H1. }
  destruct Hst as (_ & _ & Hidx & _).
  intros i e Hi. specialize (Hidx i e Hi). lia.
Qed.

Lemma processSequence_position_above_index_witness :
  (0 < El.position (HeadingEl 1 "Title" 1 [])) ∧ (1 < El.position (ParagraphEl "Body" 3)).
Proof.
  pose proof (processSequence_position_above_index
                (Ast.root [ Ast.heading 1 [Ast.text "Title"]; Ast.paragraph [Ast.text "Body"] ])
                [HeadingEl 1 "Title" 1 []; ParagraphEl "Body" 3]
                eq_refl eq_refl) as H.
  split; [apply (H 0%nat) | apply (H 1%nat)]; reflexivity.
Defined.

(** Away from position 0 an image without a role prefix gets the role
    [content], whether it is the first image or not. *)
Lemma processImageNode_default_role (node : Node) (p : Z) :
  p ≠ 0 →
  Regex.match_ (default "" (orElse (Ast.alt node) None)) roleRe = None →
  El.role (Sequence2.processImageNode node p) = Some RContent.
Proof.
  intros Hp Hm. unfold Sequence2.processImageNode. cbv zeta. rewrite Hm. cbn.
  destruct (p =? 0) eqn:E; [| reflexivity].
  apply Z.eqb_eq in E. contradiction.
Qed.

Lemma processImageNode_default_role_witness :
  El.role (Sequence2.processImageNode
             (Ast.image (Some "A pen on a desk") (Some "./pen.jpg") None) 1)
  = Some RContent.
Proof.
  apply processImageNode_default_role; [discriminate | vm_compute; reflexivity].
Defined.

(** ** Validation *)

Section ValidatorExamples.
Import Validation.

(** C8.  A heading held in the title slot of main is reported as
    orphaned, and reported twice: [validateOrphanedContent] looks at the
    content lists only, and it runs once from [validateStructure] and
    once more from [validateContentGroups]. *)
Theorem title_heading_reported_orphaned_twice :
  let h := HeadingEl 1 "Title" 0 [] in
  let p := ParagraphEl "Body" 1 in
  let groups :=
    mkStructure
      (Some (mkGroup (mkHeadings None (Some h) None) [p] (mkMetadata (Some 1) None [])))
      [] in
  Groups1.processGroups [h; p] = groups
  ∧ ∃ r, validateContent (sectionOf [h; p] groups) = Normal r
         ∧ ofType "orphaned_content" (warnings r) = [orphanWarning h; orphanWarning h].
Proof.
  intros h p groups. split; [reflexivity |].
  eexists. split; [vm_compute; reflexivity | vm_compute; reflexivity].
Qed.

(** C9.  The search stops one short on the right: for a background image
    at position 0, a heading at position 2 is not seen, and the
    suggestion is emitted although a heading lies within two positions. *)
Theorem heading_two_after_background_not_seen :
  let img := ImageEl (Some RBackground) (Some "./bg.jpg") "" None 0 in
  let sequence := [img; ParagraphEl "Body" 1; HeadingEl 1 "Title" 2 []] in
  findNearbyHeading img sequence = None
  ∧ ∃ r, validateContent (sectionOf sequence (Groups2.processGroups sequence)) = Normal r
         ∧ location <$> ofType "orphaned_background" (suggestions r)
           = [Some (AtEntry (Index.mkEntry img
                               (Index.mkContext 0 None (Some (ParagraphEl "Body" 1)) None)))].
Proof.
  intros img sequence. split; [reflexivity |].
  eexists. split; [vm_compute; reflexivity | vm_compute; reflexivity].
Qed.

End ValidatorExamples.

(** *** Orphaned content, in general *)

Section Orphans.
Import Validation.




(** The positions collected are those of the elements of the content
    lists; the heading slots do not contribute. *)
Lemma elem_of_add_positions (z : Z) l : ∀ s : gset Z,
  z ∈ foldl (fun (s : gset Z) el => s ∪ {[ El.position el ]}) s l
  ↔ z ∈ s ∨ ∃ e, e ∈ l ∧ El.position e = z.
Proof.
  induction l as [| a l IH]; intros s; cbn [foldl].
  - split; [auto |]. intros [H | (e & He & _)]; [exact H | inversion He].
  - rewrite IH, elem_of_union, elem_of_singleton. split.
    + intros [[H | ->] | (e & He & Hp)]; [auto | right | right].
      * exists a. split; [left | reflexivity].
      * exists e. split; [right; exact He | exact Hp].
    + intros [H | (e & He & Hp)]; [auto |].
      apply elem_of_cons in He as [-> | He]; [left; right; symmetry; exact Hp |].
      right. exists e. auto.
Qed.

Lemma elem_of_groupedPositions (z : Z) (groups : Structure) :
  z ∈ groupedPositions groups
  ↔ ∃ g e, g ∈ structureGroups groups ∧ e ∈ content g ∧ El.position e = z.
Proof.
  unfold groupedPositions, structureGroups. cbv zeta.
  set (add := foldl (fun (s : gset Z) el => s ∪ {[ El.position el ]})).
  assert (Hitems : ∀ its (s : gset Z),
            z ∈ foldl (fun s group => add s (content group)) s its
            ↔ z ∈ s ∨ ∃ g e, g ∈ its ∧ e ∈ content g ∧ El.position e = z).
  { induction its as [| g its IH]; intros s; cbn [foldl].
    - split; [auto |]. intros [H | (g & e & Hg & _)]; [exact H | inversion Hg].
    - rewrite IH. unfold add at 1. rewrite elem_of_add_positions. split.
      + intros [[H | (e & He & Hp)] | (g' & e & Hg & He & Hp)]; [auto | right | right].
        * exists g, e. split; [left | auto].
        * exists g', e. split; [right; exact Hg | auto].
      + intros [H | (g' & e & Hg & He & Hp)]; [auto |].
        apply elem_of_cons in Hg as [-> | Hg]; [left; right; eauto |].
        right. exists g', e. auto. }
  rewrite Hitems. destruct (main groups) as [m |]; cbn.
  - unfold add. rewrite elem_of_add_positions. split.
    + intros [[H | (e & He & Hp)] | (g & e & Hg & He & Hp)].
      * set_solver.
      * exists m, e. split; [left | auto].
      * exists g, e. split; [right; exact Hg | auto].
    + intros (g & e & Hg & He & Hp).
      apply elem_of_cons in Hg as [-> | Hg]; [left; right; eauto |].
      right. exists g, e. auto.
  - split.
    + intros [H | (g & e & Hg & He & Hp)]; [set_solver | eauto].
    + intros (g & e & Hg & He & Hp). right. eauto.
Qed.

Lemma orphan_loop positions l : ∀ i results,
  forIndex (fun results index element =>
              if negb (bool_decide (Z.of_nat index ∈ positions))
                 && negb (El.isType TDivider element)
              then pushWarning results (orphanWarning element)
              else results)
           i l results
  = mkResults (errors results)
              (warnings results ++ (orphanWarning <$> orphansFrom positions i l))
              (suggestions results).
Proof.
  induction l as [| e l IH]; intros i results; cbn [forIndex orphansFrom].
  - cbn. rewrite app_nil_r. destruct results; reflexivity.
  - rewrite IH. destruct (negb _ && negb _); cbn; [| reflexivity].
    rewrite <- app_assoc. reflexivity.
Qed.

Lemma validateOrphanedContent_adds sequence groups byType results :
  validateOrphanedContent (Input.mkParsed (Some sequence) groups byType) results
  = Normal (mkResults (errors results)
              (warnings results ++ (orphanWarning <$> orphans groups sequence))
              (suggestions results)).
Proof.
  unfold validateOrphanedContent; cbn. rewrite orphan_loop. reflexivity.
Qed.






End Orphans.

(** X6.  What [findNearbyHeading] searches: the indexes from [pos - 2] up to
    [pos + 1], inside the sequence.  It finds nothing exactly when no
    heading sits there. *)
Lemma findNearbyHeading_None_iff (element : Element) (sequence : list Element) :
  Validation.findNearbyHeading element sequence = None
  ↔ ∀ (i : nat) e,
      El.position element - 2 ≤ Z.of_nat i < El.position element + 2 →
      sequence !! i = Some e → El.type e ≠ THeading.
Proof.
  unfold Validation.findNearbyHeading. cbv zeta.
  set (f := fun i : Z =>
              e ← sequence !! Z.to_nat i;
              if El.isType THeading e then Some e else None).
  rewrite head_None. split.
  - intros Hnil i e Hi He Hty.
    assert (Hin : Z.of_nat i ∈ seqZ (Z.max 0 (El.position element - 2))
                    (Z.min (Z.of_nat (length sequence)) (El.position element + 2)
                     - Z.max 0 (El.position element - 2))).
    { apply elem_of_seqZ. apply lookup_lt_Some in He. lia. }
    assert (Hf : f (Z.of_nat i) = Some e).
    { unfold f. rewrite Nat2Z.id, He. cbn. unfold El.isType.
      rewrite bool_decide_eq_true_2 by assumption. reflexivity. }
    assert (Hmem : e ∈ omap f (seqZ (Z.max 0 (El.position element - 2))
                    (Z.min (Z.of_nat (length sequence)) (El.position element + 2)
                     - Z.max 0 (El.position element - 2)))).
    { apply list_elem_of_omap. eauto. }
    rewrite Hnil in Hmem. inversion Hmem.
  - intros Hno.
    destruct (omap f _) as [| e l] eqn:Hom; [reflexivity | exfalso].
    assert (Hmem : e ∈ e :: l) by left.
    rewrite <- Hom in Hmem. apply list_elem_of_omap in Hmem as (i & Hi & Hf).
    apply elem_of_seqZ in Hi. unfold f in Hf.
    destruct (sequence !! Z.to_nat i) as [e' |] eqn:He; cbn in Hf; [| discriminate].
    unfold El.isType in Hf. case_bool_decide; [| discriminate].
    injection Hf as ->.
    apply (Hno (Z.to_nat i) e); [lia | exact He | assumption].
Qed.

Lemma findNearbyHeading_None_iff_witness :
  Validation.findNearbyHeading (DividerEl 0) [DividerEl 0] = None.
Proof.
  apply (proj2 (findNearbyHeading_None_iff (DividerEl 0) [DividerEl 0])).
  intros [| i] e _ He; [| discriminate].
  injection He as <-. discriminate.
Defined.

(** ** Indexing *)

(** C10.  The sequencer names the role [icon]; the index declares the
    bucket [icons].  On a sequence with an icon image the listing of
    [src/parser/types.js] raises a [TypeError]; the second listing
    creates a bucket [icon] for it and leaves [icons] empty. *)
Theorem icon_image_misses_icons_bucket :
  let img := ImageEl (Some RIcon) (Some "./icons/write.svg") "pen-tool" None 0 in
  Sequence2.processImageNode
    (Ast.image (Some "icon: pen-tool") (Some "./icons/write.svg") None) 0 = img
  ∧ Types1.processByType [img]
    = Throw (TypeError "Cannot read properties of undefined (reading 'push')")
  ∧ Index.images (Types2.processByType [img]) !! "icons" = Some []
  ∧ Index.images (Types2.processByType [img]) !! "icon"
    = Some [Index.mkEntry img (Index.mkContext 0 None None None)].
Proof.
  repeat split; vm_compute; reflexivity.
Qed.

(** *** Each bucket is a filter of the enriched sequence *)

Lemma values_insert (m : gmap string (list Index.Entry)) k w :
  values (<[k := w]> m) ≡ₚ w ++ values (delete k m).
Proof.
  unfold values. rewrite <- (insert_delete_eq m).
  rewrite map_to_list_insert by apply lookup_delete_eq.
  reflexivity.
Qed.

Lemma values_lookup (m : gmap string (list Index.Entry)) k :
  values m ≡ₚ default [] (m !! k) ++ values (delete k m).
Proof.
  unfold values. destruct (m !! k) as [v |] eqn:Hk; simpl.
  - rewrite <- (map_to_list_delete m k v Hk). reflexivity.
  - rewrite delete_id by assumption. reflexivity.
Qed.

Lemma values_push (m : gmap string (list Index.Entry)) k x :
  values (<[k := default [] (m !! k) ++ [x]]> m) ≡ₚ values m ++ [x].
Proof.
  rewrite values_insert, (values_lookup m k). solve_Permutation.
Qed.

(** The image case of the second listing, in one step: the entry is
    appended under its key, the bucket being created when missing. *)
Lemma Types2_image_step (m : gmap string (list Index.Entry)) k x :
  let m' := match m !! k with Some _ => m | None => <[k := []]> m end in
  <[k := default [] (m' !! k) ++ [x]]> m' = <[k := default [] (m !! k) ++ [x]]> m.
Proof.
  destruct (m !! k) as [v |] eqn:Hk; simpl.
  - rewrite Hk. reflexivity.
  - rewrite lookup_insert_eq, insert_insert_eq. reflexivity.
Qed.

Lemma Types2_body_bucket sequence c f i e t :
  bucket (fst (Types2.body sequence (c, f) i e)) t
  ≡ₚ bucket c t
     ++ filter (hasType t) [Index.mkEntry e (Index.getElementContext sequence i)].
Proof.
  unfold Types2.body.
  destruct e; cbn [El.type]; cbv zeta; cbn [fst];
    try (destruct t; cbn; rewrite ?app_nil_r; reflexivity).
  rewrite Types2_image_step.
  destruct t; cbn; rewrite ?app_nil_r; try reflexivity.
  apply values_push.
Qed.

Lemma Types2_body_role sequence c f i e k :
  roleBucket (fst (Types2.body sequence (c, f) i e)) k
  = roleBucket c k
    ++ filter (hasRoleKey k) [Index.mkEntry e (Index.getElementContext sequence i)].
Proof.
  unfold Types2.body, roleBucket.
  destruct e; cbn [El.type]; cbv zeta; cbn [fst];
    try (rewrite filter_cons_False by (intros [? _]; discriminate);
         cbn; rewrite app_nil_r; reflexivity).
  rewrite Types2_image_step. cbn [Index.images Index.setHasMedia Index.setImages].
  match goal with |- context [<[?rk := _]> _] => destruct (decide (rk = k)) as [Heq | Hne] end.
  - subst k. rewrite lookup_insert_eq.
    rewrite filter_cons_True by (split; reflexivity).
    reflexivity.
  - rewrite lookup_insert_ne by assumption.
    rewrite filter_cons_False by (intros [_ ?]; contradiction).
    cbn. rewrite app_nil_r. reflexivity.
Qed.

Lemma Types2_loop_bucket sequence t l : ∀ i st,
  bucket (fst (forIndex (Types2.body sequence) i l st)) t
  ≡ₚ bucket (fst st) t ++ filter (hasType t) (entriesFrom sequence i l).
Proof.
  induction l as [| e l IH]; intros i [c f]; cbn [forIndex entriesFrom].
  - rewrite filter_nil, app_nil_r. reflexivity.
  - rewrite IH. destruct (Types2.body sequence (c, f) i e) as [c' f'] eqn:Hb.
    pose proof (Types2_body_bucket sequence c f i e t) as H.
    rewrite Hb in H. cbn [fst] in *. rewrite H.
    rewrite <- app_assoc, <- filter_app. reflexivity.
Qed.

Lemma Types2_loop_role sequence k l : ∀ i st,
  roleBucket (fst (forIndex (Types2.body sequence) i l st)) k
  = roleBucket (fst st) k ++ filter (hasRoleKey k) (entriesFrom sequence i l).
Proof.
  induction l as [| e l IH]; intros i [c f]; cbn [forIndex entriesFrom].
  - rewrite filter_nil, app_nil_r. reflexivity.
  - rewrite IH. destruct (Types2.body sequence (c, f) i e) as [c' f'] eqn:Hb.
    pose proof (Types2_body_role sequence c f i e k) as H.
    rewrite Hb in H. cbn [fst] in *. rewrite H.
    rewrite <- app_assoc, <- filter_app. reflexivity.
Qed.

Lemma initial_bucket sequence t : bucket (Index.initial sequence) t = [].
Proof. destruct t; vm_compute; reflexivity. Qed.

Lemma initial_roleBucket sequence k : roleBucket (Index.initial sequence) k = [].
Proof.
  unfold roleBucket, Index.initial; cbn [Index.images].
  repeat (rewrite lookup_insert; case_decide; [reflexivity |]).
  rewrite lookup_singleton. case_decide; reflexivity.
Qed.

(** Each top-level bucket holds, up to the order of the role buckets,
    the entries of its type; each role bucket holds the image entries of
    its key, in order. *)
Lemma Types2_bucket sequence t :
  bucket (Types2.processByType sequence) t ≡ₚ filter (hasType t) (entries sequence).
Proof.
  unfold Types2.processByType, entries.
  pose proof (Types2_loop_bucket sequence t sequence 0%nat (Index.initial sequence, [])) as H.
  destruct (forIndex _ _ _ _) as [c f]. cbn [fst] in H.
  rewrite initial_bucket in H. rewrite <- H. destruct t; reflexivity.
Qed.

Lemma Types2_roleBucket sequence k :
  roleBucket (Types2.processByType sequence) k = filter (hasRoleKey k) (entries sequence).
Proof.
  unfold Types2.processByType, entries.
  pose proof (Types2_loop_role sequence k sequence 0%nat (Index.initial sequence, [])) as H.
  destruct (forIndex _ _ _ _) as [c f]. cbn [fst] in H.
  rewrite initial_roleBucket in H. exact H.
Qed.

(** *** The enriched sequence *)

Lemma entriesFrom_element sequence l : ∀ i,
  Index.element <$> entriesFrom sequence i l = l.
Proof.
  induction l as [| e l IH]; intros i; cbn; [reflexivity |].
  rewrite IH. reflexivity.
Qed.

Lemma entriesFrom_Forall (P : Element → Prop) sequence l : ∀ i,
  Forall P l → Forall (fun en => P (Index.element en)) (entriesFrom sequence i l).
Proof.
  induction l as [| e l IH]; intros i Hl; cbn; [constructor |].
  inversion Hl; subst. constructor; [assumption | apply IH; assumption].
Qed.

Lemma entriesFrom_index_ge sequence l : ∀ i,
  Forall (fun en => (i ≤ entryIndex en)%nat) (entriesFrom sequence i l).
Proof.
  induction l as [| e l IH]; intros i; cbn; [constructor |].
  constructor; [cbn; lia |].
  eapply Forall_impl; [apply (IH (S i)) |]. cbn. intros; lia.
Qed.

Lemma filter_none {A} (P : A → Prop) `{∀ x, Decision (P x)} (l : list A) :
  Forall (fun x => ¬ P x) l → filter P l = [].
Proof.
  induction 1 as [| x l Hx Hl IH]; [reflexivity |].
  rewrite filter_cons_False by assumption. exact IH.
Qed.

Lemma atIndex_entriesFrom_lt sequence l i j :
  (j < i)%nat → atIndex j (entriesFrom sequence i l) = [].
Proof.
  intros Hlt. unfold atIndex. apply filter_none.
  eapply Forall_impl; [apply entriesFrom_index_ge |]. cbn. intros; lia.
Qed.

Lemma atIndex_entriesFrom sequence l : ∀ i j e,
  l !! j = Some e →
  atIndex (i + j) (entriesFrom sequence i l)
  = [Index.mkEntry e (Index.getElementContext sequence (i + j))].
Proof.
  induction l as [| a l IH]; intros i j e Hj; [discriminate |].
  cbn [entriesFrom]. unfold atIndex. destruct j as [| j]; cbn in Hj.
  - injection Hj as ->. rewrite Nat.add_0_r.
    rewrite filter_cons_True by reflexivity.
    f_equal. apply atIndex_entriesFrom_lt. lia.
  - rewrite filter_cons_False by (cbn; lia).
    replace (i + S j)%nat with (S i + j)%nat by lia.
    apply IH. assumption.
Qed.

Lemma atIndex_entries sequence i e :
  sequence !! i = Some e →
  atIndex i (entries sequence)
  = [Index.mkEntry e (Index.getElementContext sequence i)].
Proof. intros H. apply (atIndex_entriesFrom sequence sequence 0%nat i e H). Qed.

Lemma filter_comm {A} (P Q : A → Prop) `{∀ x, Decision (P x)} `{∀ x, Decision (Q x)}
    (l : list A) :
  filter P (filter Q l) = filter Q (filter P l).
Proof.
  induction l as [| x l IH]; [reflexivity |].
  rewrite !filter_cons.
  destruct (decide (Q x)), (decide (P x));
    rewrite ?filter_cons_True, ?filter_cons_False by assumption; congruence.
Qed.

(** The six filters by type split a list of entries. *)
Lemma split_by_type (l : list Index.Entry) :
  concat ((fun t => filter (hasType t) l) <$> allTypes) ≡ₚ l.
Proof.
  induction l as [| a l IH]; [reflexivity |].
  transitivity (a :: concat ((fun t => filter (hasType t) l) <$> allTypes));
    [| apply perm_skip, IH].
  unfold allTypes. cbn [fmap list_fmap concat].
  rewrite !(filter_cons _ a).
  destruct (entryType a) eqn:E;
    repeat match goal with
    | |- context [decide (hasType ?t a)] =>
        first [ rewrite (decide_True (P := hasType t a)) by exact E
              | rewrite (decide_False (P := hasType t a))
                  by (unfold hasType; rewrite E; discriminate) ]
    end;
    solve_Permutation.
Qed.

Lemma Types2_allEntries sequence :
  allEntries (Types2.processByType sequence) ≡ₚ entries sequence.
Proof.
  rewrite <- (split_by_type (entries sequence)).
  unfold allEntries, allTypes. cbn [fmap list_fmap concat].
  rewrite !Types2_bucket. reflexivity.
Qed.

(** *** Sorting by position *)

Global Instance keyLe_trans key : Transitive (keyLe key).
Proof. unfold keyLe. intros a b c; lia. Qed.

Global Instance keyLe_total key : Total (keyLe key).
Proof. unfold keyLe. intros a b; lia. Qed.

Lemma keyLt_sorted_le key l :
  StronglySorted (keyLt key) l → StronglySorted (keyLe key) l.
Proof.
  induction 1 as [| x l Hs IH Hall]; constructor; [assumption |].
  eapply Forall_impl; [exact Hall |]. unfold keyLt, keyLe. intros; lia.
Qed.

Lemma keyLt_sorted_inj key l x1 x2 :
  StronglySorted (keyLt key) l → x1 ∈ l → x2 ∈ l → key x1 = key x2 → x1 = x2.
Proof.
  induction 1 as [| x l Hs IH Hall]; intros H1 H2 Heq.
  - inversion H1.
  - rewrite Forall_forall in Hall. unfold keyLt in Hall.
    apply elem_of_cons in H1 as [-> | H1]; apply elem_of_cons in H2 as [-> | H2].
    + reflexivity.
    + specialize (Hall _ H2). lia.
    + specialize (Hall _ H1). lia.
    + apply IH; assumption.
Qed.

Lemma entries_sorted_by_position sequence l : ∀ i,
  increasing l → StronglySorted (keyLt elementPosition) (entriesFrom sequence i l).
Proof.
  induction l as [| e l IH]; intros i Hl; cbn; [constructor |].
  inversion Hl as [| ? ? Hs Hall]; subst. constructor; [apply IH; assumption |].
  apply (entriesFrom_Forall (fun b => El.position e < El.position b)).
  exact Hall.
Qed.

Lemma entries_sorted_by_index sequence l : ∀ i,
  StronglySorted (keyLt contextPosition) (entriesFrom sequence i l).
Proof.
  induction l as [| e l IH]; intros i; cbn; [constructor |].
  constructor; [apply IH |].
  eapply Forall_impl; [apply (entriesFrom_index_ge sequence l (S i)) |].
  unfold keyLt, contextPosition; cbn. intros; lia.
Qed.

(** Sorting all buckets by a key along which the enriched sequence grows
    strictly gives back the enriched sequence. *)
Lemma Types2_sort_entries key sequence :
  StronglySorted (keyLt key) (entries sequence) →
  sortBy key (allEntries (Types2.processByType sequence)) = entries sequence.
Proof.
  intros Hinc. unfold sortBy.
  assert (Hperm : merge_sort (keyLe key) (allEntries (Types2.processByType sequence))
                  ≡ₚ entries sequence).
  { rewrite merge_sort_Permutation. apply Types2_allEntries. }
  apply (StronglySorted_unique_strong (keyLe key)).
  - intros x1 x2 H1 H2 H12 H21. rewrite Hperm in H1.
    apply (keyLt_sorted_inj key (entries sequence)); try assumption.
    unfold keyLe in *. lia.
  - apply StronglySorted_merge_sort; apply _.
  - apply keyLt_sorted_le. assumption.
  - exact Hperm.
Qed.

(** The second listing: partition and round trip. *)
Lemma Types2_partition_round_trip (sequence : list Element) :
  let c := Types2.processByType sequence in
  (∀ i e, sequence !! i = Some e →
     let entry := Index.mkEntry e (Index.getElementContext sequence i) in
     (∀ t, atIndex i (bucket c t) = if decide (El.type e = t) then [entry] else [])
     ∧ (∀ k, atIndex i (roleBucket c k)
             = if decide (El.type e = TImage ∧ Index.roleKey e = k)
               then [entry] else []))
  ∧ Index.element <$> sortBy contextPosition (allEntries c) = sequence
  ∧ (increasing sequence →
     Index.element <$> sortBy elementPosition (allEntries c) = sequence).
Proof.
  intros c. split; [| split].
  - intros i e Hi entry. pose proof (atIndex_entries sequence i e Hi) as Hat.
    split.
    + intros t.
      assert (Hp : atIndex i (bucket c t) ≡ₚ filter (hasType t) [entry]).
      { unfold atIndex, c. rewrite Types2_bucket, filter_comm.
        fold (atIndex i (entries sequence)). rewrite Hat. reflexivity. }
      rewrite filter_cons, filter_nil in Hp. unfold hasType, entryType in Hp.
      cbn [Index.element entry] in Hp.
      destruct (decide (El.type e = t)).
      * apply Permutation_singleton_r. exact Hp.
      * apply Permutation_nil_r. exact Hp.
    + intros k. unfold atIndex, c. rewrite Types2_roleBucket, filter_comm.
      fold (atIndex i (entries sequence)). rewrite Hat.
      rewrite filter_cons, filter_nil. reflexivity.
  - unfold c. rewrite Types2_sort_entries by apply entries_sorted_by_index.
    apply entriesFrom_element.
  - intros Hinc. unfold c.
    rewrite Types2_sort_entries by (apply entries_sorted_by_position; exact Hinc).
    apply entriesFrom_element.
Qed.

(** *** The listing of [src/parser/types.js] on sequences without icons *)

Lemma roleKey_declared (m : gmap string (list Index.Entry)) e :
  declared m → El.role e ≠ Some RIcon → is_Some (m !! Index.roleKey e).
Proof.
  intros (Hb & Hc & Hg) Hrole. unfold Index.roleKey.
  destruct (El.role e) as [[] |]; cbn; try assumption. congruence.
Qed.

Lemma declared_insert (m : gmap string (list Index.Entry)) k v :
  declared m → declared (<[k := v]> m).
Proof.
  intros (Hb & Hc & Hg). unfold declared.
  rewrite !lookup_insert_is_Some. repeat split;
    match goal with |- ?k1 = ?k2 ∨ _ => destruct (decide (k1 = k2)); [left | right]; auto end.
Qed.

Lemma Types1_body_agrees sequence c f i e :
  declared (Index.images c) → El.role e ≠ Some RIcon →
  Types1.body sequence (c, f) i e = Normal (Types2.body sequence (c, f) i e)
  ∧ declared (Index.images (fst (Types2.body sequence (c, f) i e))).
Proof.
  intros Hdecl Hrole. unfold Types1.body, Types2.body.
  destruct e; cbn [El.type]; cbv zeta; cbn [fst]; try (split; [reflexivity | exact Hdecl]).
  destruct (roleKey_declared (Index.images c) _ Hdecl Hrole) as [v Hv].
  rewrite Hv. cbn. rewrite Hv. cbn. split; [reflexivity |].
  apply declared_insert. exact Hdecl.
Qed.

Lemma Types1_loop_agrees sequence l : ∀ i st,
  declared (Index.images (fst st)) → iconFree l →
  Types1.forEachIndex sequence i l st
  = Normal (forIndex (Types2.body sequence) i l st).
Proof.
  induction l as [| e l IH]; intros i [c f] Hdecl Hfree;
    cbn [Types1.forEachIndex forIndex]; [reflexivity |].
  inversion Hfree as [| ? ? He Hl]; subst.
  destruct (Types1_body_agrees sequence c f i e Hdecl He) as [Hb Hd'].
  rewrite Hb. cbn. apply IH; assumption.
Qed.

Lemma initial_declared sequence : declared (Index.images (Index.initial sequence)).
Proof. repeat split; vm_compute; eexists; reflexivity. Qed.

(** On a sequence without icon images both listings return the same
    index, so what holds of the second listing holds of the first. *)
Theorem Types1_agrees_without_icons (sequence : list Element) :
  iconFree sequence →
  Types1.processByType sequence = Normal (Types2.processByType sequence).
Proof.
  intros Hfree. unfold Types1.processByType, Types2.processByType.
  rewrite (Types1_loop_agrees sequence sequence 0%nat (Index.initial sequence, []));
    [| apply initial_declared | assumption].
  cbn. destruct (forIndex _ _ _ _) as [c f]. reflexivity.
Qed.

Lemma Types1_agrees_without_icons_witness :
  Types1.processByType featureSequence = Normal (Types2.processByType featureSequence).
Proof.
  apply (Types1_agrees_without_icons featureSequence).
  unfold iconFree, featureSequence. repeat constructor; discriminate.
Defined.

(** *** Icon images, in general *)

(** X7.  No role key is the name of the declared bucket [icons]: in the second
    listing that bucket never receives an entry, and the icon images are
    the entries under the key [icon]. *)
Theorem Types2_icons_bucket_stays_empty (sequence : list Element) :
  roleBucket (Types2.processByType sequence) "icons" = []
  ∧ roleBucket (Types2.processByType sequence) "icon"
    = filter (hasRoleKey "icon") (entries sequence).
Proof.
  rewrite !Types2_roleBucket. split; [| reflexivity].
  apply filter_none. apply Forall_forall. intros en _ [_ Hk].
  unfold Index.roleKey in Hk.
  destruct (El.role (Index.element en)) as [[] |]; discriminate.
Qed.

Lemma Types1_body_keeps_icon_absent sequence c f i e c' f' :
  Index.images c !! "icon" = None →
  Types1.body sequence (c, f) i e = Normal (c', f') →
  Index.images c' !! "icon" = None.
Proof.
  intros Hnone. unfold Types1.body.
  destruct e; cbn [El.type]; cbv zeta; intros Hb;
    try (injection Hb as <- <-; exact Hnone).
  match type of Hb with
  | context [Index.images c !! ?k] =>
      destruct (Index.images c !! k) as [v |] eqn:Hv; [| discriminate]
  end.
  injection Hb as <- <-. cbn.
  rewrite lookup_insert_ne; [exact Hnone | congruence].
Qed.

Lemma Types1_body_icon_throws sequence c f i e :
  Index.images c !! "icon" = None →
  El.type e = TImage → El.role e = Some RIcon →
  Types1.body sequence (c, f) i e = Throw pushOnUndefined.
Proof.
  intros Hnone Hty Hrole. unfold Types1.body. rewrite Hty. cbv zeta.
  unfold Index.roleKey. rewrite Hrole. cbn. rewrite Hnone. reflexivity.
Qed.

Lemma Types1_body_throws_push sequence st i e err :
  Types1.body sequence st i e = Throw err → err = pushOnUndefined.
Proof.
  destruct st as [c f]. unfold Types1.body.
  destruct e; cbn [El.type]; cbv zeta; try discriminate.
  match goal with
  | |- context [Index.images c !! ?k] => destruct (Index.images c !! k)
  end; [discriminate |].
  intros H; injection H as <-. reflexivity.
Qed.

Lemma Types1_loop_icon_throws sequence l : ∀ i st,
  Index.images (fst st) !! "icon" = None →
  Exists isIconImage l →
  Types1.forEachIndex sequence i l st = Throw pushOnUndefined.
Proof.
  induction l as [| e l IH]; intros i [c f] Hnone Hex; [inversion Hex |].
  cbn [Types1.forEachIndex].
  destruct (Types1.body sequence (c, f) i e) as [[c' f'] | err] eqn:Hb.
  - cbn. apply IH.
    + eapply Types1_body_keeps_icon_absent; eassumption.
    + inversion Hex as [? ? [Hty Hrole] | ? ? Htl]; subst; [| exact Htl].
      rewrite (Types1_body_icon_throws sequence c f i e Hnone Hty Hrole) in Hb.
      discriminate.
  - cbn. rewrite (Types1_body_throws_push _ _ _ _ _ Hb). reflexivity.
Qed.

(** The listing of [src/parser/types.js] returns no index for a sequence
    that holds an icon image: it throws. *)
Theorem Types1_throws_on_icon (sequence : list Element) :
  Exists isIconImage sequence →
  Types1.processByType sequence = Throw pushOnUndefined.
Proof.
  intros Hex. unfold Types1.processByType.
  rewrite (Types1_loop_icon_throws sequence sequence 0%nat (Index.initial sequence, []));
    [reflexivity | vm_compute; reflexivity | exact Hex].
Qed.

Lemma Types1_throws_on_icon_witness :
  Types1.processByType
    [ParagraphEl "Body" 0; ImageEl (Some RIcon) (Some "./icons/write.svg") "pen" None 1]
  = Throw pushOnUndefined.
Proof.
  apply Types1_throws_on_icon.
  apply Exists_cons_tl, Exists_cons_hd. split; reflexivity.
Defined.

(** *** Both listings *)

Lemma icon_or_not (e : Element) : {El.role e ≠ Some RIcon} + {isIconImage e}.
Proof.
  destruct e; try (left; discriminate).
  destruct role as [[] |]; try (left; discriminate).
  right. split; reflexivity.
Qed.

(** C7.  The round trip does not hold of [src/parser/types.js] for every
    sequence: on a feature item of the repository's fixture, whose image
    has the role [icon], it throws and returns no index at all.  What
    holds for every sequence: the index of the second listing has the
    entry of every element in exactly one top-level bucket, the one of
    its type, and there once; an image has it in exactly one role bucket,
    the one of its role key; all buckets together, sorted by the index
    kept in the context, give back the sequence (the entries without
    their context), and sorted by the position of the elements they give
    it back when positions grow along the sequence.  The listing of
    [src/parser/types.js] returns that very index when the sequence has
    no icon image, and throws when it has one. *)
Theorem processByType_round_trip_fails_on_icon :
  Types1.processByType iconFeature = Throw pushOnUndefined
  ∧ ∀ sequence : list Element,
      let c := Types2.processByType sequence in
      (∀ i e, sequence !! i = Some e →
         let entry := Index.mkEntry e (Index.getElementContext sequence i) in
         (∀ t, atIndex i (bucket c t) = if decide (El.type e = t) then [entry] else [])
         ∧ (∀ k, atIndex i (roleBucket c k)
                 = if decide (El.type e = TImage ∧ Index.roleKey e = k)
                   then [entry] else []))
      ∧ Index.element <$> sortBy contextPosition (allEntries c) = sequence
      ∧ (increasing sequence →
         Index.element <$> sortBy elementPosition (allEntries c) = sequence)
      ∧ Types1.processByType sequence
        = if decide (iconFree sequence) then Normal c else Throw pushOnUndefined.
Proof.
  split; [vm_compute; reflexivity |].
  intros sequence c.
  destruct (Types2_partition_round_trip sequence) as (Hpart & Hctx & Hpos).
  split; [exact Hpart |]. split; [exact Hctx |]. split; [exact Hpos |].
  destruct (decide (iconFree sequence)) as [Hfree | Hicon].
  - apply Types1_agrees_without_icons. exact Hfree.
  - apply Types1_throws_on_icon.
    destruct (Forall_Exists_dec _ _ icon_or_not sequence) as [H | H];
      [contradiction | exact H].
Qed.

(** * Further properties of the code *)

(** ** The grouping engine, first listing *)

(** X8.  The first listing places every element once: the filled heading
    slots and the content lists of main and the items hold, up to order,
    the sequence without its dividers; counted, slots and content lengths
    plus the dividers give the length of the sequence. *)
Theorem Groups1_every_element_placed_once (sequence : list Element) :
  placed (Groups1.processGroups sequence)
  ≡ₚ filter (fun e => isDivider e = false) sequence
  ∧ (length (slots (Groups1.processGroups sequence))
     + length (contents (Groups1.processGroups sequence))
     + dividerCount sequence)%nat = length sequence.
Proof.
  pose proof (Groups1_conservation sequence) as Hperm.
  split; [exact Hperm |].
  rewrite <- (filter_divider_length sequence), <- (Permutation_length Hperm).
  f_equal. unfold placed, slots, contents.
  induction (structureGroups (Groups1.processGroups sequence)) as [| g gs IH];
    [reflexivity |].
  cbn [fmap list_fmap concat]. rewrite !length_app, <- IH.
  unfold groupElements, slotElements. rewrite !length_app. lia.
Qed.






Lemma Groups1_no_headings_witness :
  Groups1.processGroups [ParagraphEl "Body" 0; CodeEl None (Some "x") 1] =
    mkStructure
      (Some (mkGroup (mkHeadings None None None)
               [ParagraphEl "Body" 0; CodeEl None (Some "x") 1]
               (mkMetadata None None [])))
      [].
Proof.
  apply (Groups1_no_headings [ParagraphEl "Body" 0; CodeEl None (Some "x") 1]).
  - discriminate.
  - repeat constructor; discriminate.
Defined.

(** ** The grouping engine, second listing *)

Lemma Groups2_addGroupToStructure_contents g st :
  contents (Groups2.addGroupToStructure g st) ≡ₚ contents st ++ content g
  ∧ slots (Groups2.addGroupToStructure g st) ≡ₚ slots st ++ slotElements g.
Proof.
  unfold Groups2.addGroupToStructure.
  destruct st as [[m |] its]; cbn;
    repeat match goal with |- context [if ?b then _ else _] => destruct b end;
    unfold contents, slots, structureGroups, slotElements; cbn;
    rewrite ?fmap_app, ?concat_app; cbn; split; solve_Permutation.
Qed.

Lemma Groups2_flush_held cur st :
  contents (Groups2.flush cur st) ≡ₚ heldContents (st, cur)
  ∧ slots (Groups2.flush cur st) ≡ₚ heldSlots (st, cur).
Proof.
  unfold heldContents, heldSlots. destruct cur as [g |]; cbn.
  - apply Groups2_addGroupToStructure_contents.
  - rewrite !app_nil_r. split; reflexivity.
Qed.

Lemma Groups2_addHeadingToGroup_slots g h :
  content (Groups2.addHeadingToGroup g h) = content g
  ∧ slotElements (Groups2.addHeadingToGroup g h) ⊆+ slotElements g ++ [h].
Proof.
  unfold Groups2.addHeadingToGroup.
  destruct g as [[ey ti su] co me]; cbn.
  destruct ti as [t |], su as [s' |], ey as [e' |]; cbn;
    rewrite ?andb_false_r, ?andb_true_r;
    repeat match goal with |- context [if ?b then _ else _] => destruct b end;
    unfold slotElements; cbn; (split; [reflexivity | solve_submseteq]).
Qed.

Lemma Groups2_body_held sequence st i e :
  heldContents (Groups2.body sequence st i e)
  ≡ₚ heldContents st ++ filter plain [e]
  ∧ heldSlots (Groups2.body sequence st i e)
    ⊆+ heldSlots st ++ filter isHeading [e].
Proof.
  destruct st as [st cur]. unfold Groups2.body, El.isType.
  destruct (Groups2_flush_held cur st) as [Hfc Hfs].
  destruct (decide (El.type e = TDivider)) as [Hd | Hd],
           (decide (El.type e = THeading)) as [Hh | Hh];
    rewrite ?(bool_decide_eq_true_2 _ Hd), ?(bool_decide_eq_false_2 _ Hd),
            ?(bool_decide_eq_true_2 _ Hh), ?(bool_decide_eq_false_2 _ Hh).
  - congruence.
  - rewrite filter_cons_False, filter_nil by (intros [_ ?]; contradiction).
    rewrite filter_cons_False, filter_nil by (unfold isHeading; congruence).
    unfold heldContents, heldSlots in *; cbn [fst snd] in *; cbn.
    rewrite !app_nil_r. rewrite Hfc, Hfs. split; reflexivity.
  - rewrite filter_cons_False, filter_nil by (intros [? _]; contradiction).
    rewrite filter_cons_True, filter_nil by assumption.
    destruct (Groups2.shouldStartNewGroup e cur sequence i).
    + unfold heldContents, heldSlots in *; cbn [fst snd] in *; cbn.
      rewrite !app_nil_r. rewrite Hfc, Hfs. split; [reflexivity |].
      apply submseteq_inserts_r. reflexivity.
    + unfold heldContents, heldSlots; cbn [fst snd].
      destruct cur as [g |]; cbn.
      * destruct (Groups2_addHeadingToGroup_slots g e) as [-> Hs].
        rewrite app_nil_r. split; [reflexivity |].
        rewrite <- app_assoc. apply submseteq_app; [reflexivity | exact Hs].
      * rewrite !app_nil_r. split; [reflexivity |].
        apply submseteq_inserts_r. reflexivity.
  - rewrite filter_cons_True, filter_nil by (split; assumption).
    rewrite filter_cons_False, filter_nil by assumption.
    unfold heldContents, heldSlots; cbn [fst snd].
    destruct cur as [g |]; cbn; rewrite ?app_nil_r; split;
      try reflexivity; rewrite ?app_assoc; reflexivity.
Qed.

Lemma Groups2_loop_held sequence l : ∀ i st,
  heldContents (forIndex (Groups2.body sequence) i l st)
  ≡ₚ heldContents st ++ filter plain l
  ∧ heldSlots (forIndex (Groups2.body sequence) i l st)
    ⊆+ heldSlots st ++ filter isHeading l.
Proof.
  induction l as [| e l IH]; intros i st; cbn [forIndex].
  - rewrite !filter_nil, !app_nil_r. split; reflexivity.
  - destruct (IH (S i) (Groups2.body sequence st i e)) as [Hc Hs].
    destruct (Groups2_body_held sequence st i e) as [Hc1 Hs1].
    split.
    + rewrite Hc, Hc1, <- app_assoc, <- filter_app. reflexivity.
    + etransitivity; [exact Hs |].
      etransitivity; [apply submseteq_app; [exact Hs1 | reflexivity] |].
      rewrite <- app_assoc, <- filter_app. reflexivity.
Qed.

(** X10.  The second listing keeps every body element and only those in the
    content lists: the content lists of main and the items hold, up to
    the order of the groups, the elements of the sequence that are neither
    headings nor dividers.  The heading slots hold headings of the
    sequence, none more often than it occurs; headings can be missing. *)
Theorem Groups2_body_elements_conserved (sequence : list Element) :
  contents (Groups2.processGroups sequence) ≡ₚ filter plain sequence
  ∧ slots (Groups2.processGroups sequence) ⊆+ filter isHeading sequence.
Proof.
  unfold Groups2.processGroups.
  destruct (Groups2_loop_held sequence sequence 0%nat (mkStructure None [], None))
    as [Hc Hs].
  destruct (forIndex _ _ _ _) as [st cur].
  destruct (Groups2_flush_held cur st) as [Hfc Hfs].
  rewrite Hfc, Hfs. split; [exact Hc | exact Hs].
Qed.

(** ** The sequencer *)

Section Counting.
Variable processNode : Node → Z → Completion (option Element).

Lemma sequenceCallback_counts st node st' :
  sequenceCallback processNode st node = Normal st' →
  position st' = position st + 1.
Proof.
  unfold sequenceCallback.
  destruct (processNode node (position st)) as [[e |] | err]; cbn;
    intros H; [| | discriminate]; injection H as <-; reflexivity.
Qed.

Lemma children_count cs : ∀ st st',
  Forall (fun c => ∀ st st',
            visit (sequenceCallback processNode) c st = Normal st' →
            position st' = position st + Z.of_nat (nodeCount c)) cs →
  forEachC (fun st child => visit (sequenceCallback processNode) child st) cs st
    = Normal st' →
  position st' = position st + Z.of_nat (sum_list (nodeCount <$> cs)).
Proof.
  induction cs as [| c cs IH]; intros st st' Hall; cbn [forEachC].
  - intros H; injection H as <-. cbn. lia.
  - inversion Hall as [| ? ? Hc Hcs]; subst.
    destruct (visit _ c st) as [st1 | err] eqn:Hv; cbn; [| discriminate].
    intros H. apply IH in H; [| exact Hcs]. apply Hc in Hv.
    cbn [fmap list_fmap sum_list]. change (list_fmap _ _ nodeCount cs) with (nodeCount <$> cs).
    lia.
Qed.

Lemma visit_count node : ∀ st st',
  visit (sequenceCallback processNode) node st = Normal st' →
  position st' = position st + Z.of_nat (nodeCount node).
Proof.
  induction node as [t dp v cs a u ti l o IH] using Node_forall_ind.
  intros st st'. cbn [visit nodeCount].
  destruct (sequenceCallback processNode st _) as [st1 | err] eqn:Hcb; cbn;
    [| discriminate].
  apply sequenceCallback_counts in Hcb.
  destruct cs as [ns |].
  - intros H. apply children_count in H; [| exact IH]. lia.
  - intros H; injection H as <-. lia.
Qed.

End Counting.

(** X11.  The counter runs over all nodes of the tree: every position of the
    returned sequence lies between its index and the number of nodes, and
    the sequence is no longer than the tree has nodes. *)
Theorem processSequence_positions_bounded (ast : Node) (seq : list Element) :
  Sequence2.processSequence ast = Normal seq ∨ Sequence1.processSequence ast = Normal seq →
  (length seq ≤ nodeCount ast)%nat
  ∧ ∀ (i : nat) e, seq !! i = Some e →
      Z.of_nat i ≤ El.position e < Z.of_nat (nodeCount ast).
Proof.
  assert (Hgen : ∀ processNode, keepsPosition processNode →
            ∀ st, visit (sequenceCallback processNode) ast (mkSeqState [] 0) = Normal st →
            (length (sequence st) ≤ nodeCount ast)%nat
            ∧ ∀ (i : nat) e, sequence st !! i = Some e →
                Z.of_nat i ≤ El.position e < Z.of_nat (nodeCount ast)).
  { intros processNode Hkeeps st Hv.
    pose proof (visit_count processNode ast _ _ Hv) as Hcount. cbn in Hcount.
    apply (visit_sequenced _ Hkeeps 0) in Hv; [| apply sequenced_initial].
    destruct Hv as (_ & Hlt & Hidx & Hlen). split; [lia |].
    intros i e Hi. specialize (Hidx i e Hi).
    rewrite Forall_forall in Hlt.
    assert (He : e ∈ sequence st) by (eapply list_elem_of_lookup_2; exact Hi).
    specialize (Hlt e He). lia. }
  intros [H | H].
  - unfold Sequence2.processSequence in H.
    destruct (visit _ ast _) as [st |] eqn:Hv; cbn in H; [| discriminate].
    injection H as <-. exact (Hgen _ Sequence2_keepsPosition st Hv).
  - unfold Sequence1.processSequence in H.
    destruct (visit _ ast _) as [st |] eqn:Hv; cbn in H; [| discriminate].
    injection H as <-. exact (Hgen _ Sequence1_keepsPosition st Hv).
Qed.

Lemma processSequence_positions_bounded_witness :
  (length [HeadingEl 1 "Title" 1 []; ParagraphEl "Body" 3] ≤ 5)%nat.
Proof.
  apply (processSequence_positions_bounded
           (Ast.root [ Ast.heading 1 [Ast.text "Title"]; Ast.paragraph [Ast.text "Body"] ])
           [HeadingEl 1 "Title" 1 []; ParagraphEl "Body" 3]).
  left. vm_compute. reflexivity.
Defined.

(** X12.  An image that stands alone in its paragraph is emitted twice in a
    row: once for the paragraph, which collapses into the image, and once
    more when the walk reaches the image node itself. *)
Theorem image_paragraph_emitted_twice
    (img : Node) (dp : Z) (v a u t l : option string) (o : option bool) (st : SeqState) :
  Ast.type img = "image" → Ast.children img = None →
  visit (sequenceCallback Sequence2.processNode)
        (mkNode "paragraph" dp v (Some [img]) a u t l o) st
  = Normal (mkSeqState
              (sequence st ++ [ Sequence2.processImageNode img (position st);
                                Sequence2.processImageNode img (position st + 1) ])
              (position st + 2)).
Proof.
  intros Hty Hch. destruct img as [ty d' v' cs' a' u' t' l' o']. cbn in Hty, Hch. subst.
  assert (Hpar : ∀ p, Sequence2.processNode
                        (mkNode "paragraph" dp v
                           (Some [mkNode "image" d' v' None a' u' t' l' o']) a u t l o) p
                      = Normal (Some (Sequence2.processImageNode
                                        (mkNode "image" d' v' None a' u' t' l' o') p))).
  { intros p. unfold Sequence2.processNode. cbn [Ast.type Ast.children].
    repeat case_bool_decide; try discriminate; try congruence; reflexivity. }
  assert (Himg : ∀ p, Sequence2.processNode (mkNode "image" d' v' None a' u' t' l' o') p
                      = Normal (Some (Sequence2.processImageNode
                                        (mkNode "image" d' v' None a' u' t' l' o') p))).
  { intros p. unfold Sequence2.processNode. cbn [Ast.type Ast.children].
    repeat case_bool_decide; try discriminate; try congruence; reflexivity. }
  cbn [visit forEachC]. unfold sequenceCallback.
  rewrite Hpar. cbn [mbind Completion_bind position sequence].
  rewrite Himg. cbn [mbind Completion_bind position sequence].
  rewrite <- app_assoc. replace (position st + 1 + 1) with (position st + 2) by lia.
  reflexivity.
Qed.

Lemma image_paragraph_emitted_twice_witness :
  visit (sequenceCallback Sequence2.processNode)
        (Ast.paragraph [Ast.image None (Some "./hero-bg.jpg") None]) (mkSeqState [] 1)
  = Normal (mkSeqState
              [ Sequence2.processImageNode (Ast.image None (Some "./hero-bg.jpg") None) 1;
                Sequence2.processImageNode (Ast.image None (Some "./hero-bg.jpg") None) 2 ]
              3).
Proof.
  apply (image_paragraph_emitted_twice (Ast.image None (Some "./hero-bg.jpg") None)
           0 None None None None None None (mkSeqState [] 1)); reflexivity.
Defined.

(** *** When the walk fails *)

Section Failing.
Variable processNode : Node → Z → Completion (option Element).
Variable needs : string → bool.
Hypothesis Hnormal : ∀ node p,
  isSome (Ast.children node) || negb (needs (Ast.type node)) = true →
  ∃ r, processNode node p = Normal r.
Hypothesis Hthrow : ∀ node p,
  Ast.children node = None → needs (Ast.type node) = true →
  ∃ err, processNode node p = Throw err.

Lemma sequenceCallback_normal st node r :
  processNode node (position st) = Normal r →
  ∃ st1, sequenceCallback processNode st node = Normal st1.
Proof.
  intros H. unfold sequenceCallback. rewrite H. cbn. destruct r; eauto.
Qed.

Lemma sequenceCallback_throw st node err :
  processNode node (position st) = Throw err →
  sequenceCallback processNode st node = Throw err.
Proof.
  intros H. unfold sequenceCallback. rewrite H. reflexivity.
Qed.

Lemma children_walk cs : Forall (walks processNode needs) cs → ∀ st,
  (forallb (childrenWhereNeeded needs) cs = true →
   ∃ st', forEachC (fun st child => visit (sequenceCallback processNode) child st) cs st
          = Normal st')
  ∧ (forallb (childrenWhereNeeded needs) cs = false →
     ∃ err, forEachC (fun st child => visit (sequenceCallback processNode) child st) cs st
            = Throw err).
Proof.
  induction 1 as [| c cs Hc Hcs IH]; intros st; cbn [forallb forEachC].
  - split; [eauto | discriminate].
  - destruct (Hc st) as [Hok Hbad].
    destruct (childrenWhereNeeded needs c); cbn [andb].
    + destruct (Hok eq_refl) as [st1 ->]. cbn. apply IH.
    + split; [discriminate |]. intros _.
      destruct (Hbad eq_refl) as [err ->]. cbn. eauto.
Qed.

Lemma visit_walks node : walks processNode needs node.
Proof.
  induction node as [t dp v cs a u ti l o IH] using Node_forall_ind.
  intros st. cbn [visit childrenWhereNeeded].
  destruct cs as [ns |].
  - destruct (Hnormal (mkNode t dp v (Some ns) a u ti l o) (position st) eq_refl)
      as [r Hr].
    destruct (sequenceCallback_normal st _ r Hr) as [st1 ->]. cbn.
    apply children_walk. exact IH.
  - destruct (needs t) eqn:Hneeds; cbn [negb].
    + split; [discriminate |]. intros _.
      destruct (Hthrow (mkNode t dp v None a u ti l o) (position st) eq_refl Hneeds)
        as [err Herr].
      rewrite (sequenceCallback_throw st _ err Herr). cbn. eauto.
    + split; [| discriminate]. intros _.
      destruct (Hnormal (mkNode t dp v None a u ti l o) (position st)) as [r Hr].
      { cbn. rewrite Hneeds. reflexivity. }
      destruct (sequenceCallback_normal st _ r Hr) as [st1 ->]. cbn. eauto.
Qed.

End Failing.

Lemma Sequence2_processNode_normal node p :
  isSome (Ast.children node) || negb (needsChildren2 (Ast.type node)) = true →
  ∃ r, Sequence2.processNode node p = Normal r.
Proof.
  unfold needsChildren2, Sequence2.processNode. intros H.
  repeat case_bool_decide; eauto;
    destruct (Ast.children node) as [[| c [| c' cs]] |]; eauto;
    try case_bool_decide; eauto; discriminate.
Qed.

Lemma Sequence2_processNode_throw node p :
  Ast.children node = None → needsChildren2 (Ast.type node) = true →
  ∃ err, Sequence2.processNode node p = Throw err.
Proof.
  unfold needsChildren2, Sequence2.processNode. intros Hc Hl.
  apply bool_decide_eq_true_1 in Hl. rewrite Hl, Hc.
  repeat (case_bool_decide; [discriminate |]).
  case_bool_decide; [eauto | congruence].
Qed.

Lemma Sequence1_processNode_normal node p :
  isSome (Ast.children node) || negb (needsChildren1 (Ast.type node)) = true →
  ∃ r, Sequence1.processNode node p = Normal r.
Proof.
  unfold needsChildren1, Sequence1.processNode, Sequence1.isImageParagraph. intros H.
  repeat case_bool_decide; eauto;
    destruct (Ast.children node) as [[| c [| c' cs]] |]; cbn; eauto;
    try case_bool_decide; cbn; eauto; discriminate.
Qed.

Lemma Sequence1_processNode_throw node p :
  Ast.children node = None → needsChildren1 (Ast.type node) = true →
  ∃ err, Sequence1.processNode node p = Throw err.
Proof.
  unfold needsChildren1, Sequence1.processNode, Sequence1.isImageParagraph.
  intros Hc Hl. rewrite Hc.
  repeat case_bool_decide; cbn in *; eauto; try discriminate; congruence.
Qed.

(** X13.  The second listing of the sequencer returns a sequence exactly for
    the trees in which every list node has a [children] array, and throws
    for the others; the first listing asks the same of paragraph nodes
    as well.  Nothing else makes the sequencer fail. *)
Theorem processSequence_returns_iff (ast : Node) :
  ((∃ seq, Sequence2.processSequence ast = Normal seq)
   ↔ childrenWhereNeeded needsChildren2 ast = true)
  ∧ ((∃ seq, Sequence1.processSequence ast = Normal seq)
     ↔ childrenWhereNeeded needsChildren1 ast = true).
Proof.
  split.
  - destruct (visit_walks Sequence2.processNode needsChildren2
                Sequence2_processNode_normal Sequence2_processNode_throw ast
                (mkSeqState [] 0)) as [Hok Hbad].
    unfold Sequence2.processSequence.
    destruct (childrenWhereNeeded needsChildren2 ast).
    + destruct (Hok eq_refl) as [st ->]. cbn. split; eauto.
    + destruct (Hbad eq_refl) as [err ->]. cbn. split; [| discriminate].
      intros [seq H]. discriminate.
  - destruct (visit_walks Sequence1.processNode needsChildren1
                Sequence1_processNode_normal Sequence1_processNode_throw ast
                (mkSeqState [] 0)) as [Hok Hbad].
    unfold Sequence1.processSequence.
    destruct (childrenWhereNeeded needsChildren1 ast).
    + destruct (Hok eq_refl) as [st ->]. cbn. split; eauto.
    + destruct (Hbad eq_refl) as [err ->]. cbn. split; [| discriminate].
      intros [seq H]. discriminate.
Qed.

(** ** The type index *)

(** X14.  The listing of [src/parser/types.js] returns the index of the second
    listing when the sequence has no icon image, and throws otherwise. *)
Theorem Types1_returns_unless_icon (sequence : list Element) :
  Types1.processByType sequence
  = if decide (iconFree sequence)
    then Normal (Types2.processByType sequence)
    else Throw pushOnUndefined.
Proof.
  destruct (decide (iconFree sequence)) as [Hfree | Hicon].
  - apply Types1_agrees_without_icons. exact Hfree.
  - apply Types1_throws_on_icon.
    destruct (Forall_Exists_dec _ _ icon_or_not sequence) as [H | H];
      [contradiction | exact H].
Qed.

(** *** The buckets other than the images, exactly *)

Lemma Types2_body_bucket_eq sequence c f i e t :
  t ≠ TImage →
  bucket (fst (Types2.body sequence (c, f) i e)) t
  = bucket c t
    ++ filter (hasType t) [Index.mkEntry e (Index.getElementContext sequence i)].
Proof.
  intros Ht. unfold Types2.body.
  destruct e; cbn [El.type]; cbv zeta; cbn [fst];
    destruct t; try contradiction; cbn; rewrite ?app_nil_r; reflexivity.
Qed.

Lemma Types2_loop_bucket_eq sequence t l : t ≠ TImage → ∀ i st,
  bucket (fst (forIndex (Types2.body sequence) i l st)) t
  = bucket (fst st) t ++ filter (hasType t) (entriesFrom sequence i l).
Proof.
  intros Ht. induction l as [| e l IH]; intros i [c f]; cbn [forIndex entriesFrom].
  - rewrite filter_nil, app_nil_r. reflexivity.
  - rewrite IH. destruct (Types2.body sequence (c, f) i e) as [c' f'] eqn:Hb.
    pose proof (Types2_body_bucket_eq sequence c f i e t Ht) as H.
    rewrite Hb in H. cbn [fst] in *. rewrite H.
    rewrite <- app_assoc, <- filter_app. reflexivity.
Qed.

Lemma Types2_bucket_eq sequence t :
  t ≠ TImage →
  bucket (Types2.processByType sequence) t = filter (hasType t) (entries sequence).
Proof.
  intros Ht. unfold Types2.processByType, entries.
  pose proof (Types2_loop_bucket_eq sequence t sequence Ht 0%nat
                (Index.initial sequence, [])) as H.
  destruct (forIndex _ _ _ _) as [c f]. cbn [fst] in H.
  rewrite initial_bucket in H. cbn [app] in H. rewrite <- H.
  destruct t; try contradiction; reflexivity.
Qed.

Lemma entriesFrom_filter_element (P : Element → Prop) `{∀ e, Decision (P e)}
    sequence l : ∀ i,
  Index.element <$> filter (fun en => P (Index.element en)) (entriesFrom sequence i l)
  = filter P l.
Proof.
  induction l as [| e l IH]; intros i; cbn [entriesFrom]; [reflexivity |].
  rewrite !filter_cons. cbn [Index.element].
  destruct (decide (P e)); cbn [fmap list_fmap]; rewrite <- (IH (S i)); reflexivity.
Qed.

(** X15.  [getHeadingsByLevel] on the index of a sequence returns the headings
    of that level, in document order, each with the context of its own
    index. *)
Theorem getHeadingsByLevel_of_index (sequence : list Element) (level : Z) :
  getHeadingsByLevel (Types2.processByType sequence) level
  = filter (fun en => El.type (Index.element en) = THeading
                      ∧ El.level (Index.element en) = level) (entries sequence)
  ∧ Index.element <$> getHeadingsByLevel (Types2.processByType sequence) level
    = filter (fun e => El.type e = THeading ∧ El.level e = level) sequence.
Proof.
  assert (H : getHeadingsByLevel (Types2.processByType sequence) level
              = filter (fun en => El.type (Index.element en) = THeading
                                  ∧ El.level (Index.element en) = level)
                  (entries sequence)).
  { unfold getHeadingsByLevel.
    change (Index.headings (Types2.processByType sequence))
      with (bucket (Types2.processByType sequence) THeading).
    rewrite Types2_bucket_eq by discriminate.
    rewrite list_filter_filter. apply list_filter_iff.
    intros en. unfold hasType, entryType. tauto. }
  split; [exact H |]. rewrite H. unfold entries.
  exact (entriesFrom_filter_element
           (fun e => El.type e = THeading ∧ El.level e = level) sequence sequence 0%nat).
Qed.

(** X16.  For a position inside the sequence or at its end, as
    [processByType] passes it, the nearest heading of the context is the
    closest heading strictly before the position, whatever lies between
    and whatever the groups.  (Beyond the end the source reads
    [sequence[i].type] on [undefined] and throws.) *)
Theorem nearestHeading_is_closest_before
    (sequence : list Element) (p : nat) (h : Element) :
  (p ≤ length sequence)%nat →
  Index.nearestHeading (Index.getElementContext sequence p) = Some h
  ↔ ∃ j : nat, (j < p)%nat ∧ sequence !! j = Some h ∧ El.type h = THeading
      ∧ ∀ (k : nat) e, (j < k < p)%nat → sequence !! k = Some e → El.type e ≠ THeading.
Proof.
  intros _.
  cbn [Index.getElementContext Index.nearestHeading].
  induction p as [| p IH]; cbn [Index.nearestHeadingBefore].
  - split; [discriminate | intros (j & Hj & _); lia].
  - destruct (sequence !! p) as [e |] eqn:Hp.
    + unfold El.isType. case_bool_decide as Hty.
      * split.
        -- intros H; injection H as <-. exists p. repeat split; try assumption; [lia |].
           intros k e' Hk. lia.
        -- intros (j & Hj & Hjh & Hh & Hbetween).
           destruct (decide (j = p)) as [-> | Hne]; [congruence |].
           exfalso. apply (Hbetween p e); [lia | exact Hp | exact Hty].
      * rewrite IH. split.
        -- intros (j & Hj & Hjh & Hh & Hbetween). exists j.
           repeat split; try assumption; [lia |].
           intros k e' Hk Hke. destruct (decide (k = p)) as [-> | Hne].
           ++ congruence.
           ++ apply (Hbetween k e'); [lia | exact Hke].
        -- intros (j & Hj & Hjh & Hh & Hbetween).
           destruct (decide (j = p)) as [-> | Hne]; [congruence |].
           exists j. repeat split; try assumption; [lia |].
           intros k e' Hk. apply Hbetween. lia.
    + rewrite IH. split.
      * intros (j & Hj & Hjh & Hh & Hbetween). exists j.
        repeat split; try assumption; [lia |].
        intros k e' Hk Hke. destruct (decide (k = p)) as [-> | Hne].
        -- congruence.
        -- apply (Hbetween k e'); [lia | exact Hke].
      * intros (j & Hj & Hjh & Hh & Hbetween).
        destruct (decide (j = p)) as [-> | Hne]; [congruence |].
        exists j. repeat split; try assumption; [lia |].
        intros k e' Hk. apply Hbetween. lia.
Qed.

Lemma nearestHeading_is_closest_before_witness :
  Index.nearestHeading (Index.getElementContext featureSequence 4)
  = Some (HeadingEl 2 "Natural Writing" 5 ["highlight"]).
Proof.
  apply (proj2 (nearestHeading_is_closest_before featureSequence 4
                  (HeadingEl 2 "Natural Writing" 5 ["highlight"])
                  ltac:(cbn; lia))).
  exists 2%nat. split; [lia |]. split; [reflexivity |]. split; [reflexivity |].
  intros k e Hk Hke. assert (k = 3%nat) as -> by lia.
  cbn in Hke. injection Hke as <-. discriminate.
Defined.

(** *** The helpers on the index of a sequence *)

Lemma Types2_body_keeps_bucket sequence c f i e k :
  is_Some (Index.images c !! k) →
  is_Some (Index.images (fst (Types2.body sequence (c, f) i e)) !! k).
Proof.
  intros Hk. unfold Types2.body.
  destruct e; cbn [El.type]; cbv zeta; cbn [fst]; try exact Hk.
  rewrite Types2_image_step. cbn [Index.images Index.setHasMedia Index.setImages].
  rewrite lookup_insert_is_Some.
  match goal with |- ?a = k ∨ _ => destruct (decide (a = k)); [left | right]; auto end.
Qed.

Lemma Types2_loop_keeps_bucket sequence k l : ∀ i st,
  is_Some (Index.images (fst st) !! k) →
  is_Some (Index.images (fst (forIndex (Types2.body sequence) i l st)) !! k).
Proof.
  induction l as [| e l IH]; intros i [c f] Hk; cbn [forIndex]; [exact Hk |].
  apply IH. destruct (Types2.body sequence (c, f) i e) as [c' f'] eqn:Hb.
  pose proof (Types2_body_keeps_bucket sequence c f i e k Hk) as H.
  rewrite Hb in H. exact H.
Qed.

Lemma Types2_declared_bucket sequence k :
  k ∈ ["background"; "content"; "gallery"; "icons"] →
  Index.images (Types2.processByType sequence) !! k
  = Some (filter (hasRoleKey k) (entries sequence)).
Proof.
  intros Hk.
  assert (Hsome : is_Some (Index.images (Types2.processByType sequence) !! k)).
  { unfold Types2.processByType.
    pose proof (Types2_loop_keeps_bucket sequence k sequence 0%nat
                  (Index.initial sequence, [])) as H.
    destruct (forIndex _ _ _ _) as [c f]. cbn [fst] in *. apply H.
    repeat (apply elem_of_cons in Hk as [-> | Hk]; [vm_compute; eauto |]).
    inversion Hk. }
  destruct Hsome as [v Hv]. rewrite Hv. f_equal.
  rewrite <- Types2_roleBucket. unfold roleBucket. rewrite Hv. reflexivity.
Qed.

Lemma concat_objectValues (c : Index.Collections) :
  concat (objectValues (Index.images c)) = concat (roleBucket c <$> imageKeys).
Proof.
  unfold objectValues, roleBucket. induction imageKeys as [| k ks IH]; [reflexivity |].
  cbn [omap list_omap fmap list_fmap concat].
  destruct (Index.images c !! k); cbn; rewrite <- IH; reflexivity.
Qed.

Lemma elem_of_role_buckets sequence en :
  en ∈ concat (objectValues (Index.images (Types2.processByType sequence)))
  ↔ en ∈ entries sequence ∧ entryType en = TImage.
Proof.
  rewrite concat_objectValues. unfold imageKeys. cbn [fmap list_fmap concat].
  rewrite !Types2_roleBucket, app_nil_r, !elem_of_app, !list_elem_of_filter.
  unfold hasRoleKey. split; [tauto |].
  intros [Hin Hty]. unfold Index.roleKey.
  destruct (El.role (Index.element en)) as [[] |]; cbn; tauto.
Qed.

(** X17.  [getElementsByHeadingContext] on the index of a sequence.  In the
    listing of [src/parser/types.js] it returns the paragraph, list and
    code entries under an accepted heading and never an image, though
    [images] is among the names it walks; in the second listing the image
    entries are returned as well. *)
Theorem getElementsByHeadingContext_of_index
    (sequence : list Element) (headingFilter : Element → bool) (en : Index.Entry) :
  (∀ c, Types1.processByType sequence = Normal c →
     (en ∈ Helpers1.getElementsByHeadingContext c headingFilter
      ↔ en ∈ entries sequence
        ∧ entryType en ∈ [TParagraph; TList; TCode]
        ∧ underHeading headingFilter en))
  ∧ (en ∈ Helpers2.getElementsByHeadingContext (Types2.processByType sequence)
            headingFilter
     ↔ en ∈ entries sequence
       ∧ entryType en ∈ [TParagraph; TImage; TList; TCode]
       ∧ underHeading headingFilter en).
Proof.
  pose proof (Types2_bucket_eq sequence TParagraph ltac:(discriminate)) as Hp.
  pose proof (Types2_bucket_eq sequence TList ltac:(discriminate)) as Hl.
  pose proof (Types2_bucket_eq sequence TCode ltac:(discriminate)) as Hc.
  cbn [bucket] in Hp, Hl, Hc.
  split.
  - intros c Hc1.
    destruct (Forall_Exists_dec _ _ icon_or_not sequence) as [Hfree | Hicon];
      [| rewrite (Types1_throws_on_icon sequence Hicon) in Hc1; discriminate].
    rewrite (Types1_agrees_without_icons sequence Hfree) in Hc1. injection Hc1 as <-.
    unfold Helpers1.getElementsByHeadingContext.
    rewrite Hp, Hl, Hc, !elem_of_app, !list_elem_of_filter.
    unfold hasType. rewrite !elem_of_cons, elem_of_nil. tauto.
  - unfold Helpers2.getElementsByHeadingContext.
    rewrite Hp, Hl, Hc, list_elem_of_filter, !elem_of_app, elem_of_role_buckets,
      !list_elem_of_filter.
    unfold hasType. rewrite !elem_of_cons, elem_of_nil. tauto.
Qed.

Lemma getElementsByHeadingContext_of_index_witness :
  Index.mkEntry (ParagraphEl "Transform how you build websites." 3)
    (Index.getElementContext featureSequence 1)
  ∈ Helpers1.getElementsByHeadingContext (Types2.processByType featureSequence)
      (fun h => bool_decide (El.level h = 1)).
Proof.
  apply (proj1 (getElementsByHeadingContext_of_index featureSequence
                  (fun h => bool_decide (El.level h = 1)) _)
           (Types2.processByType featureSequence)).
  - vm_compute. reflexivity.
  - split; [| split].
    + unfold entries, featureSequence. cbn [entriesFrom]. apply elem_of_cons. right. left.
    + apply elem_of_cons. left. reflexivity.
    + vm_compute. reflexivity.
Defined.

(** X18.  [getAllImages] of [src/parser/types.js], on an index that this
    listing returned: all image entries of the sequence, the background
    images first, then the content images, then the gallery images, each
    run in document order. *)
Theorem getAllImages_of_index (sequence : list Element) (c : Index.Collections) :
  Types1.processByType sequence = Normal c →
  Helpers1.getAllImages c
  = Normal (filter (hasRoleKey "background") (entries sequence)
            ++ filter (hasRoleKey "content") (entries sequence)
            ++ filter (hasRoleKey "gallery") (entries sequence))
  ∧ ∀ en, en ∈ entries sequence → entryType en = TImage →
      ∃ l, Helpers1.getAllImages c = Normal l ∧ en ∈ l.
Proof.
  intros Hc1.
  destruct (Forall_Exists_dec _ _ icon_or_not sequence) as [Hfree | Hicon];
    [| rewrite (Types1_throws_on_icon sequence Hicon) in Hc1; discriminate].
  rewrite (Types1_agrees_without_icons sequence Hfree) in Hc1. injection Hc1 as <-.
  assert (Hall : Helpers1.getAllImages (Types2.processByType sequence)
                 = Normal (filter (hasRoleKey "background") (entries sequence)
                           ++ filter (hasRoleKey "content") (entries sequence)
                           ++ filter (hasRoleKey "gallery") (entries sequence))).
  { unfold Helpers1.getAllImages.
    rewrite !Types2_declared_bucket by (rewrite !elem_of_cons; tauto).
    replace (filter (hasRoleKey "icons") (entries sequence)) with (@nil Index.Entry);
      [rewrite app_nil_r; reflexivity |].
    symmetry. apply filter_none. apply Forall_forall. intros en _ [_ Hk].
    unfold Index.roleKey in Hk.
    destruct (El.role (Index.element en)) as [[] |]; discriminate. }
  split; [exact Hall |].
  intros en Hin Hty. eexists. split; [exact Hall |].
  rewrite !elem_of_app, !list_elem_of_filter. unfold hasRoleKey, Index.roleKey.
  unfold iconFree in Hfree. rewrite Forall_forall in Hfree.
  assert (Hrole : El.role (Index.element en) ≠ Some RIcon).
  { apply Hfree. unfold entries in Hin.
    apply (list_elem_of_fmap_2 Index.element) in Hin.
    rewrite entriesFrom_element in Hin. exact Hin. }
  destruct (El.role (Index.element en)) as [[] |]; cbn; try tauto; congruence.
Qed.

Lemma getAllImages_of_index_witness :
  Helpers1.getAllImages (Types2.processByType featureSequence)
  = Normal (filter (hasRoleKey "background") (entries featureSequence)
            ++ filter (hasRoleKey "content") (entries featureSequence)
            ++ filter (hasRoleKey "gallery") (entries featureSequence)).
Proof.
  apply (getAllImages_of_index featureSequence (Types2.processByType featureSequence)).
  vm_compute. reflexivity.
Defined.

(** *** The metadata of the index *)

Lemma freqGet_freqSet (m : Index.Frequency) t v t' :
  Index.freqGet (Index.freqSet m t v) t'
  = if decide (t' = t) then Some v else Index.freqGet m t'.
Proof.
  unfold Index.freqGet. induction m as [| [k n] m IH]; cbn.
  - destruct (decide (t' = t)) as [-> | Hne].
    + rewrite bool_decide_eq_true_2 by reflexivity. reflexivity.
    + rewrite bool_decide_eq_false_2 by congruence. reflexivity.
  - destruct (decide (k = t)) as [-> | Hkt].
    + rewrite bool_decide_eq_true_2 by reflexivity. cbn.
      destruct (decide (t' = t)) as [-> | Hne].
      * rewrite bool_decide_eq_true_2 by reflexivity. reflexivity.
      * rewrite !bool_decide_eq_false_2 by congruence. reflexivity.
    + rewrite (bool_decide_eq_false_2 (k = t)) by assumption. cbn.
      destruct (decide (k = t')) as [-> | Hkt'].
      * rewrite bool_decide_eq_true_2 by reflexivity. cbn.
        destruct (decide (t' = t)); [congruence | reflexivity].
      * rewrite bool_decide_eq_false_2 by assumption. exact IH.
Qed.

Lemma freqGet_counts ts : ∀ (m : Index.Frequency) t,
  default 0%nat (Index.freqGet (foldl Index.countType m ts) t)
  = (default 0%nat (Index.freqGet m t) + length (filter (fun x => x = t) ts))%nat.
Proof.
  induction ts as [| x ts IH]; intros m t; cbn [foldl].
  - rewrite filter_nil. cbn. lia.
  - rewrite IH. unfold Index.countType at 1. rewrite freqGet_freqSet, filter_cons.
    destruct (decide (t = x)) as [-> | Hne].
    + rewrite decide_True by reflexivity. cbn. lia.
    + rewrite decide_False by congruence. reflexivity.
Qed.

Lemma freqGet_elem_of (m : Index.Frequency) t n :
  (t, n) ∈ m → ∃ n', Index.freqGet m t = Some n'.
Proof.
  unfold Index.freqGet. induction m as [| [k v] m IH]; intros Hin; [inversion Hin |].
  cbn. destruct (decide (k = t)) as [-> | Hne].
  - rewrite bool_decide_eq_true_2 by reflexivity. cbn. eauto.
  - rewrite bool_decide_eq_false_2 by assumption.
    apply elem_of_cons in Hin as [Heq | Hin]; [congruence | apply IH; exact Hin].
Qed.

Lemma freqGet_Some_elem_of (m : Index.Frequency) t n :
  Index.freqGet m t = Some n → (t, n) ∈ m.
Proof.
  unfold Index.freqGet. induction m as [| [k v] m IH]; cbn; [discriminate |].
  destruct (decide (k = t)) as [-> | Hne].
  - rewrite bool_decide_eq_true_2 by reflexivity. cbn.
    intros H; injection H as <-. left.
  - rewrite bool_decide_eq_false_2 by assumption. intros H. right. apply IH. exact H.
Qed.

(** The keys of the frequency map stay distinct, so a pair of the map is
    what [get] returns for its key. *)
Lemma freqSet_keys (m : Index.Frequency) t v :
  NoDup (fst <$> m) → NoDup (fst <$> Index.freqSet m t v)
  ∧ ∀ k, k ∈ (fst <$> Index.freqSet m t v) ↔ k = t ∨ k ∈ (fst <$> m).
Proof.
  induction m as [| [k n] m IH]; cbn; intros Hnd.
  - split; [repeat constructor; inversion 1 |].
    intros k. rewrite elem_of_cons, elem_of_nil. tauto.
  - apply NoDup_cons in Hnd as [Hk Hnd]. destruct (IH Hnd) as [IH1 IH2].
    destruct (decide (k = t)) as [-> | Hne].
    + rewrite bool_decide_eq_true_2 by reflexivity. cbn. split.
      * apply NoDup_cons. split; assumption.
      * intros k'. rewrite !elem_of_cons. tauto.
    + rewrite bool_decide_eq_false_2 by assumption. cbn. split.
      * apply NoDup_cons. split; [| exact IH1]. rewrite IH2. tauto.
      * intros k'. rewrite !elem_of_cons, IH2. tauto.
Qed.

Lemma countType_NoDup ts : ∀ m : Index.Frequency,
  NoDup (fst <$> m) → NoDup (fst <$> foldl Index.countType m ts).
Proof.
  induction ts as [| x ts IH]; intros m Hnd; cbn [foldl]; [exact Hnd |].
  apply IH. unfold Index.countType. apply freqSet_keys. exact Hnd.
Qed.

Lemma freqGet_NoDup (m : Index.Frequency) t n :
  NoDup (fst <$> m) → (t, n) ∈ m → Index.freqGet m t = Some n.
Proof.
  unfold Index.freqGet. induction m as [| [k v] m IH]; intros Hnd Hin; [inversion Hin |].
  cbn in Hnd. apply NoDup_cons in Hnd as [Hk Hnd]. cbn.
  apply elem_of_cons in Hin as [Heq | Hin].
  - injection Heq as <- <-. rewrite bool_decide_eq_true_2 by reflexivity. reflexivity.
  - destruct (decide (k = t)) as [-> | Hne].
    + exfalso. apply Hk. apply (list_elem_of_fmap_2 fst) in Hin. exact Hin.
    + rewrite bool_decide_eq_false_2 by assumption. apply IH; assumption.
Qed.

(** The loop that picks the dominant type returns a key of greatest
    frequency, and none when every frequency is zero. *)
Lemma dominant_loop (m : Index.Frequency) : ∀ (mx : nat) (dom : option ElementType),
  let r := foldl (fun '(maxFrequency, dom) '(t, frequency) =>
                    if (maxFrequency <? frequency)%nat then (frequency, Some t)
                    else (maxFrequency, dom))
                 (mx, dom) m in
  (mx ≤ fst r)%nat
  ∧ (∀ t n, (t, n) ∈ m → (n ≤ fst r)%nat)
  ∧ (r = (mx, dom) ∨ ∃ t, snd r = Some t ∧ (t, fst r) ∈ m ∧ (mx < fst r)%nat).
Proof.
  induction m as [| [k v] m IH]; intros mx dom; cbn [foldl].
  - cbn. repeat split; [lia | | left; reflexivity]. intros t n H. inversion H.
  - destruct (mx <? v)%nat eqn:Hlt.
    + apply Nat.ltb_lt in Hlt. destruct (IH v (Some k)) as (H1 & H2 & H3).
      cbv zeta in *. repeat split.
      * lia.
      * intros t n Hin. apply elem_of_cons in Hin as [Heq | Hin];
          [injection Heq as -> ->; exact H1 | eapply H2; exact Hin].
      * right. destruct H3 as [-> | (t & Ht & Hin & Hgt)].
        -- exists k. cbn. repeat split; [left | lia].
        -- exists t. repeat split; [exact Ht | right; exact Hin | lia].
    + apply Nat.ltb_ge in Hlt. destruct (IH mx dom) as (H1 & H2 & H3).
      cbv zeta in *. repeat split.
      * exact H1.
      * intros t n Hin. apply elem_of_cons in Hin as [Heq | Hin];
          [injection Heq as -> ->; lia | eapply H2; exact Hin].
      * destruct H3 as [-> | (t & Ht & Hin & Hgt)]; [left; reflexivity |].
        right. exists t. repeat split; [exact Ht | right; exact Hin | exact Hgt].
Qed.

Lemma Types2_loop_metadata sequence l : ∀ i c f,
  let r := forIndex (Types2.body sequence) i l (c, f) in
  Index.totalElements (Index.metadata (fst r)) = Index.totalElements (Index.metadata c)
  ∧ Index.hasMedia (Index.metadata (fst r))
    = Index.hasMedia (Index.metadata c) || existsb (El.isType TImage) l
  ∧ snd r = foldl Index.countType f (El.type <$> l).
Proof.
  induction l as [| e l IH]; intros i c f; cbn [forIndex].
  - cbn. rewrite orb_false_r. repeat split.
  - destruct (Types2.body sequence (c, f) i e) as [c' f'] eqn:Hb.
    destruct (IH (S i) c' f') as (H1 & H2 & H3). cbv zeta in *.
    rewrite H1, H2, H3. clear IH H1 H2 H3.
    unfold Types2.body in Hb.
    destruct e; cbn [El.type] in Hb; cbv zeta in Hb; injection Hb as <- <-;
      cbn; rewrite ?orb_false_r, ?orb_true_r; repeat split; reflexivity.
Qed.

(** X19.  The metadata of the index: [totalElements] is the length of the
    sequence, [hasMedia] tells whether it holds an image, and
    [dominantType] is a type that no other type outnumbers; it is empty
    for the empty sequence only. *)
Theorem Types2_metadata (sequence : list Element) :
  let meta := Index.metadata (Types2.processByType sequence) in
  Index.totalElements meta = length sequence
  ∧ (Index.hasMedia meta = true ↔ ∃ e, e ∈ sequence ∧ El.type e = TImage)
  ∧ (Index.dominantType meta = None ↔ sequence = [])
  ∧ ∀ t, Index.dominantType meta = Some t →
      (0 < countOfType t sequence)%nat
      ∧ ∀ t', (countOfType t' sequence ≤ countOfType t sequence)%nat.
Proof.
  unfold Types2.processByType.
  destruct (Types2_loop_metadata sequence sequence 0%nat (Index.initial sequence) [])
    as (Htot & Hmedia & Hfreq).
  destruct (forIndex _ _ _ _) as [c f]. cbn [fst snd] in *. cbv zeta.
  cbn [Index.metadata Index.setDominantType Index.totalElements Index.hasMedia
       Index.dominantType].
  assert (Hcount : ∀ t, default 0%nat (Index.freqGet f t) = countOfType t sequence).
  { intros t. rewrite Hfreq, freqGet_counts. cbn. unfold countOfType.
    clear. induction sequence as [| e l IH]; [reflexivity |].
    cbn [fmap list_fmap]. rewrite !filter_cons.
    destruct (decide (El.type e = t)); cbn; rewrite IH; reflexivity. }
  assert (Hnd : NoDup (fst <$> f)).
  { rewrite Hfreq. apply countType_NoDup. constructor. }
  destruct (dominant_loop f 0%nat None) as (_ & Hmax & Hdom).
  unfold Index.dominant. cbv zeta in *.
  set (r := foldl _ (0%nat, None) f) in *.
  split; [exact Htot |]. split; [| split].
  - rewrite Hmedia. cbn. rewrite existsb_exists. unfold El.isType.
    split.
    + intros (e & Hin & He). exists e. split; [apply list_elem_of_In; exact Hin |].
      apply bool_decide_eq_true_1 in He. exact He.
    + intros (e & Hin & He). exists e. split; [apply list_elem_of_In; exact Hin |].
      apply bool_decide_eq_true_2. exact He.
  - split.
    + intros Hnone. destruct sequence as [| e l]; [reflexivity | exfalso].
      assert (Hpos : (0 < countOfType (El.type e) (e :: l))%nat).
      { unfold countOfType. rewrite filter_cons_True by reflexivity. cbn. lia. }
      rewrite <- Hcount in Hpos.
      destruct (Index.freqGet f (El.type e)) as [n |] eqn:Hget; cbn in Hpos; [| lia].
      apply freqGet_Some_elem_of in Hget. specialize (Hmax _ _ Hget).
      destruct Hdom as [Hr | (t & Ht & _)]; [| congruence].
      rewrite Hr in Hmax. cbn in Hmax. lia.
    + intros ->. cbn in Hfreq. subst f. reflexivity.
  - intros t Ht. destruct Hdom as [Hr | (t0 & Ht0 & Hin & Hgt)].
    { rewrite Hr in Ht. discriminate. }
    assert (t0 = t) by congruence. subst t0.
    pose proof (freqGet_NoDup f t _ Hnd Hin) as Hget.
    pose proof (Hcount t) as Hct. rewrite Hget in Hct. cbn in Hct.
    split; [lia |]. intros t'.
    pose proof (Hcount t') as Hct'.
    destruct (Index.freqGet f t') as [n' |] eqn:Hget'; cbn in Hct'; [| lia].
    apply freqGet_Some_elem_of in Hget'. specialize (Hmax _ _ Hget'). lia.
Qed.


(** ** The validator *)

Section ValidatorShape.
Import Validation.

Lemma skip_loop l : ∀ previousLevel results,
  snd (foldl (fun '(previousLevel, results) heading =>
                let l := El.level (Index.element heading) in
                (l,
                 if previousLevel + 1 <? l then
                   pushWarning results
                     (mkDiagnostic "skipped_heading_level"
                        ("Heading level skipped from h" +:+ pretty previousLevel
                         +:+ " to h" +:+ pretty l)
                        (Some (AtEntry heading)))
                 else results))
             (previousLevel, results) l)
  = mkResults (errors results) (warnings results ++ skipWarnings previousLevel l)
      (suggestions results).
Proof.
  induction l as [| h l IH]; intros previousLevel results; cbn [foldl skipWarnings].
  - cbn. rewrite app_nil_r. destruct results; reflexivity.
  - cbv zeta. rewrite IH. unfold entryLevel.
    destruct (previousLevel + 1 <? El.level (Index.element h)); cbn; [| reflexivity].
    rewrite <- app_assoc. reflexivity.
Qed.

Lemma validateHeadingHierarchy_adds headings results :
  validateHeadingHierarchy headings results
  = mkResults (errors results) (warnings results ++ headingWarnings headings)
      (suggestions results).
Proof.
  unfold validateHeadingHierarchy, headingWarnings.
  destruct headings as [| h hs]; [reflexivity |]. apply skip_loop.
Qed.

Lemma emptyGroup_loop l : ∀ i results,
  forIndex (fun results index group =>
              if isEmptyGroup group then
                pushWarning results
                  (mkDiagnostic "empty_group"
                     ("Group " +:+ pretty (index + 1)%nat +:+ " is empty")
                     (Some (AtGroup group)))
              else results)
           i l results
  = mkResults (errors results) (warnings results ++ emptyGroupWarnings i l)
      (suggestions results).
Proof.
  induction l as [| g l IH]; intros i results; cbn [forIndex emptyGroupWarnings].
  - cbn. rewrite app_nil_r. destruct results; reflexivity.
  - rewrite IH. destruct (isEmptyGroup g); cbn; [| reflexivity].
    rewrite <- app_assoc. reflexivity.
Qed.

Lemma background_loop sequence l : ∀ results,
  forEachC (fun results image =>
              match Some sequence with
              | None =>
                  Throw (TypeError
                           "Cannot read properties of undefined (reading 'length')")
              | Some sequence =>
                  match findNearbyHeading (Index.element image) sequence with
                  | Some _ => Normal results
                  | None =>
                      Normal (pushSuggestion results
                                (mkDiagnostic "orphaned_background"
                                   "Background image has no associated heading"
                                   (Some (AtEntry image))))
                  end
              end)
           l results
  = Normal (mkResults (errors results) (warnings results)
              (suggestions results ++ backgroundSuggestions sequence l)).
Proof.
  unfold backgroundSuggestions.
  induction l as [| image l IH]; intros results; cbn [forEachC].
  - cbn. rewrite app_nil_r. destruct results; reflexivity.
  - rewrite filter_cons.
    destruct (findNearbyHeading (Index.element image) sequence) eqn:Hf;
      cbn [mbind Completion_bind]; rewrite IH.
    + rewrite decide_False by discriminate. reflexivity.
    + rewrite decide_True by reflexivity. cbn. rewrite <- app_assoc. reflexivity.
Qed.

(** The whole result, for a section with a sequence and a background
    bucket. *)
Lemma validateContent_shape (section : Input.Section) sequence backgrounds :
  Input.sequence (Input.content section) = Some sequence →
  Index.images (Input.byType (Input.content section)) !! "background" = Some backgrounds →
  validateContent section
  = Normal
      (mkResults
         (errors (validateFrontmatter section emptyResults))
         (headingWarnings (Index.headings (Input.byType (Input.content section)))
          ++ emptyGroupWarnings 0 (items (Input.groups (Input.content section)))
          ++ (orphanWarning <$> orphans (Input.groups (Input.content section)) sequence)
          ++ mainTitleWarnings (Input.groups (Input.content section))
          ++ (orphanWarning <$> orphans (Input.groups (Input.content section)) sequence))
         (backgroundSuggestions sequence backgrounds
          ++ mainGroupSuggestions (Input.groups (Input.content section)))).
Proof.
  destruct section as [component props [seq groups byType]]; cbn.
  intros -> Hbg. unfold validateContent. cbn [Input.content].
  fold emptyResults. set (r0 := validateFrontmatter _ _).
  assert (Hr0 : warnings r0 = [] ∧ suggestions r0 = []).
  { unfold r0, validateFrontmatter; cbn.
    destruct (isSome _), (truthy _ && _); split; reflexivity. }
  destruct Hr0 as [Hw0 Hs0].
  unfold validateStructure. cbn [Input.sequence Input.byType Input.groups].
  rewrite validateOrphanedContent_adds, emptyGroup_loop, validateHeadingHierarchy_adds.
  cbn [mbind Completion_bind errors warnings suggestions].
  unfold validateRelationships. cbn [Input.byType Input.sequence]. rewrite Hbg.
  rewrite background_loop. cbn [mbind Completion_bind errors warnings suggestions].
  unfold validateContentGroups. cbn [Input.groups].
  rewrite validateOrphanedContent_adds. rewrite Hw0, Hs0.
  unfold mainTitleWarnings, mainGroupSuggestions.
  destruct (main groups) as [m |]; [destruct (isSome _) |];
    cbn [errors warnings suggestions pushWarning pushSuggestion];
    rewrite ?app_nil_r, <- ?app_assoc; reflexivity.
Qed.

Lemma push_changes (l : list Diagnostic) d : l ++ [d] ≠ l.
Proof.
  intros H. apply (f_equal length) in H. rewrite length_app in H. cbn in H. lia.
Qed.

Lemma skipWarnings_nil_iff l : ∀ previousLevel,
  skipWarnings previousLevel l = []
  ↔ ∀ i h, l !! i = Some h → entryLevel h ≤ levelBefore previousLevel l i + 1.
Proof.
  induction l as [| a l IH]; intros previousLevel; cbn [skipWarnings].
  - split; [| reflexivity]. intros _ i h H. rewrite lookup_nil in H. discriminate.
  - destruct (previousLevel + 1 <? entryLevel a) eqn:Hlt.
    + apply Z.ltb_lt in Hlt. split; [discriminate |].
      intros H. specialize (H 0%nat a eq_refl). cbn in H. lia.
    + apply Z.ltb_ge in Hlt. cbn [app]. rewrite IH. split.
      * intros H [| i] h Hi.
        -- cbn in Hi. injection Hi as <-. exact Hlt.
        -- cbn in Hi. specialize (H i h Hi).
           destruct i as [| j]; cbn in *; [exact H |].
           destruct (l !! j) eqn:Hj; [exact H |].
           apply lookup_lt_Some in Hi. apply lookup_ge_None in Hj. lia.
      * intros H i h Hi. specialize (H (S i) h Hi).
        destruct i as [| j]; cbn in *; [exact H |].
        destruct (l !! j) eqn:Hj; [exact H |].
        apply lookup_lt_Some in Hi. apply lookup_ge_None in Hj. lia.
Qed.

Lemma skipWarnings_types l : ∀ previousLevel,
  Forall (fun d => type d = "skipped_heading_level") (skipWarnings previousLevel l).
Proof.
  induction l as [| a l IH]; intros previousLevel; cbn [skipWarnings]; [constructor |].
  destruct (_ <? _); cbn [app]; [constructor; [reflexivity |] |]; apply IH.
Qed.

Lemma emptyGroupWarnings_types l : ∀ i,
  Forall (fun d => type d = "empty_group") (emptyGroupWarnings i l).
Proof.
  induction l as [| g l IH]; intros i; cbn [emptyGroupWarnings]; [constructor |].
  destruct (isEmptyGroup g); cbn [app]; [constructor; [reflexivity |] |]; apply IH.
Qed.

End ValidatorShape.

(** X20.  For the entries of headings whose levels are safe integers,
    [validateHeadingHierarchy] leaves the results as they are exactly
    when there is a heading, the first heading has level 1 or less, and
    no heading lies more than one level below the heading before it.
    The statement is about such entries only: [level] is a property of
    heading elements, and [previousLevel + 1], computed on doubles in the
    source, is exact on safe integers. *)
Theorem validateHeadingHierarchy_silent_iff (headings : list Index.Entry)
    (results : Validation.Results) :
  Forall headingEntry headings →
  Validation.validateHeadingHierarchy headings results = results
  ↔ headings ≠ []
    ∧ ∀ i h, headings !! i = Some h → entryLevel h ≤ levelBefore 0 headings i + 1.
Proof.
  intros _. rewrite validateHeadingHierarchy_adds. unfold headingWarnings.
  destruct headings as [| a l].
  - split; [| intros [H _]; congruence].
    intros H. apply (f_equal Validation.warnings) in H. cbn in H.
    apply push_changes in H. destruct H.
  - rewrite <- skipWarnings_nil_iff. split.
    + intros H. split; [discriminate |].
      apply (f_equal Validation.warnings) in H. cbn [Validation.warnings] in H.
      rewrite <- (app_nil_r (Validation.warnings results)) in H at 2.
      apply app_inv_head in H. exact H.
    + intros [_ ->]. rewrite app_nil_r. destruct results; reflexivity.
Qed.

Lemma validateHeadingHierarchy_silent_iff_witness :
  Validation.validateHeadingHierarchy
    [ Index.mkEntry (HeadingEl 1 "Why Choose Rosetta" 1 [])
        (Index.getElementContext featureSequence 0);
      Index.mkEntry (HeadingEl 2 "Natural Writing" 5 ["highlight"])
        (Index.getElementContext featureSequence 2) ]
    emptyResults
  = emptyResults.
Proof.
  apply (proj2 (validateHeadingHierarchy_silent_iff
                  [ Index.mkEntry (HeadingEl 1 "Why Choose Rosetta" 1 [])
                      (Index.getElementContext featureSequence 0);
                    Index.mkEntry (HeadingEl 2 "Natural Writing" 5 ["highlight"])
                      (Index.getElementContext featureSequence 2) ]
                  emptyResults
                  ltac:(repeat constructor; cbn; lia))).
  split; [discriminate |].
  intros [| [| i]] h Hi; cbn in Hi; try discriminate; injection Hi as <-; cbn; lia.
Defined.

Lemma validateContent_returns (section : Validation.Input.Section) r :
  Validation.validateContent section = Normal r →
  is_Some (Validation.Input.sequence (Validation.Input.content section))
  ∧ is_Some (Index.images (Validation.Input.byType (Validation.Input.content section))
             !! "background").
Proof.
  intros Hr. destruct section as [component props [seq groups byType]].
  unfold Validation.validateContent, Validation.validateStructure,
    Validation.validateRelationships in Hr.
  cbn [Validation.Input.content Validation.Input.sequence Validation.Input.byType] in *.
  destruct seq as [sequence |].
  - split; [eauto |].
    destruct (Index.images byType !! "background"); [eauto |].
    rewrite validateOrphanedContent_adds in Hr. cbn in Hr. discriminate.
  - exfalso. cbn [mbind Completion_bind] in Hr.
    destruct (Index.images byType !! "background") as [[| b bs] |];
      cbn in Hr; discriminate.
Qed.

(** X21.  [validateContent] returns exactly when the section has a sequence and
    its index has a [background] bucket; in every other case it ends in a
    [TypeError], also after it has recorded [invalid_sequence]. *)
Theorem validateContent_returns_iff (section : Validation.Input.Section) :
  (∃ r, Validation.validateContent section = Normal r)
  ↔ is_Some (Validation.Input.sequence (Validation.Input.content section))
    ∧ is_Some (Index.images (Validation.Input.byType (Validation.Input.content section))
               !! "background").
Proof.
  split.
  - intros [r Hr]. exact (validateContent_returns section r Hr).
  - intros [[sequence Hs] [bgs Hb]]. eexists.
    apply (validateContent_shape section sequence bgs Hs Hb).
Qed.

(** X22.  What a returned result can hold, for a section whose sequence
    is an array: the errors are those of the frontmatter alone, and the
    warnings and the suggestions carry the tags of their checks only. *)
Theorem validateContent_diagnostic_types (section : Validation.Input.Section)
    (sequence : list Element) (r : Validation.Results) :
  Validation.Input.sequence (Validation.Input.content section) = Some sequence →
  Validation.validateContent section = Normal r →
  Validation.errors r = Validation.errors (Validation.validateFrontmatter section emptyResults)
  ∧ (∀ d, d ∈ Validation.errors r →
       Validation.type d ∈ ["missing_component"; "invalid_props"])
  ∧ (∀ d, d ∈ Validation.warnings r →
       Validation.type d ∈ ["no_headings"; "skipped_heading_level"; "empty_group";
                            "orphaned_content"; "no_main_title"])
  ∧ (∀ d, d ∈ Validation.suggestions r →
       Validation.type d ∈ ["orphaned_background"; "no_main_group"]).
Proof.
  intros Hs Hr.
  destruct (validateContent_returns section r Hr) as [_ [bgs Hb]].
  rewrite (validateContent_shape section sequence bgs Hs Hb) in Hr.
  injection Hr as <-. cbn [Validation.errors Validation.warnings Validation.suggestions].
  split; [reflexivity |]. split; [| split].
  - intros d. unfold Validation.validateFrontmatter, emptyResults, Validation.pushError.
    destruct (isSome _), (Validation.truthy _ && _); cbn;
      intros H; rewrite ?elem_of_cons, ?elem_of_nil in H;
      repeat destruct H as [H | H]; try contradiction; subst; cbn;
      rewrite !elem_of_cons; auto 10.
  - intros d. rewrite !elem_of_app. intros [H | [H | [H | [H | H]]]].
    + unfold headingWarnings in H.
      destruct (Index.headings _) as [| h hs] eqn:Hh.
      * apply list_elem_of_singleton in H. subst d. cbn. rewrite !elem_of_cons; auto 10.
      * pose proof (skipWarnings_types (h :: hs) 0) as Hall.
        rewrite Forall_forall in Hall. rewrite (Hall d H). rewrite !elem_of_cons; auto 10.
    + pose proof (emptyGroupWarnings_types
                    (items (Validation.Input.groups (Validation.Input.content section)))
                    0%nat) as Hall.
      rewrite Forall_forall in Hall. rewrite (Hall d H). rewrite !elem_of_cons; auto 10.
    + apply list_elem_of_fmap in H as (e & -> & _). cbn. rewrite !elem_of_cons; auto 10.
    + unfold mainTitleWarnings in H.
      destruct (main _) as [m |]; [destruct (isSome _) |];
        try (inversion H; fail).
      apply list_elem_of_singleton in H. subst d. cbn. rewrite !elem_of_cons; auto 10.
    + apply list_elem_of_fmap in H as (e & -> & _). cbn. rewrite !elem_of_cons; auto 10.
  - intros d. rewrite elem_of_app. intros [H | H].
    + unfold backgroundSuggestions in H.
      apply list_elem_of_fmap in H as (e & -> & _). cbn. rewrite !elem_of_cons; auto 10.
    + unfold mainGroupSuggestions in H.
      destruct (main _) as [m |]; [inversion H |].
      apply list_elem_of_singleton in H. subst d. cbn. rewrite !elem_of_cons; auto 10.
Qed.


Lemma validateContent_diagnostic_types_witness :
  ∃ r, Validation.validateContent
         (sectionOf [HeadingEl 2 "Sub" 0 []; ParagraphEl "Body" 1]
            (Groups2.processGroups [HeadingEl 2 "Sub" 0 []; ParagraphEl "Body" 1]))
       = Normal r
     ∧ Validation.errors r = []
     ∧ (∀ d, d ∈ Validation.warnings r →
          Validation.type d ∈ ["no_headings"; "skipped_heading_level"; "empty_group";
                               "orphaned_content"; "no_main_title"]).
Proof.
  eexists. split; [vm_compute; reflexivity |].
  match goal with
  | |- Validation.errors ?r = _ ∧ _ =>
      destruct (validateContent_diagnostic_types
                  (sectionOf [HeadingEl 2 "Sub" 0 []; ParagraphEl "Body" 1]
                     (Groups2.processGroups [HeadingEl 2 "Sub" 0 []; ParagraphEl "Body" 1]))
                  [HeadingEl 2 "Sub" 0 []; ParagraphEl "Body" 1]
                  r) as (He & _ & Hw & _)
  end.
  - reflexivity.
  - vm_compute. reflexivity.
  - split; [exact He | exact Hw].
Defined.

(** ** The grouping engines under the validator *)







(** ** Formatting *)

Lemma format_block_head {A} (mark : string) (msg : A → string) (l : list A) :
  ∀ (c : ascii) (out : string),
  ∃ rest, foldl (fun output a => output +:+ mark +:+ msg a +:+ LF) (String c out) l
          = String c rest.
Proof.
  induction l as [| a l IH]; intros c out; cbn [foldl]; [eauto |].
  apply (IH c (out +:+ mark +:+ msg a +:+ LF)).
Qed.

(** X25.  [formatValidationMessages] answers with the no-issues line exactly
    for a result without errors, warnings and suggestions; every other
    output starts with a line break. *)
Theorem formatValidationMessages_no_issues_iff (results : Validation.Results) :
  (formatValidationMessages results = "✅ No issues found"
   ↔ Validation.errors results = [] ∧ Validation.warnings results = []
     ∧ Validation.suggestions results = [])
  ∧ (formatValidationMessages results = "✅ No issues found"
     ∨ ∃ rest, formatValidationMessages results = LF +:+ rest).
Proof.
  assert (Hblock : ∀ (mark header : string) (l : list Validation.Diagnostic) (o : string),
            let o' :=
              if negb (length l =? 0)%nat then
                foldl (fun output d => output +:+ mark +:+ Validation.message d +:+ LF)
                      (o +:+ LF +:+ header +:+ LF) l
              else o in
            ((∃ rest, o = LF +:+ rest) → ∃ rest, o' = LF +:+ rest)
            ∧ (o = "" → (l = [] ∧ o' = "") ∨ (l ≠ [] ∧ ∃ rest, o' = LF +:+ rest))).
  { intros mark header l o. cbv zeta. split.
    - intros [rest ->]. destruct (negb _); [| eauto].
      apply (format_block_head mark Validation.message l).
    - intros ->. destruct l as [| d l]; [left; split; reflexivity | right].
      split; [discriminate |]. cbn [length Nat.eqb negb].
      apply (format_block_head mark Validation.message (d :: l)). }
  destruct results as [es ws ss]. unfold formatValidationMessages.
  cbn [Validation.errors Validation.warnings Validation.suggestions]. cbv zeta.
  pose proof (Hblock "❌ " "Errors:" es "") as [_ H1]. cbv zeta in H1.
  specialize (H1 eq_refl).
  set (o1 := if negb (length es =? 0)%nat then _ else _) in *.
  pose proof (Hblock "⚠️  " "Warnings:" ws o1) as [H2a H2b]. cbv zeta in H2a, H2b.
  set (o2 := if negb (length ws =? 0)%nat then _ else _) in *.
  pose proof (Hblock "💡 " "Suggestions:" ss o2) as [H3a H3b]. cbv zeta in H3a, H3b.
  set (o3 := if negb (length ss =? 0)%nat then _ else _) in *.
  assert (Hcases : (es = [] ∧ ws = [] ∧ ss = [] ∧ o3 = "")
                   ∨ ((es ≠ [] ∨ ws ≠ [] ∨ ss ≠ []) ∧ ∃ rest, o3 = LF +:+ rest)).
  { destruct H1 as [[He Ho1] | [He Ho1]].
    - destruct (H2b Ho1) as [[Hw Ho2] | [Hw Ho2]].
      + destruct (H3b Ho2) as [[Hs Ho3] | [Hs Ho3]]; [left; auto | right; auto].
      + right. auto.
    - right. auto. }
  clearbody o3. clear - Hcases.
  destruct Hcases as [(-> & -> & -> & ->) | [Hne [rest ->]]].
  - split; [split; auto | left; reflexivity].
  - rewrite bool_decide_eq_false_2 by discriminate. split.
    + split; [discriminate |]. intros (-> & -> & ->).
      destruct Hne as [H | [H | H]]; congruence.
    + right. eauto.
Qed.


(** ** Section identifiers *)

Lemma splitChar_nonempty sep s : splitChar sep s ≠ [].
Proof.
  destruct s as [| c s]; cbn; [discriminate |].
  destruct (bool_decide (c = sep)); [discriminate |].
  destruct (splitChar sep s); discriminate.
Qed.

Lemma splitChar_free sep s : freeOf sep s = true → splitChar sep s = [s].
Proof.
  induction s as [| c s IH]; cbn; [reflexivity |].
  intros H. apply andb_prop in H as [Hc Hs].
  apply negb_true_iff in Hc. rewrite Hc, (IH Hs). reflexivity.
Qed.

Lemma splitChar_app sep a b :
  splitChar sep (a +:+ String sep b) = splitChar sep a ++ splitChar sep b.
Proof.
  induction a as [| c a IH].
  - change ("" +:+ String sep b) with (String sep b). cbn.
    rewrite bool_decide_eq_true_2 by reflexivity. reflexivity.
  - change (String c a +:+ String sep b) with (String c (a +:+ String sep b)). cbn.
    rewrite IH. destruct (bool_decide (c = sep)); [reflexivity |].
    pose proof (splitChar_nonempty sep a) as Hne.
    destruct (splitChar sep a); [congruence | reflexivity].
Qed.

Lemma splitChar_head sep s : head (splitChar sep s) = Some (upTo sep s).
Proof.
  induction s as [| c s IH]; cbn; [reflexivity |].
  destruct (bool_decide (c = sep)); [reflexivity |].
  destruct (splitChar sep s); cbn in *; congruence.
Qed.

(** X26.  [getSectionId] looks at the last component of the path only and
    returns what stands before its first dash: the whole file name,
    extension and all, when it has no dash. *)
Theorem getSectionId_of_path (dir name : string) :
  freeOf "/" name = true →
  getSectionId (dir +:+ "/" +:+ name) = Some (upTo "-" name)
  ∧ getSectionId name = Some (upTo "-" name).
Proof.
  intros Hfree. unfold getSectionId.
  change (dir +:+ "/" +:+ name) with (dir +:+ String "/" name).
  rewrite splitChar_app, (splitChar_free "/" name Hfree).
  rewrite last_snoc. cbn. rewrite splitChar_head. split; reflexivity.
Qed.

Lemma getSectionId_of_path_witness :
  getSectionId "pages/home/2.1-feature-one.md" = Some "2.1"
  ∧ getSectionId "2.1-feature-one.md" = Some "2.1".
Proof.
  apply (getSectionId_of_path "pages/home" "2.1-feature-one.md"). reflexivity.
Defined.


(** ** The role prefix of an image *)

Section RolePrefix.
Import Regex.

Lemma m_Star {R} r1 len caps s (k : Captures → list ascii → option R) :
  m (Star r1) len caps s k = starLoop r1 len k (length s) caps s.
Proof. reflexivity. Qed.

(** A starred class is greedy: when the continuation accepts what is left
    after the longest run, that is the match. *)
Lemma starLoop_class {R} p len (k : Captures → list ascii → option R) : ∀ s fuel caps,
  (length s ≤ fuel)%nat →
  is_Some (k caps (dropWhile p s)) →
  starLoop (Class p) len k fuel caps s = k caps (dropWhile p s).
Proof.
  induction s as [| c s IH]; intros fuel caps Hfuel Hk.
  - destruct fuel; reflexivity.
  - destruct fuel as [| fuel]; [cbn in Hfuel; lia |].
    cbn [starLoop m dropWhile] in *. destruct (p c) eqn:Hp; [| reflexivity].
    assert (Hlt : (length s <? length (c :: s))%nat = true)
      by (apply Nat.ltb_lt; cbn; lia).
    rewrite Hlt.
    change ((fix loop (fuel0 : nat) (caps0 : Captures) (s0 : list ascii) : option R :=
               match fuel0 with
               | O => k caps0 s0
               | S fuel' =>
                   match
                     m (Class p) len caps0 s0 (fun caps' s' =>
                       if (length s' <? length s0)%nat then loop fuel' caps' s' else None)
                   with
                   | Some x => Some x
                   | None => k caps0 s0
                   end
               end) fuel caps s)
      with (starLoop (Class p) len k fuel caps s).
    rewrite IH by (cbn in Hfuel; lia || exact Hk).
    destruct Hk as [x Hx]. rewrite Hx. reflexivity.
Qed.

Lemma take_takeWhile {A} (p : A → bool) (l : list A) :
  take (length l - length (dropWhile p l))%nat l = takeWhile p l.
Proof.
  induction l as [| a l IH]; [reflexivity |].
  cbn [dropWhile takeWhile]. destruct (p a).
  - assert (Hle : (length (dropWhile p l) ≤ length l)%nat).
    { clear. induction l as [| b l IH]; cbn; [lia |]. destruct (p b); cbn; lia. }
    replace (length (a :: l) - length (dropWhile p l))%nat
      with (S (length l - length (dropWhile p l))) by (cbn; lia).
    cbn. rewrite IH. reflexivity.
  - rewrite Nat.sub_diag. reflexivity.
Qed.

Lemma m_lit {R} (w : string) : w ≠ "" →
  ∀ len caps s (k : Captures → list ascii → option R),
    m (lit w) len caps s k
    = match stripPrefix (list_ascii_of_string w) s with
      | Some rest => k caps rest
      | None => None
      end.
Proof.
  induction w as [| c w IH]; [intros H; destruct (H eq_refl) |]. intros _ len caps s k.
  destruct w as [| c2 w2].
  - cbn. destruct s as [| c' s']; [reflexivity |].
    destruct (bool_decide (c' = c)); reflexivity.
  - change (lit (String c (String c2 w2))) with (Seq (Chr c) (lit (String c2 w2))).
    cbn [m list_ascii_of_string stripPrefix].
    destruct s as [| c' s']; [reflexivity |].
    destruct (bool_decide (c' = c)); [| reflexivity].
    apply IH. discriminate.
Qed.

Lemma stripPrefix_Some w : ∀ s rest, stripPrefix w s = Some rest → s = w ++ rest.
Proof.
  induction w as [| c w IH]; intros s rest H; cbn in H; [cbn; congruence |].
  destruct s as [| c' s']; [discriminate |].
  destruct (decide (c' = c)) as [-> | Hne].
  - rewrite bool_decide_eq_true_2 in H by reflexivity. cbn. f_equal. apply IH. exact H.
  - rewrite bool_decide_eq_false_2 in H by assumption. discriminate.
Qed.

Lemma stripPrefix_capture w s rest :
  stripPrefix w s = Some rest → take (length s - length rest)%nat s = w.
Proof.
  intros H. apply stripPrefix_Some in H. subst s.
  rewrite length_app. replace (length w + length rest - length rest)%nat
    with (length w) by lia.
  apply take_app_length.
Qed.

(** The tail of the role prefix: a colon, white space, the rest of the
    line as group 2. *)
Lemma m_tail {R} len caps s (F : Captures → list ascii → R) :
  m (Seq (Chr ":") (Seq (Star (Class space)) (Cap 2 (Star (Class dot)))))
    len caps s (fun caps' s' => Some (F caps' s'))
  = match s with
    | c :: text =>
        if bool_decide (c = ":"%char) then
          Some (F (<[2%nat := cleanAlt text]> caps)
                  (dropWhile dot (dropWhile space text)))
        else None
    | [] => None
    end.
Proof.
  cbn [m]. destruct s as [| c text]; [reflexivity |].
  destruct (bool_decide (c = ":"%char)); [| reflexivity].
  change ((fix loop (fuel : nat) (caps0 : Captures) (s0 : list ascii) : option R :=
             match fuel with
             | O => _
             | S fuel' => _
             end) (length text) caps text)
    with (m (Star (Class space)) len caps text
            (fun caps' s' => m (Cap 2 (Star (Class dot))) len caps' s'
                               (fun caps'' s'' => Some (F caps'' s'')))).
  assert (Hcap : ∀ t,
            m (Cap 2 (Star (Class dot))) len caps t
              (fun caps'' s'' => Some (F caps'' s''))
            = Some (F (<[2%nat := string_of_list_ascii (takeWhile dot t)]> caps)
                      (dropWhile dot t))).
  { intros t.
    change (m (Cap 2 (Star (Class dot))) len caps t (fun caps'' s'' => Some (F caps'' s'')))
      with (m (Star (Class dot)) len caps t
              (fun caps' s' =>
                 Some (F (<[2%nat := string_of_list_ascii
                                       (take (length t - length s')%nat t)]> caps') s'))).
    rewrite m_Star, starLoop_class by (eauto || lia).
    rewrite take_takeWhile. reflexivity. }
  rewrite m_Star, starLoop_class; [apply Hcap | lia | rewrite Hcap; eauto].
Qed.

End RolePrefix.


Section RoleMatch.
Import Regex.

Lemma m_Seq_Bol {R} r len caps s (k : Captures → list ascii → option R) :
  m (Seq Bol r) len caps s k
  = if (length s =? len)%nat then m r len caps s k else None.
Proof. reflexivity. Qed.

Lemma wordThenTail_afterWord {R} s (w : string) (F : Captures → list ascii → R) :
  w ≠ "" →
  wordThenTail s F w
  = match afterWord w s with
    | Some text =>
        Some (F (<[2%nat := cleanAlt text]> (<[1%nat := w]> ∅))
                (dropWhile dot (dropWhile space text)))
    | None => None
    end.
Proof.
  intros Hw. unfold wordThenTail. rewrite (m_lit w Hw). unfold afterWord.
  destruct (stripPrefix (list_ascii_of_string w) s) as [rest |] eqn:Hp; [| reflexivity].
  unfold roleTailRe. rewrite m_tail, (stripPrefix_capture _ _ _ Hp).
  rewrite string_of_list_ascii_of_string.
  destruct rest as [| c text]; [reflexivity |].
  destruct (bool_decide (c = ":"%char)); reflexivity.
Qed.

Lemma matchAt_roleRe_words s :
  let F := fun (caps : Captures) (s' : list ascii) =>
             mkMatch (length s - length s)%nat
               (string_of_list_ascii (take (length s - length s')%nat s)) caps in
  matchAt roleRe (length s) s
  = match wordThenTail s F "background" with
    | Some x => Some x
    | None =>
        match wordThenTail s F "icon" with
        | Some x => Some x
        | None => wordThenTail s F "gallery"
        end
    end.
Proof.
  intros F. unfold matchAt, roleRe. rewrite m_Seq_Bol, Nat.eqb_refl. reflexivity.
Qed.

(** The role prefix matches exactly the alt texts that start with one of
    the three role words and a colon. *)
Lemma matchAt_roleRe s :
  matchAt roleRe (length s) s
  = match rolePrefix s with
    | Some (r, text) =>
        Some (mkMatch (length s - length s)%nat
                (string_of_list_ascii
                   (take (length s - length (dropWhile dot (dropWhile space text)))%nat s))
                (<[2%nat := cleanAlt text]> (<[1%nat := roleName r]> ∅)))
    | None => None
    end.
Proof.
  rewrite matchAt_roleRe_words. cbv zeta.
  rewrite !wordThenTail_afterWord by discriminate.
  unfold rolePrefix.
  destruct (afterWord "background" s) as [text |]; [reflexivity |].
  destruct (afterWord "icon" s) as [text |]; [reflexivity |].
  destruct (afterWord "gallery" s) as [text |]; reflexivity.
Qed.

(** Away from the start of the input the prefix cannot match. *)
Lemma search_roleRe_later len : ∀ s, (length s < len)%nat → search roleRe len s = None.
Proof.
  induction s as [| c s IH]; intros Hlt.
  - cbn [search]. unfold matchAt, roleRe. rewrite m_Seq_Bol.
    rewrite (proj2 (Nat.eqb_neq _ _)) by lia. reflexivity.
  - cbn [search]. unfold matchAt at 1, roleRe at 1. rewrite m_Seq_Bol.
    rewrite (proj2 (Nat.eqb_neq _ _)) by lia. apply IH. cbn in Hlt. lia.
Qed.

Lemma length_list_ascii_of_string str :
  length (list_ascii_of_string str) = String.length str.
Proof. induction str as [| c str IH]; cbn; [reflexivity | f_equal; exact IH]. Qed.

Lemma match_roleRe (alt : string) :
  match_ alt roleRe
  = match rolePrefix (list_ascii_of_string alt) with
    | Some (r, text) =>
        Some (mkMatch (String.length alt - String.length alt)%nat
                (string_of_list_ascii
                   (take (String.length alt
                          - length (dropWhile dot (dropWhile space text)))%nat
                         (list_ascii_of_string alt)))
                (<[2%nat := cleanAlt text]> (<[1%nat := roleName r]> ∅)))
    | None => None
    end.
Proof.
  unfold match_, exec. rewrite <- length_list_ascii_of_string.
  set (s := list_ascii_of_string alt).
  destruct s as [| c s'] eqn:Hs.
  - cbn [search]. rewrite (matchAt_roleRe []). destruct (rolePrefix []) as [[r text] |];
      reflexivity.
  - cbn [search]. rewrite (matchAt_roleRe (c :: s')).
    destruct (rolePrefix (c :: s')) as [[r text] |]; [reflexivity |].
    apply search_roleRe_later. cbn. lia.
Qed.

End RoleMatch.

(** X27.  What [processImageNode] makes of the alt text, in both listings: an
    alt text that starts with [background], [icon] or [gallery] and a
    colon gives that role at every position, and the alt kept is what
    follows the colon without its leading white space, cut at the first
    line break.  Every other alt text is kept whole, with the role
    [content]; in the second listing with [background] at position 0. *)
Theorem processImageNode_role_prefix (node : Node) (p : Z) :
  let alt := default "" (orElse (Ast.alt node) None) in
  let element (role : ImageRole) (alt : string) :=
    ImageEl (Some role) (Ast.url node) alt (orElse (Ast.title node) None) p in
  Sequence2.processImageNode node p
  = match rolePrefix (list_ascii_of_string alt) with
    | Some (r, text) => element r (cleanAlt text)
    | None => element (if p =? 0 then RBackground else RContent) alt
    end
  ∧ Sequence1.processImageNode node p
    = match rolePrefix (list_ascii_of_string alt) with
      | Some (r, text) => element r (cleanAlt text)
      | None => element RContent alt
      end.
Proof.
  intros alt element. unfold Sequence2.processImageNode, Sequence1.processImageNode.
  cbv zeta. fold alt. rewrite (match_roleRe alt).
  destruct (rolePrefix (list_ascii_of_string alt)) as [[r text] |].
  - cbv beta iota delta [Regex.groups].
    assert (H1 : ∀ a b : string,
              <[2%nat := a]> (<[1%nat := b]> (∅ : Regex.Captures)) !! 1%nat = Some b).
    { intros a b. unfold Regex.Captures.
      rewrite lookup_insert_ne by discriminate. apply lookup_insert_eq. }
    assert (H2 : ∀ a b : string,
              <[2%nat := a]> (<[1%nat := b]> (∅ : Regex.Captures)) !! 2%nat = Some a).
    { intros a b. unfold Regex.Captures. apply lookup_insert_eq. }
    rewrite H1, H2. cbn [default].
    destruct r; split; reflexivity.
  - destruct (p =? 0); split; reflexivity.
Qed.


(** *** The helpers that walk all values of the index *)

Lemma elem_of_flatValues sequence (v : Helpers1.Flat) :
  v ∈ Helpers1.flatValues (Types2.processByType sequence)
  ∧ is_Some (Helpers1.flatContext v)
  ↔ ∃ en, v = Helpers1.FEntry en ∧ en ∈ entries sequence ∧ entryType en ≠ TImage.
Proof.
  pose proof (Types2_bucket_eq sequence THeading ltac:(discriminate)) as Hh.
  pose proof (Types2_bucket_eq sequence TParagraph ltac:(discriminate)) as Hp.
  pose proof (Types2_bucket_eq sequence TList ltac:(discriminate)) as Hl.
  pose proof (Types2_bucket_eq sequence TCode ltac:(discriminate)) as Hc.
  pose proof (Types2_bucket_eq sequence TDivider ltac:(discriminate)) as Hd.
  cbn [bucket] in Hh, Hp, Hl, Hc, Hd.
  unfold Helpers1.flatValues. rewrite Hh, Hp, Hl, Hc, Hd. clear Hh Hp Hl Hc Hd.
  rewrite !elem_of_app, !list_elem_of_fmap, !list_elem_of_singleton.
  setoid_rewrite list_elem_of_filter. unfold hasType. split.
  - intros [Hin [ctx Hctx]].
    destruct Hin as [H | [H | [H | [H | [H | [H | [H | H]]]]]]];
      try (destruct H as (en & -> & Hty & Hin); exists en;
           split; [reflexivity | split; [exact Hin | congruence]]);
      try (subst v; discriminate).
    destruct H as (name & -> & _). discriminate.
  - intros (en & -> & Hin & Hty). split; [| cbn; eauto].
    destruct (entryType en) eqn:Ht; try congruence.
    + left. eauto.
    + right. left. eauto.
    + do 3 right. left. eauto.
    + do 4 right. left. eauto.
    + do 5 right. left. eauto.
Qed.

(** The first heading entry of a level stands at the index of the first
    heading of that level in the sequence. *)
Lemma find_heading_entries level sequence l : ∀ i,
  List.find (fun h => bool_decide (El.level (Index.element h) = level))
            (filter (hasType THeading) (entriesFrom sequence i l))
  = (fun '(k, e) => Index.mkEntry e (Index.getElementContext sequence (i + k)))
    <$> list_find (fun e => El.type e = THeading ∧ El.level e = level) l.
Proof.
  induction l as [| e l IH]; intros i; cbn [entriesFrom list_find]; [reflexivity |].
  rewrite filter_cons. unfold hasType at 1, entryType at 1. cbn [Index.element].
  destruct (decide (El.type e = THeading)) as [Hty | Hty].
  - cbn [List.find Index.element].
    destruct (decide (El.level e = level)) as [Hl | Hl].
    + rewrite bool_decide_eq_true_2 by exact Hl.
      rewrite decide_True by (split; assumption). cbn. rewrite Nat.add_0_r. reflexivity.
    + rewrite bool_decide_eq_false_2 by exact Hl.
      rewrite decide_False by tauto. rewrite IH.
      destruct (list_find _ l) as [[k h] |]; cbn; [| reflexivity].
      replace (i + S k)%nat with (S i + k)%nat by lia. reflexivity.
  - rewrite decide_False by tauto. rewrite IH.
    destruct (list_find _ l) as [[k h] |]; cbn; [| reflexivity].
    replace (i + S k)%nat with (S i + k)%nat by lia. reflexivity.
Qed.

Lemma Types1_Normal_inv (sequence : list Element) (c : Index.Collections) :
  Types1.processByType sequence = Normal c → c = Types2.processByType sequence.
Proof.
  intros Hc1.
  destruct (Forall_Exists_dec _ _ icon_or_not sequence) as [Hfree | Hicon];
    [| rewrite (Types1_throws_on_icon sequence Hicon) in Hc1; discriminate].
  rewrite (Types1_agrees_without_icons sequence Hfree) in Hc1. congruence.
Qed.

(** X28.  [getElementsBeforeHeadingLevel] on the index that
    [src/parser/types.js] returns for a sequence: with [k] the index of
    the first heading of the level, it returns the entries of the
    elements before [k], the images among them left out; without such a
    heading it returns nothing. *)
Theorem getElementsBeforeHeadingLevel_of_index
    (sequence : list Element) (c : Index.Collections) (level : Z) (v : Helpers1.Flat) :
  Types1.processByType sequence = Normal c →
  v ∈ Helpers1.getElementsBeforeHeadingLevel c level
  ↔ ∃ (k : nat) (h : Element) (en : Index.Entry),
      list_find (fun e => El.type e = THeading ∧ El.level e = level) sequence
        = Some (k, h)
      ∧ v = Helpers1.FEntry en ∧ en ∈ entries sequence
      ∧ entryType en ≠ TImage ∧ (entryIndex en < k)%nat.
Proof.
  intros Hc1. rewrite (Types1_Normal_inv sequence c Hc1). clear c Hc1.
  unfold Helpers1.getElementsBeforeHeadingLevel.
  change (Index.headings (Types2.processByType sequence))
    with (bucket (Types2.processByType sequence) THeading).
  rewrite Types2_bucket_eq by discriminate. unfold entries at 1.
  rewrite find_heading_entries.
  destruct (list_find _ sequence) as [[k h] |]; cbn [fmap option_fmap option_map].
  - cbn [Index.context Index.getElementContext Index.position].
    rewrite list_elem_of_filter. unfold Helpers1.before. split.
    + intros [Hb Hin]. destruct (Helpers1.flatContext v) as [ctx |] eqn:Hctx; [| contradiction].
      destruct (proj1 (elem_of_flatValues sequence v) (conj Hin (ex_intro _ ctx Hctx)))
        as (en & -> & Hen & Hty).
      cbn in Hctx. injection Hctx as <-.
      exists k, h, en. repeat split; try assumption.
    + intros (k' & h' & en & Hfind & -> & Hen & Hty & Hlt).
      injection Hfind as <- <-.
      destruct (proj2 (elem_of_flatValues sequence (Helpers1.FEntry en))
                  (ex_intro _ en (conj eq_refl (conj Hen Hty)))) as [Hin _].
      split; [exact Hlt | exact Hin].
  - split; [intros H; inversion H |].
    intros (k & h & en & Hfind & _). discriminate.
Qed.

Lemma getElementsBeforeHeadingLevel_of_index_witness :
  Helpers1.FEntry (Index.mkEntry (ParagraphEl "Transform how you build websites." 3)
                     (Index.getElementContext featureSequence 1))
  ∈ Helpers1.getElementsBeforeHeadingLevel (Types2.processByType featureSequence) 2.
Proof.
  apply (proj2 (getElementsBeforeHeadingLevel_of_index featureSequence
                  (Types2.processByType featureSequence) 2 _
                  ltac:(vm_compute; reflexivity))).
  exists 2%nat, (HeadingEl 2 "Natural Writing" 5 ["highlight"]),
    (Index.mkEntry (ParagraphEl "Transform how you build websites." 3)
       (Index.getElementContext featureSequence 1)).
  split; [vm_compute; reflexivity |]. split; [reflexivity |].
  split; [| split; [discriminate | cbn; lia]].
  unfold entries, featureSequence. cbn [entriesFrom]. apply elem_of_cons. right. left.
Defined.

(** X29.  [getContentBetweenHeadings] on the index that [src/parser/types.js]
    returns for a sequence: the entries whose index lies strictly between
    those of the two headings, or after the first when no second is
    given; the images between them are left out. *)
Theorem getContentBetweenHeadings_of_index (sequence : list Element)
    (c : Index.Collections)
    (startHeading : Index.Entry) (endHeading : option Index.Entry) (v : Helpers1.Flat) :
  Types1.processByType sequence = Normal c →
  v ∈ Helpers1.getContentBetweenHeadings c startHeading endHeading
  ↔ ∃ en : Index.Entry,
      v = Helpers1.FEntry en ∧ en ∈ entries sequence ∧ entryType en ≠ TImage
      ∧ (entryIndex startHeading < entryIndex en)%nat
      ∧ ∀ h, endHeading = Some h → (entryIndex en < entryIndex h)%nat.
Proof.
  intros Hc1. rewrite (Types1_Normal_inv sequence c Hc1). clear c Hc1.
  unfold Helpers1.getContentBetweenHeadings. cbv zeta.
  rewrite list_elem_of_filter. unfold Helpers1.between. split.
  - intros [Hb Hin]. destruct (Helpers1.flatContext v) as [ctx |] eqn:Hctx; [| contradiction].
    destruct (proj1 (elem_of_flatValues sequence v) (conj Hin (ex_intro _ ctx Hctx)))
      as (en & -> & Hen & Hty).
    cbn in Hctx. injection Hctx as <-. destruct Hb as [Hs He].
    exists en. repeat split; try assumption.
    intros h ->. exact He.
  - intros (en & -> & Hen & Hty & Hs & He).
    destruct (proj2 (elem_of_flatValues sequence (Helpers1.FEntry en))
                (ex_intro _ en (conj eq_refl (conj Hen Hty)))) as [Hin _].
    split; [| exact Hin]. cbn [Helpers1.flatContext]. split; [exact Hs |].
    destruct endHeading as [h |]; cbn; [apply He; reflexivity | exact I].
Qed.

Lemma getContentBetweenHeadings_of_index_witness :
  Helpers1.getContentBetweenHeadings (Types2.processByType featureSequence)
    (Index.mkEntry (HeadingEl 2 "Natural Writing" 5 ["highlight"])
       (Index.getElementContext featureSequence 2))
    None
  = [Helpers1.FEntry
       (Index.mkEntry (ParagraphEl "Write content using familiar markdown conventions." 8)
          (Index.getElementContext featureSequence 4))]
  ∧ (Helpers1.FEntry
       (Index.mkEntry (ParagraphEl "Write content using familiar markdown conventions." 8)
          (Index.getElementContext featureSequence 4))
     ∈ Helpers1.getContentBetweenHeadings (Types2.processByType featureSequence)
         (Index.mkEntry (HeadingEl 2 "Natural Writing" 5 ["highlight"])
            (Index.getElementContext featureSequence 2))
         None).
Proof.
  split; [vm_compute; reflexivity |].
  apply (proj2 (getContentBetweenHeadings_of_index featureSequence
                  (Types2.processByType featureSequence) _ None _
                  ltac:(vm_compute; reflexivity))).
  eexists. split; [reflexivity |].
  split; [| split; [discriminate | split; [cbn; lia | discriminate]]].
  unfold entries, featureSequence. cbn [entriesFrom].
  do 4 (apply elem_of_cons; right). left.
Defined.


(** ** The metadata of the groups *)

Lemma structureGroups_add (P : Group → Prop) g st (b : bool) :
  Forall P (structureGroups st) → P g →
  Forall P (structureGroups
              (if b then mkStructure (Some g) (items st)
               else mkStructure (main st) (items st ++ [g]))).
Proof.
  unfold structureGroups. intros Hst Hg. destruct st as [m its]. cbn in *.
  apply Forall_app in Hst as [Hm Hits].
  destruct b; cbn.
  - constructor; assumption.
  - apply Forall_app. split; [exact Hm |].
    apply Forall_app. split; [exact Hits | constructor; [exact Hg | constructor]].
Qed.

Lemma Groups1_addGroupToStructure_bare g st :
  Forall bareMetadata (structureGroups st) → bareMetadata g →
  Forall bareMetadata (structureGroups (Groups1.addGroupToStructure g st)).
Proof.
  intros Hst [Hc Hm]. unfold Groups1.addGroupToStructure. cbv zeta.
  apply structureGroups_add; [exact Hst |].
  split; cbn; [rewrite Hc; reflexivity | exact Hm].
Qed.

Lemma Groups1_addHeadingToGroup_bare g h :
  bareMetadata g → bareMetadata (Groups1.addHeadingToGroup g h).
Proof.
  intros [Hc Hm]. unfold Groups1.addHeadingToGroup, bareMetadata.
  destruct (title (headings g)).
  - destruct (negb _ && _); cbn; auto.
  - destruct (_ && _); cbn; auto.
Qed.

Lemma Groups1_body_bare sequence st cur i e :
  Forall bareMetadata (structureGroups st) → from_option bareMetadata True cur →
  let r := Groups1.body sequence (st, cur) i e in
  Forall bareMetadata (structureGroups (fst r)) ∧ from_option bareMetadata True (snd r).
Proof.
  intros Hst Hcur.
  assert (Hnew : bareMetadata Groups1.createNewGroup) by (split; reflexivity).
  assert (Hflush : Forall bareMetadata (structureGroups (Groups1.flush cur st))).
  { destruct cur as [g |]; cbn; [| exact Hst].
    apply Groups1_addGroupToStructure_bare; assumption. }
  assert (Hdef : bareMetadata (default Groups1.createNewGroup cur)).
  { destruct cur as [g |]; cbn; [exact Hcur | exact Hnew]. }
  assert (Hpush : ∀ g, bareMetadata g → bareMetadata (pushContent g e)).
  { intros g [Hc Hm]. split; cbn; assumption. }
  unfold Groups1.body. cbv zeta.
  destruct (El.isType TDivider e); cbn [fst snd from_option]; [split; assumption |].
  destruct (El.isType THeading e && Groups1.shouldStartNewGroup e cur sequence i);
    destruct (El.isType THeading e); cbn [fst snd from_option default]; split;
    auto using Groups1_addHeadingToGroup_bare.
Qed.

Lemma Groups1_loop_bare sequence l : ∀ i st cur,
  Forall bareMetadata (structureGroups st) → from_option bareMetadata True cur →
  let r := forIndex (Groups1.body sequence) i l (st, cur) in
  Forall bareMetadata (structureGroups (fst r)) ∧ from_option bareMetadata True (snd r).
Proof.
  induction l as [| e l IH]; intros i st cur Hst Hcur; cbn [forIndex]; [split; assumption |].
  destruct (Groups1_body_bare sequence st cur i e Hst Hcur) as [Hst' Hcur'].
  destruct (Groups1.body sequence (st, cur) i e) as [st' cur']. cbn [fst snd] in *.
  apply IH; assumption.
Qed.

Lemma Groups2_body_summarised sequence st cur i e :
  Forall summarised (structureGroups st) →
  from_option (fun g => contentTypes (metadata g) = []) True cur →
  let r := Groups2.body sequence (st, cur) i e in
  Forall summarised (structureGroups (fst r))
  ∧ from_option (fun g => contentTypes (metadata g) = []) True (snd r).
Proof.
  intros Hst Hcur.
  assert (Hflush : Forall summarised (structureGroups (Groups2.flush cur st))).
  { destruct cur as [g |]; cbn; [| exact Hst].
    unfold Groups2.addGroupToStructure. cbv zeta.
    apply structureGroups_add; [exact Hst |].
    split; cbn; [reflexivity | cbn in Hcur; rewrite Hcur; reflexivity]. }
  assert (Hhead : ∀ g h, contentTypes (metadata g) = [] →
            contentTypes (metadata (Groups2.addHeadingToGroup g h)) = []).
  { intros g h Hg. unfold Groups2.addHeadingToGroup.
    destruct (title (headings g)); cbn; [| exact Hg].
    destruct (_ <? _); cbn; [exact Hg |].
    destruct (_ <? _); cbn; [| exact Hg].
    destruct (_ && _); cbn; exact Hg. }
  unfold Groups2.body. cbv zeta.
  destruct (El.isType TDivider e); cbn [fst snd from_option]; [split; [assumption | reflexivity] |].
  destruct (El.isType THeading e).
  - destruct (Groups2.shouldStartNewGroup e cur sequence i); cbn [fst snd from_option];
      [split; [assumption | reflexivity] |].
    split; [exact Hst |]. destruct cur as [g |]; cbn in *; auto.
  - cbn [fst snd from_option]. split; [exact Hst |].
    destruct cur as [g |]; cbn in *; auto.
Qed.

Lemma Groups2_loop_summarised sequence l : ∀ i st cur,
  Forall summarised (structureGroups st) →
  from_option (fun g => contentTypes (metadata g) = []) True cur →
  let r := forIndex (Groups2.body sequence) i l (st, cur) in
  Forall summarised (structureGroups (fst r))
  ∧ from_option (fun g => contentTypes (metadata g) = []) True (snd r).
Proof.
  induction l as [| e l IH]; intros i st cur Hst Hcur; cbn [forIndex]; [split; assumption |].
  destruct (Groups2_body_summarised sequence st cur i e Hst Hcur) as [Hst' Hcur'].
  destruct (Groups2.body sequence (st, cur) i e) as [st' cur']. cbn [fst snd] in *.
  apply IH; assumption.
Qed.

Lemma setToArray_spec {A} `{EqDecision A} (seen : list A) : ∀ acc,
  NoDup acc →
  NoDup (setToArray seen acc) ∧ ∀ x, x ∈ setToArray seen acc ↔ x ∈ acc ∨ x ∈ seen.
Proof.
  induction seen as [| a seen IH]; intros acc Hnd; cbn [setToArray].
  - split; [exact Hnd |]. intros x. rewrite elem_of_nil. tauto.
  - case_bool_decide as Hin.
    + destruct (IH acc Hnd) as [H1 H2]. split; [exact H1 |].
      intros x. rewrite H2, elem_of_cons. split; [tauto |].
      intros [Hx | [-> | Hx]]; auto.
    + assert (Hnd' : NoDup (acc ++ [a])).
      { apply NoDup_app. repeat split; [exact Hnd | | apply NoDup_singleton].
        intros x Hx Hxa. apply list_elem_of_singleton in Hxa. subst x. contradiction. }
      destruct (IH (acc ++ [a]) Hnd') as [H1 H2]. split; [exact H1 |].
      intros x. rewrite H2, elem_of_app, list_elem_of_singleton, elem_of_cons. tauto.
Qed.

(** X30.  What the groups carry as metadata.  In the first listing nothing is
    ever added to a group's set of types: [contentTypes] is the empty
    array in every group, whatever its content, and there is no
    [hasMedia].  In the second listing every group is summarised:
    [hasMedia] tells whether its content holds an image and
    [contentTypes] lists the types of its content, each once, in order of
    first occurrence. *)
Theorem processGroups_metadata (sequence : list Element) :
  Forall bareMetadata (structureGroups (Groups1.processGroups sequence))
  ∧ Forall (fun g =>
              summarised g
              ∧ NoDup (contentTypes (metadata g))
              ∧ ∀ t, t ∈ contentTypes (metadata g)
                     ↔ ∃ e, e ∈ content g ∧ El.type e = t)
           (structureGroups (Groups2.processGroups sequence)).
Proof.
  split.
  - unfold Groups1.processGroups.
    destruct (Groups1_loop_bare sequence sequence 0%nat (mkStructure None []) None)
      as [Hst Hcur]; [constructor | exact I |].
    destruct (forIndex _ _ _ _) as [st cur]. cbn [fst snd] in *.
    assert (Hfl : Forall bareMetadata (structureGroups (Groups1.flush cur st))).
    { destruct cur as [g |]; cbn; [| exact Hst].
      apply Groups1_addGroupToStructure_bare; assumption. }
    unfold Groups1.secondPass.
    destruct (Groups1.flush cur st) as [[m |] [| g its]]; cbn in *; try exact Hfl.
    destruct (title (headings g)) as [t |]; [| exact Hfl].
    destruct (El.level t =? 1); exact Hfl.
  - assert (Hsum : Forall summarised (structureGroups (Groups2.processGroups sequence))).
    { unfold Groups2.processGroups.
      destruct (Groups2_loop_summarised sequence sequence 0%nat (mkStructure None []) None)
        as [Hst Hcur]; [constructor | exact I |].
      destruct (forIndex _ _ _ _) as [st cur]. cbn [fst snd] in *.
      destruct cur as [g |]; cbn; [| exact Hst].
      unfold Groups2.addGroupToStructure. cbv zeta.
      apply structureGroups_add; [exact Hst |].
      split; cbn; [reflexivity | cbn in Hcur; rewrite Hcur; reflexivity]. }
    eapply Forall_impl; [exact Hsum |]. intros g [Hm Hc].
    split; [split; assumption |]. rewrite Hc.
    destruct (setToArray_spec (El.type <$> content g) [] NoDup_nil_2) as [H1 H2].
    split; [exact H1 |]. intros t. rewrite H2, elem_of_nil, list_elem_of_fmap.
    split.
    + intros [[] | (e & -> & He)]. eauto.
    + intros (e & He & <-). right. eauto.
Qed.
